(** * Symbolic expressions: data model, post-order traversal, differentiation

    A shallow embedding of [expressions/expressionscore.py].

    Python objects have identity, and the traversal memoizes on it, so the
    expression nodes live in an explicit store: a [heap] is the list of the
    objects constructed so far, an object's address is its index, and a
    constructor call appends one object.  Code that allocates or raises runs
    in the monad [M] (heap passing plus an exception result). *)

From Stdlib Require Import ZArith SpecFloat.
From stdpp Require Import base option list gmap strings pretty.

Local Open Scope string_scope.
Local Open Scope list_scope.
Local Open Scope nat_scope.

(** ** Values *)

Definition addr := nat.

(** The Python values the model knows: [None], booleans, integers, floats
    (as IEEE-754 values), strings, and references to objects of the classes
    of this module. *)
Inductive value :=
| VNone
| VBool (b : bool)
| VInt (n : Z)
| VFloat (f : spec_float)
| VStr (s : string)
| VRef (a : addr).

(** The classes the module defines, under their source names. *)
Inductive cls :=
| Expression | Operator | Add | Sub | Mul | Div | Pow
| Terminal | Number | Symbol.

#[global] Instance cls_eq_dec : EqDecision cls.
Proof. solve_decision. Defined.

(** [type(v)] *)
Inductive pytype :=
| TNoneType | TBool | TInt | TFloat | TStr
| TClass (c : cls).

(** The base class of a class statement ([class Add(Operator)]); the root
    [Expression] derives from [object] only. *)
Definition base (c : cls) : option cls :=
  match c with
  | Expression => None
  | Operator | Terminal => Some Expression
  | Add | Sub | Mul | Div | Pow => Some Operator
  | Number | Symbol => Some Terminal
  end.

(** Method resolution order, [object] left out. *)
Definition mro (c : cls) : list cls :=
  match base c with
  | None => [c]
  | Some b =>
      match base b with
      | None => [c; b]
      | Some b' => [c; b; b']
      end
  end.

Definition issubclass (c d : cls) : bool := bool_decide (d ∈ mro c).

(** Class attribute [precedence], inherited where a class does not set it. *)
Definition precedence (c : cls) : option nat :=
  match c with
  | Expression => None
  | Operator | Terminal | Number | Symbol => Some 0
  | Add | Sub => Some 1
  | Mul | Div => Some 2
  | Pow => Some 3
  end.

(** Class attribute [symbol] of the operators. *)
Definition symbol (c : cls) : option string :=
  match c with
  | Operator => Some ""
  | Add => Some "+" | Sub => Some "-" | Mul => Some "*"
  | Div => Some "/" | Pow => Some "^"
  | Expression | Terminal | Number | Symbol => None
  end.

(** [c.__name__] *)
Definition class_name (c : cls) : string :=
  match c with
  | Expression => "Expression" | Operator => "Operator"
  | Add => "Add" | Sub => "Sub" | Mul => "Mul" | Div => "Div" | Pow => "Pow"
  | Terminal => "Terminal" | Number => "Number" | Symbol => "Symbol"
  end.

(** [type(v).__name__] *)
Definition type_name (t : pytype) : string :=
  match t with
  | TNoneType => "NoneType" | TBool => "bool" | TInt => "int"
  | TFloat => "float" | TStr => "str"
  | TClass c => class_name c
  end.

(** ** Exceptions

    [ValueError] and [NotImplementedError] carry the message of the [raise]
    statement in the source.  The others are raised by the interpreter; they
    carry what identifies them instead of the interpreter's wording. *)
Inductive exn :=
| ValueError (msg : string)
| NotImplementedError (msg : string)
| UnpackError (expected got : nat)     (* the ValueError of [f, g = t] *)
| ArgumentError (c : cls) (given : nat) (* the TypeError of a call with the
                                          wrong number of arguments *)
| AttributeError (t : pytype) (attr : string)
| KeyError (key : value).

(** The Python class of an exception. *)
Definition exn_class (e : exn) : string :=
  match e with
  | ValueError _ | UnpackError _ _ => "ValueError"
  | NotImplementedError _ => "NotImplementedError"
  | ArgumentError _ _ => "TypeError"
  | AttributeError _ _ => "AttributeError"
  | KeyError _ => "KeyError"
  end.

(** ** Objects and the heap *)

(** An instance: its class and the two attributes the constructors set.
    Every [__init__] of the module ends in [Expression.__init__], so a
    constructed object always has [operands]; only terminals get [value]. *)
Record object := Object {
  ob_class : cls;
  ob_operands : list value;
  ob_value : option value
}.

Abbreviation heap := (list object).

Definition type_of (h : heap) (v : value) : option pytype :=
  match v with
  | VNone => Some TNoneType
  | VBool _ => Some TBool
  | VInt _ => Some TInt
  | VFloat _ => Some TFloat
  | VStr _ => Some TStr
  | VRef a => (λ o, TClass (ob_class o)) <$> h !! a
  end.

(** [isinstance(v, c)] for a class [c] of the module. *)
Definition isinstance (h : heap) (v : value) (c : cls) : bool :=
  match type_of h v with
  | Some (TClass d) => issubclass d c
  | _ => false
  end.

(** [isinstance(v, numbers.Number)]: [int], [bool] (a subclass of [int]) and
    [float] are registered numbers; strings, [None] and expression objects
    are not. *)
Definition isinstance_numbers_Number (v : value) : bool :=
  match v with
  | VBool _ | VInt _ | VFloat _ => true
  | VNone | VStr _ | VRef _ => false
  end.

(** [isinstance(v, str)] *)
Definition isinstance_str (v : value) : bool :=
  match v with
  | VStr _ => true
  | _ => false
  end.

(** Exact comparison of an integer with a float, as [int.__eq__] does it. *)
Definition int_eq_float (n : Z) (f : spec_float) : bool :=
  match f with
  | S754_zero _ => (n =? 0)%Z
  | S754_infinity _ | S754_nan => false
  | S754_finite s m e =>
      let v := if s then Z.neg m else Z.pos m in
      if (0 <=? e)%Z then (n =? v * 2 ^ e)%Z else (n * 2 ^ (- e) =? v)%Z
  end.

(** [a == b].  Expression objects do not define [__eq__], so two references
    are equal when they are the same object; values of unrelated types are
    unequal. *)
Definition py_eq (a b : value) : bool :=
  match a, b with
  | VNone, VNone => true
  | VStr s, VStr t => String.eqb s t
  | VRef x, VRef y => Nat.eqb x y
  | VFloat f, VFloat g => SFeqb f g
  | VFloat f, VInt n | VInt n, VFloat f => int_eq_float n f
  | VFloat f, VBool c | VBool c, VFloat f => int_eq_float (Z.b2z c) f
  | VInt m, VInt n => (m =? n)%Z
  | VInt m, VBool c | VBool c, VInt m => (m =? Z.b2z c)%Z
  | VBool c, VBool d => Bool.eqb c d
  | _, _ => false
  end.

(** ** The monad of heap-passing computations that may raise *)

Inductive result (A : Type) :=
| Ok (a : A)
| Raise (e : exn)
| Diverge      (* the fuel of a recursion or loop ran out *)
| Dangling.    (* a reference to no object: never with a real heap *)
Arguments Ok {A} a.
Arguments Raise {A} e.
Arguments Diverge {A}.
Arguments Dangling {A}.

Definition M (A : Type) : Type := heap → result A * heap.

Definition ret {A} (a : A) : M A := λ h, (Ok a, h).

Definition raise {A} (e : exn) : M A := λ h, (Raise e, h).

Definition bind {A B} (m : M A) (k : A → M B) : M B :=
  λ h, match m h with
       | (Ok a, h') => k a h'
       | (Raise e, h') => (Raise e, h')
       | (Diverge, h') => (Diverge, h')
       | (Dangling, h') => (Dangling, h')
       end.

Notation "x <- m ;; k" := (bind m (λ x, k))
  (at level 100, m at next level, right associativity).

(** [[f(x) for x in l]], left to right. *)
Fixpoint map_m {A B} (f : A → M B) (l : list A) : M (list B) :=
  match l with
  | [] => ret []
  | x :: l' => y <- f x ;; ys <- map_m f l' ;; ret (y :: ys)
  end.

(** Reading the object behind a value that the dispatch has shown to be an
    instance. *)
Definition deref (v : value) : M object :=
  λ h, match v with
       | VRef a => match h !! a with
                   | Some o => (Ok o, h)
                   | None => (Dangling, h)
                   end
       | _ => (Dangling, h)
       end.

(** [type(v)] *)
Definition get_type (v : value) : M pytype :=
  λ h, match type_of h v with
       | Some t => (Ok t, h)
       | None => (Dangling, h)
       end.

(** [v.operands] *)
Definition get_operands (v : value) : M (list value) :=
  t <- get_type v ;;
  match t with
  | TClass _ => o <- deref v ;; ret (ob_operands o)
  | _ => raise (AttributeError t "operands")
  end.

(** [v.value] *)
Definition get_value (v : value) : M value :=
  t <- get_type v ;;
  match t with
  | TClass _ =>
      o <- deref v ;;
      match ob_value o with
      | Some x => ret x
      | None => raise (AttributeError t "value")
      end
  | _ => raise (AttributeError t "value")
  end.

(** ** Constructors *)

(** The instance before [__init__] runs. *)
Definition blank (c : cls) : object :=
  {| ob_class := c; ob_operands := []; ob_value := None |}.

(** [Expression.__init__(self, *operands)] *)
Definition Expression__init__ (self : object) (operands : list value)
  : exn + object :=
  inr {| ob_class := ob_class self;
         ob_operands := operands;
         ob_value := ob_value self |}.

(** [Terminal.__init__(self, value)] *)
Definition Terminal__init__ (self : object) (value : value) : exn + object :=
  Expression__init__
    {| ob_class := ob_class self;
       ob_operands := ob_operands self;
       ob_value := Some value |}
    [].

(** [Number.__init__(self, value)] *)
Definition Number__init__ (self : object) (value : value) : exn + object :=
  if negb (isinstance_numbers_Number value)
  then inl (ValueError "Number must be a numeric value.")
  else Terminal__init__ self value.

(** [Symbol.__init__(self, value)] *)
Definition Symbol__init__ (self : object) (value : value) : exn + object :=
  if negb (isinstance_str value)
  then inl (ValueError "Symbol must be a string.")
  else Terminal__init__ self value.

(** The [__init__] a class inherits, applied to the call's arguments. *)
Definition init (c : cls) (self : object) (args : list value)
  : exn + object :=
  match c with
  | Expression | Operator | Add | Sub | Mul | Div | Pow =>
      Expression__init__ self args
  | Terminal =>
      match args with
      | [v] => Terminal__init__ self v
      | _ => inl (ArgumentError c (length args))
      end
  | Number =>
      match args with
      | [v] => Number__init__ self v
      | _ => inl (ArgumentError c (length args))
      end
  | Symbol =>
      match args with
      | [v] => Symbol__init__ self v
      | _ => inl (ArgumentError c (length args))
      end
  end.

(** The call [c(a1, ..., an)]: a new object is initialised and, when [__init__]
    returns, becomes the newest object of the heap. *)
Definition new (c : cls) (args : list value) : M value :=
  λ h, match init c (blank c) args with
       | inr o => (Ok (VRef (length h)), h ++ [o])
       | inl e => (Raise e, h)
       end.

(** ** Differentiation *)

(** The classes [differentiate.register] is applied to. *)
Definition registry : list cls := [Number; Symbol; Add; Mul; Div; Pow].

(** [singledispatch]: the implementation registered for the first class of
    the argument's MRO that has one; [None] stands for the generic function
    itself, which is registered for [object]. *)
Definition dispatch (t : pytype) : option cls :=
  match t with
  | TClass c => find (λ d, bool_decide (d ∈ registry)) (mro c)
  | _ => None
  end.

(** [f, g = t] *)
Definition unpack2 (t : list value) : M (value * value) :=
  match t with
  | [f; g] => ret (f, g)
  | _ => raise (UnpackError 2 (length t))
  end.

(** [isinstance(v, c)] as a step of a computation. *)
Definition check_instance (v : value) (c : cls) : M bool :=
  λ h, (Ok (isinstance h v c), h).

(** [differentiate(expr, var=var)].  The function is recursive on the
    operands; [fuel] bounds the depth of the recursion (the interpreter's
    own recursion limit is not modelled).  Arguments of a call are evaluated
    left to right, which fixes the order of the allocations and which
    exception comes first. *)
Fixpoint differentiate (fuel : nat) (expr var : value) : M value :=
  match fuel with
  | 0 => λ h, (Diverge, h)
  | S fuel =>
      t <- get_type expr ;;
      match dispatch t with
      | Some Number => new Number [VInt 0]
      | Some Symbol =>
          v <- get_value expr ;;
          if py_eq v var then new Number [VInt 1] else new Number [VInt 0]
      | Some Add =>
          ops <- get_operands expr ;;
          ds <- map_m (λ op, differentiate fuel op var) ops ;;
          new Add ds
      | Some Mul =>
          ops <- get_operands expr ;;
          fg <- unpack2 ops ;;
          let '(f, g) := fg in
          df <- differentiate fuel f var ;;
          l <- new Mul [df; g] ;;
          dg <- differentiate fuel g var ;;
          r <- new Mul [dg; f] ;;
          new Add [l; r]
      | Some Div =>
          ops <- get_operands expr ;;
          fg <- unpack2 ops ;;
          let '(f, g) := fg in
          df <- differentiate fuel f var ;;
          l <- new Mul [df; g] ;;
          dg <- differentiate fuel g var ;;
          r <- new Mul [dg; f] ;;
          num <- new Sub [l; r] ;;
          two <- new Number [VInt 2] ;;
          den <- new Pow [g; two] ;;
          new Div [num; den]
      | Some Pow =>
          ops <- get_operands expr ;;
          be <- unpack2 ops ;;
          let '(base, exponent) := be in
          constant <- check_instance exponent Number ;;
          if constant then
            one <- new Number [VInt 1] ;;
            e1 <- new Sub [exponent; one] ;;
            p <- new Pow [base; e1] ;;
            l <- new Mul [exponent; p] ;;
            d <- differentiate fuel base var ;;
            new Mul [l; d]
          else
            raise (NotImplementedError
                     "Variable exponents are not yet supported.")
      | _ =>
          raise (NotImplementedError
                   ("Cannot differentiate a " +:+ type_name t))
      end
  end.

(** ** Post-order traversal *)

(** [**kwargs]: the keyword arguments of a call, in the order given. *)
Definition kwargs := list (string * value).

Section Postvisitor.
(** [R] is what the visitor returns; [St] is whatever state the visitor
    reads and writes as a side effect (a counter, a log, ...). *)
Context {R St : Type}.

(** The call [visitor(e, *results, **kwargs)]: it returns or raises, and
    leaves its state changed. *)
Definition visitor_t : Type :=
  value → list R → kwargs → St → (exn + R) * St.

(** One invocation of the visitor, as the traversal made it. *)
Record call := Call {
  call_node : addr;
  call_args : list R;
  call_kwargs : kwargs;
  call_result : exn + R
}.

(** The local variables of [postvisitor] and what surrounds them.  [stack]
    has the top of the Python list first: [stack.pop()] takes the head,
    [stack.append(e)] conses.  [visited] is the dict; its keys are
    expression objects, which hash by identity.  [trace] is a ghost
    variable: the visitor calls made so far, the latest first. *)
Record pv_state := PvState {
  stack : list value;
  visited : gmap addr R;
  vstate : St;
  trace : list call
}.

(** [o not in visited].  Only expression objects become keys, and they
    equal only themselves, so any other value is not in the dict. *)
Definition not_in_visited (vis : gmap addr R) (o : value) : bool :=
  match o with
  | VRef b => bool_decide (vis !! b = None)
  | _ => true
  end.

(** [visited[o]] *)
Definition visited_get (vis : gmap addr R) (o : value) : exn + R :=
  match o with
  | VRef b => match vis !! b with
              | Some r => inr r
              | None => inl (KeyError o)
              end
  | _ => inl (KeyError o)
  end.

(** [(visited[o] for o in operands)], consumed left to right by the call. *)
Fixpoint visited_all (vis : gmap addr R) (operands : list value)
  : exn + list R :=
  match operands with
  | [] => inr []
  | o :: operands' =>
      match visited_get vis o with
      | inl e => inl e
      | inr r =>
          match visited_all vis operands' with
          | inl e => inl e
          | inr rs => inr (r :: rs)
          end
      end
  end.

Variable h : heap.
Variable visitor : visitor_t.
Variable kw : kwargs.

(** The body of the [while] loop, entered with a non-empty stack. *)
Definition body (st : pv_state) : result unit * pv_state :=
  match stack st with
  | [] => (Ok (), st)
  | e :: stack' =>                                   (* e = stack.pop() *)
      let popped := PvState stack' (visited st) (vstate st) (trace st) in
      match e with
      | VRef a =>
          match h !! a with
          | None => (Dangling, popped)
          | Some o =>
              let unvisited_children :=
                filter (λ c, not_in_visited (visited popped) c = true)
                       (ob_operands o) in
              match unvisited_children with
              | _ :: _ =>
                  (* stack.append(e); stack.extend(unvisited_children) *)
                  (Ok (),
                   PvState (rev unvisited_children ++ e :: stack popped)
                           (visited popped) (vstate popped) (trace popped))
              | [] =>
                  match visited_all (visited popped) (ob_operands o) with
                  | inl x => (Raise x, popped)
                  | inr args =>
                      let (res, s') := visitor e args kw (vstate popped) in
                      let tr := Call a args kw res :: trace popped in
                      match res with
                      | inl x =>
                          (Raise x,
                           PvState (stack popped) (visited popped) s' tr)
                      | inr r =>
                          (Ok (),
                           PvState (stack popped) (<[a:=r]> (visited popped))
                                   s' tr)
                      end
                  end
              end
          end
      | _ =>
          match type_of h e with
          | Some t => (Raise (AttributeError t "operands"), popped)
          | None => (Dangling, popped)
          end
      end
  end.

(** [while stack: body] *)
Fixpoint while (fuel : nat) (st : pv_state) : result unit * pv_state :=
  match fuel with
  | 0 => (Diverge, st)
  | S fuel =>
      match stack st with
      | [] => (Ok (), st)
      | _ :: _ =>
          match body st with
          | (Ok _, st') => while fuel st'
          | (r, st') => (r, st')
          end
      end
  end.

(** [postvisitor(expr, visitor, **kwargs)], with the visitor's state and
    the trace of its calls returned beside the result. *)
Definition postvisitor (fuel : nat) (expr : value) (s : St)
  : result R * St * list call :=
  let st0 := PvState [expr] ∅ s [] in
  match while fuel st0 with
  | (Ok _, st) =>
      match visited_get (visited st) expr with
      | inr r => (Ok r, vstate st, trace st)
      | inl x => (Raise x, vstate st, trace st)
      end
  | (Raise x, st) => (Raise x, vstate st, trace st)
  | (Diverge, st) => (Diverge, vstate st, trace st)
  | (Dangling, st) => (Dangling, vstate st, trace st)
  end.

End Postvisitor.

Arguments call : clear implicits.
Arguments pv_state : clear implicits.
Arguments visitor_t : clear implicits.

(** The result of the most recent call on node [b] that returned, among the
    calls [pre] (latest first). *)
Fixpoint last_result {R} (pre : list (call R)) (b : addr) : option R :=
  match pre with
  | [] => None
  | c :: pre' =>
      match call_result c with
      | inr r => if Nat.eqb (call_node c) b then Some r else last_result pre' b
      | inl _ => last_result pre' b
      end
  end.

(** The call [c], made after the calls [pre], was given the results of its
    node's operands: the node is an object of the heap, and the arguments
    are, operand by operand from left to right, what the latest earlier call
    on that operand returned. *)
Definition call_ok {R} (h : heap) (pre : list (call R)) (c : call R) : Prop :=
  ∃ o, h !! call_node c = Some o ∧
       Forall2 (λ op r, ∃ b, op = VRef b ∧ last_result pre b = Some r)
               (ob_operands o) (call_args c).

(** How often the visitor was invoked on node [b]. *)
Definition invocations {R} (tr : list (call R)) (b : addr) : nat :=
  length (filter (λ c, call_node c = b) tr).

(** ** Heaps built by constructor calls

    An operand exists before the object that holds it, and no code of the
    module assigns [operands] afterwards: in a heap built by constructor
    calls every reference among an object's operands points to an older
    object.  Such a heap has no cycle and no dangling operand. *)

Definition wf_operand (a : addr) (v : value) : bool :=
  match v with
  | VRef b => (b <? a)%nat
  | _ => true
  end.

Definition wf_object (a : addr) (o : object) : bool :=
  forallb (wf_operand a) (ob_operands o).

(** [wf_from a h]: [h] is well formed as the part of a heap that starts at
    address [a]. *)
Fixpoint wf_from (a : addr) (h : heap) : bool :=
  match h with
  | [] => true
  | o :: h' => wf_object a o && wf_from (S a) h'
  end.

Definition wf_heap (h : heap) : Prop := wf_from 0 h = true.

(** A value a program can hold in heap [h]: anything but a reference to an
    object that does not exist. *)
Definition valid (h : heap) (v : value) : bool := wf_operand (length h) v.

(** ** Expressions as trees

    What a value denotes when identity is forgotten: the tree obtained by
    following the operands. *)

#[warnings="-register-all"]
Inductive tree :=
| Atom (v : value)      (* a value that is not an expression object *)
| Node (c : cls) (val : option value) (operands : list tree).

Fixpoint tree_of (fuel : nat) (h : heap) (v : value) : option tree :=
  match v with
  | VRef a =>
      match fuel with
      | 0 => None
      | S fuel =>
          o ← h !! a;
          ts ← mapM (tree_of fuel h) (ob_operands o);
          Some (Node (ob_class o) (ob_value o) ts)
      end
  | _ => Some (Atom v)
  end.

(** [v] in heap [h] is the root of the tree [t]. *)
Definition repr (h : heap) (v : value) (t : tree) : Prop :=
  ∃ n, tree_of n h v = Some t.

Definition tree_type (t : tree) : option pytype :=
  match t with
  | Atom v => type_of [] v
  | Node c _ _ => Some (TClass c)
  end.

Definition tree_operands (t : tree) : list tree :=
  match t with
  | Atom _ => []
  | Node _ _ ts => ts
  end.

Definition tree_value (t : tree) : option value :=
  match t with
  | Atom _ => None
  | Node _ val _ => val
  end.

Fixpoint height (t : tree) : nat :=
  match t with
  | Atom _ => 0
  | Node _ _ ts => S (list_max (map height ts))
  end.

(** The trees the constructor calls of [differentiate] build. *)
Definition TNumber (v : value) : tree := Node Number (Some v) [].
Definition TAdd (f g : tree) : tree := Node Add None [f; g].
Definition TSub (f g : tree) : tree := Node Sub None [f; g].
Definition TMul (f g : tree) : tree := Node Mul None [f; g].
Definition TDiv (f g : tree) : tree := Node Div None [f; g].
Definition TPow (f g : tree) : tree := Node Pow None [f; g].

Definition rbind {A B} (r : result A) (k : A → result B) : result B :=
  match r with
  | Ok a => k a
  | Raise e => Raise e
  | Diverge => Diverge
  | Dangling => Dangling
  end.

Fixpoint rmap {A B} (f : A → result B) (l : list A) : result (list B) :=
  match l with
  | [] => Ok []
  | x :: l' => rbind (f x) (λ y, rbind (rmap f l') (λ ys, Ok (y :: ys)))
  end.

(** The rules of [differentiate] read on trees: the same dispatch, the same
    order of evaluation and the same exceptions, with a tree built where the
    code allocates an object. *)
Fixpoint differentiate_tree (fuel : nat) (t : tree) (var : value)
  : result tree :=
  match fuel with
  | 0 => Diverge
  | S fuel =>
      match tree_type t with
      | None => Dangling
      | Some ty =>
          match dispatch ty with
          | Some Number => Ok (TNumber (VInt 0))
          | Some Symbol =>
              match tree_value t with
              | Some v =>
                  if py_eq v var then Ok (TNumber (VInt 1))
                  else Ok (TNumber (VInt 0))
              | None => Raise (AttributeError ty "value")
              end
          | Some Add =>
              rbind (rmap (λ op, differentiate_tree fuel op var)
                          (tree_operands t))
                    (λ ds, Ok (Node Add None ds))
          | Some Mul =>
              match tree_operands t with
              | [f; g] =>
                  rbind (differentiate_tree fuel f var) (λ df,
                  rbind (differentiate_tree fuel g var) (λ dg,
                  Ok (TAdd (TMul df g) (TMul dg f))))
              | ops => Raise (UnpackError 2 (length ops))
              end
          | Some Div =>
              match tree_operands t with
              | [f; g] =>
                  rbind (differentiate_tree fuel f var) (λ df,
                  rbind (differentiate_tree fuel g var) (λ dg,
                  Ok (TDiv (TSub (TMul df g) (TMul dg f))
                           (TPow g (TNumber (VInt 2))))))
              | ops => Raise (UnpackError 2 (length ops))
              end
          | Some Pow =>
              match tree_operands t with
              | [base; exponent] =>
                  match tree_type exponent with
                  | Some (TClass d) =>
                      if issubclass d Number then
                        rbind (differentiate_tree fuel base var) (λ d,
                        Ok (TMul (TMul exponent
                                       (TPow base
                                             (TSub exponent
                                                   (TNumber (VInt 1)))))
                                 d))
                      else
                        Raise (NotImplementedError
                                 "Variable exponents are not yet supported.")
                  | _ =>
                      Raise (NotImplementedError
                               "Variable exponents are not yet supported.")
                  end
              | ops => Raise (UnpackError 2 (length ops))
              end
          | _ =>
              Raise (NotImplementedError
                       ("Cannot differentiate a " +:+ type_name ty))
          end
      end
  end.

(** The run [m] of an [M] computation ended in the exception [e]. *)
Definition raises {A} (m : result A * heap) (e : exn) : Prop :=
  m.1 = Raise e.

(** The five binary operator classes. *)
Definition binary_operator (c : cls) : bool :=
  match c with
  | Add | Sub | Mul | Div | Pow => true
  | _ => false
  end.

(** The classes of the objects [differentiate] constructs. *)
Definition derived (o : object) : bool :=
  binary_operator (ob_class o) || bool_decide (ob_class o = Number).

(** A computation that changes the heap only by appending derived nodes. *)
Definition allocates {A} (m : M A) : Prop :=
  ∀ h res h', m h = (res, h') → ∃ ext, h' = h ++ ext ∧ Forall derived ext.

(** A computation whose value is an object it has just made. *)
Definition makes_node (m : M value) : Prop :=
  ∀ h r h', m h = (Ok r, h') →
            ∃ a, r = VRef a ∧ length h ≤ a < length h'.

(** The run [m] from heap [h] agrees with the tree-level outcome [d]: the
    heap has only grown, and the two outcomes are of one kind, related by
    [Rel] in the final heap when they are values. *)
Definition refines {A B} (Rel : heap → A → B → Prop) (h : heap)
    (m : result A * heap) (d : result B) : Prop :=
  h `prefix_of` m.2 ∧
  match m.1, d with
  | Ok a, Ok b => Rel m.2 a b
  | Raise x, Raise y => x = y
  | Diverge, Diverge => True
  | _, _ => False
  end.

(** ** Example programs *)

(** The heap a program leaves when run from scratch. *)
Definition heap_of {A} (m : M A) : heap := (m []).2.

(** [Sub(Symbol("x"), Symbol("y"))] *)
Definition Sub_x_y : M value :=
  x <- new Symbol [VStr "x"] ;;
  y <- new Symbol [VStr "y"] ;;
  new Sub [x; y].

(** [Pow(Symbol("x"), Symbol("y"))] *)
Definition Pow_x_y : M value :=
  x <- new Symbol [VStr "x"] ;;
  y <- new Symbol [VStr "y"] ;;
  new Pow [x; y].

(** [Pow(Pow(Symbol("x"), Symbol("y")), Number(2))] *)
Definition Pow_Pow_x_y_2 : M value :=
  p <- Pow_x_y ;;
  two <- new Number [VInt 2] ;;
  new Pow [p; two].

(** [Pow(Symbol("x"), Number(3))] *)
Definition Pow_x_3 : M value :=
  x <- new Symbol [VStr "x"] ;;
  three <- new Number [VInt 3] ;;
  new Pow [x; three].

(** [x = Symbol("x"); Mul(x, x)]: one symbol, twice an operand. *)
Definition Mul_x_x : M value :=
  x <- new Symbol [VStr "x"] ;;
  new Mul [x; x].

(** [x = Symbol("x"); Add(x, Mul(x, Symbol("y")))]: one symbol under two
    parents. *)
Definition Add_x_Mul_x_y : M value :=
  x <- new Symbol [VStr "x"] ;;
  y <- new Symbol [VStr "y"] ;;
  m <- new Mul [x; y] ;;
  new Add [x; m].

(** [Add(Symbol("a"), Symbol("b"))] *)
Definition Add_a_b : M value :=
  a <- new Symbol [VStr "a"] ;;
  b <- new Symbol [VStr "b"] ;;
  new Add [a; b].

(** ** Example visitors *)

(** A visitor that counts, per node, how often it is invoked. *)
Definition count_visitor : visitor_t unit (gmap addr nat) :=
  λ e _ _ counts,
    match e with
    | VRef a => (inr (), <[a := S (default 0 (counts !! a))]> counts)
    | _ => (inr (), counts)
    end.

(** A visitor over heap [h] that returns the names below a node, in the
    order of the results it is given. *)
Definition names_visitor (h : heap) : visitor_t (list string) unit :=
  λ e results _ s,
    match e with
    | VRef a =>
        match h !! a with
        | Some (Object Symbol _ (Some (VStr name))) => (inr [name], s)
        | _ => (inr (concat results), s)
        end
    | _ => (inr [], s)
    end.

(** ** What the trace of a traversal says *)

(** Every call of the trace was given the results of its operands. *)
Fixpoint calls_ok {R} (h : heap) (tr : list (call R)) : Prop :=
  match tr with
  | [] => True
  | c :: pre => call_ok h pre c ∧ calls_ok h pre
  end.

(** The call [c] is an application of [visitor] to the node, the arguments
    and the keyword arguments [kw]. *)
Definition call_sent {R St} (visitor : visitor_t R St) (kw : kwargs)
    (c : call R) : Prop :=
  call_kwargs c = kw ∧
  ∃ s0 s1,
    visitor (VRef (call_node c)) (call_args c) kw s0 = (call_result c, s1).

(** [n] iterations of the loop lead from [st] to [st']. *)
Definition reaches {R St} (h : heap) (visitor : visitor_t R St)
    (kw : kwargs) (n : nat) (st st' : pv_state R St) : Prop :=
  ∀ k, while h visitor kw (n + k) st = while h visitor kw k st'.

(** The loop started in [st] is left by an exception within [n]
    iterations. *)
Definition aborts {R St} (h : heap) (visitor : visitor_t R St)
    (kw : kwargs) (n : nat) (st : pv_state R St) : Prop :=
  ∃ x st', ∀ k, while h visitor kw (n + k) st = (Raise x, st').

(** Nodes once in the dict stay in it. *)
Definition visited_le {R St} (st st' : pv_state R St) : Prop :=
  ∀ b, is_Some (visited st !! b) → is_Some (visited st' !! b).

(** What the loop keeps true whatever happens: the dict holds the latest
    results, and every call was made as the trace says. *)
Definition trace_inv {R St} (h : heap) (visitor : visitor_t R St)
    (kw : kwargs) (st : pv_state R St) : Prop :=
  (∀ b, visited st !! b = last_result (trace st) b)
  ∧ calls_ok h (trace st)
  ∧ Forall (call_sent visitor kw) (trace st).

(** Where the root of the traversal is: at the bottom of the stack until it
    is visited, which empties the stack and is the last call. *)
Definition root_inv {R St} (kw : kwargs) (root : addr)
    (st : pv_state R St) : Prop :=
  (∃ s, stack st = s ++ [VRef root])
  ∨ (stack st = [] ∧
     ∃ args r pre, trace st = Call root args kw (inr r) :: pre
                   ∧ visited st !! root = Some r).

(** The run [m] from the well-formed heap [h] leaves a well-formed heap
    that extends [h], in which the values [vals a] of its result are
    valid. *)
Definition keeps_wf {A} (vals : A → list value) (h : heap)
    (m : result A * heap) : Prop :=
  h `prefix_of` m.2 ∧ wf_heap m.2 ∧
  ∀ a, m.1 = Ok a → Forall (λ v, valid m.2 v = true) (vals a).

(** [Mul(Symbol("x"), Symbol("x"))]: the tree of [Mul_x_x], built from two
    symbol objects. *)
Definition Mul_x_x_unshared : M value :=
  x1 <- new Symbol [VStr "x"] ;;
  x2 <- new Symbol [VStr "x"] ;;
  new Mul [x1; x2].

(** [Div(Symbol("x"), Number(2))] *)
Definition Div_x_2 : M value :=
  x <- new Symbol [VStr "x"] ;;
  two <- new Number [VInt 2] ;;
  new Div [x; two].

(** [Add(Symbol("x"), Symbol("y"), Number(3))]: a sum of three. *)
Definition Add_x_y_3 : M value :=
  x <- new Symbol [VStr "x"] ;;
  y <- new Symbol [VStr "y"] ;;
  three <- new Number [VInt 3] ;;
  new Add [x; y; three].

(** [Mul(Symbol("x"))]: a product of one. *)
Definition Mul_x : M value :=
  x <- new Symbol [VStr "x"] ;;
  new Mul [x].

(** The classes whose rule unpacks exactly two operands. *)
Definition unpacks_two (c : cls) : bool :=
  match c with
  | Mul | Div | Pow => true
  | _ => false
  end.

(** ** More about what a traversal does *)

(** The call returned (it did not raise). *)
Definition returned {R} (c : call R) : Prop := ∃ r, call_result c = inr r.

(** How the trace stands when the loop has ended in outcome [out]: every
    call returned, except that the latest is the one that raised when the
    loop was left by the visitor's exception. *)
Definition trace_ended {R St} (out : result unit) (st : pv_state R St)
  : Prop :=
  Forall returned (trace st)
  ∨ ∃ x c pre, out = Raise x ∧ trace st = c :: pre
               ∧ call_result c = inl x ∧ Forall returned pre.

(** [b] is [a] or an operand of [a], or an operand of an operand, ... *)
Inductive reachable (h : heap) : addr → addr → Prop :=
| reachable_refl a : reachable h a a
| reachable_step a o b c :
    h !! a = Some o → VRef b ∈ ob_operands o → reachable h b c →
    reachable h a c.

(** A visitor that is a function of its arguments: it has no effect and
    never raises. *)
Definition pure_visitor {R St} (f : value → list R → kwargs → R)
  : visitor_t R St :=
  λ e args kw s, (inr (f e args kw), s).

(** The bottom-up fold of [f] over the expression at [v]: [f] applied to
    the node and the folds of its operands. *)
Fixpoint fold_visitor {R} (f : value → list R → kwargs → R) (kw : kwargs)
    (fuel : nat) (h : heap) (v : value) : option R :=
  match v with
  | VRef a =>
      match fuel with
      | 0 => None
      | S fuel =>
          o ← h !! a;
          args ← mapM (fold_visitor f kw fuel h) (ob_operands o);
          Some (f v args kw)
      end
  | _ => None
  end.

(** [Add(Number(1), 2)]: the second operand is a bare integer. *)
Definition Add_1_raw2 : M value :=
  one <- new Number [VInt 1] ;;
  new Add [one; VInt 2].

(** Every operand of every node reachable from [root] is an expression
    object. *)
Definition expression_only (h : heap) (root : addr) : Prop :=
  ∀ b o, reachable h root b → h !! b = Some o →
         Forall (λ v, ∃ d, v = VRef d) (ob_operands o).

(** What the loop keeps true under a pure visitor [f] on an expression made
    of expressions: what is on the stack can be reached from the root, and
    what is in the dict is the fold of [f]. *)
Definition fold_inv {R St} (f : value → list R → kwargs → R) (kw : kwargs)
    (h : heap) (root : addr) (st : pv_state R St) : Prop :=
  Forall (λ v, ∃ b, v = VRef b ∧ reachable h root b) (stack st)
  ∧ ∀ b r, visited st !! b = Some r →
           ∃ n, fold_visitor f kw n h (VRef b) = Some r.

(** [v] is an expression object (a reference). *)
Definition is_ref (v : value) : bool :=
  match v with
  | VRef _ => true
  | _ => false
  end.

(** Every operand of every object of the heap is an expression object. *)
Definition all_expressions (h : heap) : bool :=
  forallb (λ o, forallb is_ref (ob_operands o)) h.

(** The size of the tree below a node, as a pure visitor function: one more
    than the sizes the operands gave. *)
Definition size_of : value → list nat → kwargs → nat :=
  λ _ sizes _, S (list_sum sizes).

(** The nodes below [v], once for every path that leads to them: the node
    itself, then what is below each operand. *)
Fixpoint occurrences (fuel : nat) (h : heap) (v : value) : list addr :=
  match v with
  | VRef a =>
      match fuel with
      | 0 => []
      | S fuel =>
          a :: match h !! a with
               | Some o => concat (map (occurrences fuel h) (ob_operands o))
               | None => []
               end
      end
  | _ => []
  end.

(** In a heap built by constructor calls no path is longer than the heap. *)
Definition nodes_below (h : heap) (v : value) : list addr :=
  occurrences (length h) h v.

(** Nothing is shared below [root]: no node is reached by two paths. *)
Definition tree_shaped (h : heap) (root : addr) : Prop :=
  NoDup (nodes_below h (VRef root)).

(** From [st], whose stack is [vs] on top of [rest], the loop takes [vs]
    off with one visitor call for every node below [vs], unless an exception
    ends it: [new] are those calls, and the dict has grown by those nodes. *)
Definition visits_once {R St} (h : heap) (visitor : visitor_t R St)
    (kw : kwargs) (vs rest : list value) (st : pv_state R St) : Prop :=
  (∃ n st' new,
      reaches h visitor kw n st st' ∧ stack st' = rest
      ∧ trace st' = new ++ trace st
      ∧ map call_node new ≡ₚ concat (map (nodes_below h) vs)
      ∧ Forall (λ v, not_in_visited (visited st') v = false) vs
      ∧ ∀ b, is_Some (visited st' !! b)
             ↔ is_Some (visited st !! b)
               ∨ b ∈ concat (map (nodes_below h) vs))
  ∨ (∃ n, aborts h visitor kw n st).

(** ** The operator methods of [Expression] *)

(** [if not isinstance(other, Expression): other = Number(other)] *)
Definition as_expression (other : value) : M value :=
  is_expression <- check_instance other Expression ;;
  if negb is_expression then new Number [other] else ret other.

(** [Expression.__add__(self, other)] *)
Definition Expression__add__ (self other : value) : M value :=
  other <- as_expression other ;;
  new Add [self; other].

(** [Expression.__radd__(self, other)]: [return self + other], and the [+]
    of an [Expression] on the left is its [__add__]. *)
Definition Expression__radd__ (self other : value) : M value :=
  Expression__add__ self other.

(** [Expression.__sub__(self, other)] *)
Definition Expression__sub__ (self other : value) : M value :=
  other <- as_expression other ;;
  new Sub [self; other].

(** [Expression.__rsub__(self, other)] *)
Definition Expression__rsub__ (self other : value) : M value :=
  other <- as_expression other ;;
  new Sub [other; self].

(** [Expression.__mul__(self, other)] *)
Definition Expression__mul__ (self other : value) : M value :=
  other <- as_expression other ;;
  new Mul [self; other].

(** [Expression.__rmul__(self, other)]: [return self * other]. *)
Definition Expression__rmul__ (self other : value) : M value :=
  Expression__mul__ self other.

(** [Expression.__truediv__(self, other)] *)
Definition Expression__truediv__ (self other : value) : M value :=
  other <- as_expression other ;;
  new Div [self; other].

(** [Expression.__rtruediv__(self, other)] *)
Definition Expression__rtruediv__ (self other : value) : M value :=
  other <- as_expression other ;;
  new Div [other; self].

(** [Expression.__pow__(self, other)] *)
Definition Expression__pow__ (self other : value) : M value :=
  other <- as_expression other ;;
  new Pow [self; other].

(** [Expression.__rpow__(self, other)] *)
Definition Expression__rpow__ (self other : value) : M value :=
  other <- as_expression other ;;
  new Pow [other; self].

(** The ten operator methods, to speak of them all at once. *)
Inductive method :=
| m_add | m_radd | m_sub | m_rsub | m_mul | m_rmul
| m_truediv | m_rtruediv | m_pow | m_rpow.

Definition call_method (m : method) (self other : value) : M value :=
  match m with
  | m_add => Expression__add__ self other
  | m_radd => Expression__radd__ self other
  | m_sub => Expression__sub__ self other
  | m_rsub => Expression__rsub__ self other
  | m_mul => Expression__mul__ self other
  | m_rmul => Expression__rmul__ self other
  | m_truediv => Expression__truediv__ self other
  | m_rtruediv => Expression__rtruediv__ self other
  | m_pow => Expression__pow__ self other
  | m_rpow => Expression__rpow__ self other
  end.

(** The class of the node a method builds. *)
Definition method_class (m : method) : cls :=
  match m with
  | m_add | m_radd => Add
  | m_sub | m_rsub => Sub
  | m_mul | m_rmul => Mul
  | m_truediv | m_rtruediv => Div
  | m_pow | m_rpow => Pow
  end.

(** The reflected methods are what [other op self] calls when [other] is
    not an [Expression]. *)
Definition reflected (m : method) : bool :=
  match m with
  | m_radd | m_rsub | m_rmul | m_rtruediv | m_rpow => true
  | _ => false
  end.

(** The two operands as they stand in the source text of the operation
    that calls [m]: [self op other], and [other op self] when [m] is
    reflected. *)
Definition as_written (m : method) (self other : value) : list value :=
  if reflected m then [other; self] else [self; other].

#[global] Instance method_eq_dec : EqDecision method.
Proof. solve_decision. Defined.

(** [x = Symbol("x")], the heap of the examples on operator methods. *)
Definition Symbol_x : M value := new Symbol [VStr "x"].

(** ** Printing: [__str__]

    [str(v)] of the builtin values is the interpreter's: the decimal digits
    of an integer, the text of a string itself.  The text of a float and
    the default text of an object ([object.__str__], which shows the
    address) are left to two parameters. *)

(** What a call of [str] comes to. *)
Inductive str_result :=
| Str (s : string)
| StrIndexError        (* [IndexError]: tuple index out of range *)
| StrRaise (e : exn)
| StrDiverge
| StrDangling.

Definition str_bind (r : str_result) (k : string → str_result) : str_result :=
  match r with
  | Str s => k s
  | _ => r
  end.

(** [operand.precedence], read where [operand] is known to be an
    [Operator]. *)
Definition operand_precedence (h : heap) (operand : value) : nat :=
  match type_of h operand with
  | Some (TClass c) => default 0 (precedence c)
  | _ => 0
  end.

(** The local function [bracket] of [Operator.__str__]; [str] is the
    builtin, which both the f-string and the plain call go through. *)
Definition bracket (str : value → str_result) (h : heap) (operand : value)
    (precedence : nat) : str_result :=
  if isinstance h operand Operator
     && (operand_precedence h operand <? precedence)
  then str_bind (str operand) (λ s, Str ("(" +:+ s +:+ ")"))
  else str operand.

(** [Operator.__str__(self)] *)
Definition Operator__str__ (str : value → str_result) (h : heap)
    (self : object) : str_result :=
  let self_precedence := default 0 (precedence (ob_class self)) in
  let self_symbol := default "" (symbol (ob_class self)) in
  match ob_operands self !! 0 with
  | None => StrIndexError
  | Some operand0 =>
      str_bind (bracket str h operand0 self_precedence) (λ first,
      match ob_operands self !! 1 with
      | None => StrIndexError
      | Some operand1 =>
          str_bind (bracket str h operand1 self_precedence) (λ second,
          Str (first +:+ " " +:+ self_symbol +:+ " " +:+ second))
      end)
  end.

(** [Terminal.__str__(self)] *)
Definition Terminal__str__ (str : value → str_result) (self : object)
    : str_result :=
  match ob_value self with
  | Some x => str x
  | None => StrRaise (AttributeError (TClass (ob_class self)) "value")
  end.

Section Str.

Variable float_str : spec_float → string.
Variable object_str : addr → cls → string.

(** The builtin [str(v)]: on an object, the [__str__] its class inherits,
    from [Operator], from [Terminal] or from [object]. *)
Fixpoint str (fuel : nat) (h : heap) (v : value) : str_result :=
  match v with
  | VNone => Str "None"
  | VBool b => Str (if b then "True" else "False")
  | VInt n => Str (pretty n)
  | VFloat f => Str (float_str f)
  | VStr s => Str s
  | VRef a =>
      match fuel with
      | 0 => StrDiverge
      | S fuel =>
          match h !! a with
          | None => StrDangling
          | Some self =>
              if issubclass (ob_class self) Operator
              then Operator__str__ (str fuel h) h self
              else if issubclass (ob_class self) Terminal
              then Terminal__str__ (str fuel h) self
              else Str (object_str a (ob_class self))
          end
      end
  end.

End Str.

(** A heap every object of which prints: operators have their two
    operands, terminals have a value, an older one if it is an object. *)
Definition printable_object (a : addr) (o : object) : bool :=
  if issubclass (ob_class o) Operator then 2 <=? length (ob_operands o)
  else if issubclass (ob_class o) Terminal
  then match ob_value o with Some x => wf_operand a x | None => false end
  else true.

Fixpoint printable_from (a : addr) (h : heap) : bool :=
  match h with
  | [] => true
  | o :: h' => printable_object a o && printable_from (S a) h'
  end.

Definition printable (h : heap) : Prop := printable_from 0 h = true.

(** [g] answers as [f] wherever [f] has an answer. *)
Definition improves (f g : value → str_result) : Prop :=
  ∀ v, f v ≠ StrDiverge → g v = f v.

(** [a, b, c = Symbol("a"), Symbol("b"), Symbol("c")], then
    [Sub(a, Add(b, c))] at address 4 and [Add(Sub(a, b), c)] at address 6. *)
Definition Sub_a_Add_b_c_and_Add_Sub_a_b_c : M value :=
  a <- new Symbol [VStr "a"] ;;
  b <- new Symbol [VStr "b"] ;;
  c <- new Symbol [VStr "c"] ;;
  i1 <- new Add [b; c] ;;
  _ <- new Sub [a; i1] ;;
  i2 <- new Sub [a; b] ;;
  new Add [i2; c].

(** [Mul(Add(Symbol("a"), 2))]: a product of one operand, which is a sum
    of a symbol and a raw integer. *)
Definition Mul_Add_a_2 : M value :=
  a <- new Symbol [VStr "a"] ;;
  s <- new Add [a; VInt 2] ;;
  new Mul [s].

(** ** Printing: [__repr__] *)

(** The [repr] of a tuple whose items have the given [repr]s: a single item
    is followed by a comma. *)
Definition tuple_repr (items : list string) : string :=
  match items with
  | [item] => "(" +:+ item +:+ ",)"
  | _ => "(" +:+ String.concat ", " items +:+ ")"
  end.

(** The [repr]s of the items of a tuple, from left to right, handed to
    [k]; the first failure ends it. *)
Fixpoint repr_items (repr : value → str_result) (items : list value)
    (k : list string → str_result) : str_result :=
  match items with
  | [] => k []
  | item :: items =>
      str_bind (repr item) (λ s, repr_items repr items (λ ss, k (s :: ss)))
  end.

(** [Operator.__repr__(self)] *)
Definition Operator__repr__ (repr : value → str_result) (self : object)
    : str_result :=
  repr_items repr (ob_operands self)
    (λ items, Str (class_name (ob_class self) +:+ tuple_repr items)).

(** [Terminal.__repr__(self)] *)
Definition Terminal__repr__ (repr : value → str_result) (self : object)
    : str_result :=
  match ob_value self with
  | Some x => repr x
  | None => StrRaise (AttributeError (TClass (ob_class self)) "value")
  end.

Section Repr.

Variable float_repr : spec_float → string.
Variable str_repr : string → string.
Variable object_repr : addr → cls → string.

(** The builtin [repr(v)]; the quoting of a string, the text of a float
    and the default text of an object are parameters. *)
Fixpoint builtin_repr (fuel : nat) (h : heap) (v : value) : str_result :=
  match v with
  | VNone => Str "None"
  | VBool b => Str (if b then "True" else "False")
  | VInt n => Str (pretty n)
  | VFloat f => Str (float_repr f)
  | VStr s => Str (str_repr s)
  | VRef a =>
      match fuel with
      | 0 => StrDiverge
      | S fuel =>
          match h !! a with
          | None => StrDangling
          | Some self =>
              if issubclass (ob_class self) Operator
              then Operator__repr__ (builtin_repr fuel h) self
              else if issubclass (ob_class self) Terminal
              then Terminal__repr__ (builtin_repr fuel h) self
              else Str (object_repr a (ob_class self))
          end
      end
  end.

End Repr.

(** A heap whose terminals all hold a value, an older one if it is an
    object: what the constructors build. *)
Definition valued_object (a : addr) (o : object) : bool :=
  if issubclass (ob_class o) Terminal
  then match ob_value o with Some x => wf_operand a x | None => false end
  else true.

Fixpoint valued_from (a : addr) (h : heap) : bool :=
  match h with
  | [] => true
  | o :: h' => valued_object a o && valued_from (S a) h'
  end.

Definition valued (h : heap) : Prop := valued_from 0 h = true.

(** A computation that leaves a heap every object of which prints, and
    whose result, when it returns one, is [ok]. *)
Definition keeps_printable {A} (ok : A → Prop) (m : result A * heap) : Prop :=
  printable m.2 ∧ ∀ a, m.1 = Ok a → ok a.

(** What [postvisitor] holds on its stack when started on [root]: the root,
    or an operand of a node that can be reached from it. *)
Definition from_root (h : heap) (root : addr) (v : value) : Prop :=
  v = VRef root
  ∨ ∃ a o, reachable h root a ∧ h !! a = Some o ∧ v ∈ ob_operands o.

(** Why a traversal from [root] that left the trace [tr] raised [x]: the
    visitor raised [x] in its latest call, or an operand of a node below
    the root is no expression object, and [x] is the [AttributeError] of
    reading its [operands]. *)
Definition raise_cause {R St} (h : heap) (visitor : visitor_t R St)
    (kw : kwargs) (root : addr) (tr : list (call R)) (x : exn) : Prop :=
  (∃ a args pre s0 s1,
      tr = Call a args kw (inl x) :: pre
      ∧ visitor (VRef a) args kw s0 = (inl x, s1))
  ∨ (∃ a o v t,
        reachable h root a ∧ h !! a = Some o ∧ v ∈ ob_operands o
        ∧ (∀ d, v ≠ VRef d) ∧ type_of h v = Some t
        ∧ x = AttributeError t "operands").

(** [x, y = Symbol("x"), Symbol("y")], then
    [Add(x, Sub(x, y), Pow(x, y))] at address 4: a sum whose second and
    third operands cannot be differentiated. *)
Definition Add_x_Sub_x_y_Pow_x_y : M value :=
  x <- new Symbol [VStr "x"] ;;
  y <- new Symbol [VStr "y"] ;;
  s <- new Sub [x; y] ;;
  p <- new Pow [x; y] ;;
  new Add [x; s; p].

(** [Div(Symbol("x"), Sub(Symbol("x"), Symbol("y")))] at address 3. *)
Definition Div_x_Sub_x_y : M value :=
  x <- new Symbol [VStr "x"] ;;
  y <- new Symbol [VStr "y"] ;;
  s <- new Sub [x; y] ;;
  new Div [x; s].

(** * Properties *)

(** ** Reading objects *)

Lemma lookup_new (h : heap) (o : object) : (h ++ [o]) !! length h = Some o.
Proof. by apply list_lookup_middle. Qed.

Lemma get_type_ref (h : heap) (a : addr) (o : object) :
  h !! a = Some o → get_type (VRef a) h = (Ok (TClass (ob_class o)), h).
Proof. unfold get_type; simpl. by intros ->. Qed.

Lemma get_operands_ref (h : heap) (a : addr) (o : object) :
  h !! a = Some o → get_operands (VRef a) h = (Ok (ob_operands o), h).
Proof.
  intros Ha. unfold get_operands, bind. rewrite (get_type_ref _ _ _ Ha).
  unfold deref. by rewrite Ha.
Qed.

Lemma get_value_ref (h : heap) (a : addr) (o : object) (v : value) :
  h !! a = Some o → ob_value o = Some v → get_value (VRef a) h = (Ok v, h).
Proof.
  intros Ha Hv. unfold get_value, bind. rewrite (get_type_ref _ _ _ Ha).
  unfold deref. by rewrite Ha, Hv.
Qed.

Lemma get_value_none (h : heap) (a : addr) (o : object) :
  h !! a = Some o → ob_value o = None →
  get_value (VRef a) h
  = (Raise (AttributeError (TClass (ob_class o)) "value"), h).
Proof.
  intros Ha Hv. unfold get_value, bind. rewrite (get_type_ref _ _ _ Ha).
  unfold deref. by rewrite Ha, Hv.
Qed.

(** ** Construction *)

Lemma new_operator (c : cls) (operands : list value) (h : heap) :
  binary_operator c = true →
  new c operands h = (Ok (VRef (length h)), h ++ [Object c operands None]).
Proof. by destruct c. Qed.

Lemma new_Number_ok (v : value) (h : heap) :
  isinstance_numbers_Number v = true →
  new Number [v] h = (Ok (VRef (length h)), h ++ [Object Number [] (Some v)]).
Proof. unfold new; simpl; unfold Number__init__; by intros ->. Qed.

Lemma new_Symbol_ok (v : value) (h : heap) :
  isinstance_str v = true →
  new Symbol [v] h = (Ok (VRef (length h)), h ++ [Object Symbol [] (Some v)]).
Proof. unfold new; simpl; unfold Symbol__init__; by intros ->. Qed.

Lemma new_Number_error (v : value) (h : heap) :
  isinstance_numbers_Number v = false →
  new Number [v] h = (Raise (ValueError "Number must be a numeric value."), h).
Proof. unfold new; simpl; unfold Number__init__; by intros ->. Qed.

Lemma new_Symbol_error (v : value) (h : heap) :
  isinstance_str v = false →
  new Symbol [v] h = (Raise (ValueError "Symbol must be a string."), h).
Proof. unfold new; simpl; unfold Symbol__init__; by intros ->. Qed.

(** A constructor call leaves the heap alone or appends one object. *)
Lemma new_heap (c : cls) (args : list value) (h h' : heap) (res : result value) :
  new c args h = (res, h') →
  (h' = h ∧ ∃ e, res = Raise e) ∨
  (∃ o, h' = h ++ [o] ∧ res = Ok (VRef (length h)) ∧ ob_class o = c).
Proof.
  unfold new. destruct (init c (blank c) args) as [e|o] eqn:Hi.
  - intros [= <- <-]. left. eauto.
  - intros [= <- <-]. right. exists o. split_and!; [done..|].
    destruct c; simpl in Hi;
      repeat match type of Hi with
             | context [match ?l with _ => _ end] => destruct l; simpl in Hi
             end;
      unfold Number__init__, Symbol__init__, Terminal__init__,
        Expression__init__ in Hi;
      repeat case_match; by simplify_eq.
Qed.

(** C7: constructing a [Number] raises the constructor's [ValueError] (the
    spec's TypeMismatch) exactly when the value is not numeric, constructing
    a [Symbol] raises it when the name is not a string; nothing else is
    validated (a numeric value, a string always succeed), and the object
    made stores the value it was given. *)
Theorem constructor_validation (v : value) (h : heap) :
  ((∃ e, raises (new Number [v] h) e ∧ exn_class e = "ValueError")
   ↔ isinstance_numbers_Number v = false)
  ∧ (isinstance_str v = false →
     ∃ e, raises (new Symbol [v] h) e ∧ exn_class e = "ValueError")
  ∧ (isinstance_numbers_Number v = true →
     ∃ r h', new Number [v] h = (Ok r, h') ∧ get_value r h' = (Ok v, h'))
  ∧ (isinstance_str v = true →
     ∃ r h', new Symbol [v] h = (Ok r, h') ∧ get_value r h' = (Ok v, h')).
Proof.
  split_and!.
  - split.
    + intros (e & He & _).
      destruct (isinstance_numbers_Number v) eqn:Hv; [|done].
      unfold raises in He. by rewrite new_Number_ok in He.
    + intros Hv. eexists. rewrite new_Number_error by done. by split.
  - intros Hv. eexists. rewrite new_Symbol_error by done. by split.
  - intros Hv. do 2 eexists. split; [by apply new_Number_ok|].
    by eapply get_value_ref; [apply lookup_new|].
  - intros Hv. do 2 eexists. split; [by apply new_Symbol_ok|].
    by eapply get_value_ref; [apply lookup_new|].
Qed.

(** C5, as the code has it: [Symbol(v)] succeeds exactly when [v] is a
    string, the empty string included. *)
Theorem Symbol_succeeds_iff_str (v : value) (h : heap) :
  (∃ r h', new Symbol [v] h = (Ok r, h')) ↔ isinstance_str v = true.
Proof.
  split.
  - intros (r & h' & Hn). destruct (isinstance_str v) eqn:Hv; [done|].
    by rewrite new_Symbol_error in Hn.
  - intros Hv. rewrite new_Symbol_ok by done. eauto.
Qed.

(** C5 fails on the empty name: [Symbol("")] is constructed. *)
Lemma Symbol_empty_name_accepted :
  isinstance_str (VStr "") = true ∧
  new Symbol [VStr ""] [] = (Ok (VRef 0), [Object Symbol [] (Some (VStr ""))]).
Proof. split; reflexivity. Qed.

(** C4, as the code has it: an operator constructor checks nothing and
    stores the operands it is given, however many and whatever they are; a
    [Number] or [Symbol] has no operands; and a constructor call changes no
    object that exists. *)
Theorem operands_as_constructed (c : cls) (args : list value) (h : heap) :
  (binary_operator c = true →
   ∃ r h', new c args h = (Ok r, h') ∧ get_operands r h' = (Ok args, h'))
  ∧ (c = Number ∨ c = Symbol →
     ∀ r h', new c args h = (Ok r, h') → get_operands r h' = (Ok [], h'))
  ∧ (∀ res h', new c args h = (res, h') →
     ∀ a o, h !! a = Some o → h' !! a = Some o).
Proof.
  split_and!.
  - intros Hc. do 2 eexists. split; [by apply new_operator|].
    by rewrite (get_operands_ref _ _ _ (lookup_new _ _)).
  - intros Hc r h' Hn.
    assert (∃ v, h' = h ++ [Object c [] (Some v)] ∧ r = VRef (length h))
      as (v & -> & ->).
    { unfold new in Hn. destruct Hc as [-> | ->]; simpl in Hn;
        destruct args as [|v [|]]; simpl in Hn; try done;
        unfold Number__init__, Symbol__init__ in Hn;
        destruct (negb _); simpl in Hn; simplify_eq; eauto. }
    by rewrite (get_operands_ref _ _ _ (lookup_new _ _)).
  - intros res h' Hn a o Ha.
    destruct (new_heap _ _ _ _ _ Hn) as [[-> _] | (o' & -> & _)]; [done|].
    by apply lookup_app_l_Some.
Qed.

(** C4 fails where it says a wrong operand list is rejected: [Add()] and
    [Pow(1, "a", None)] are constructed. *)
Lemma operator_arity_unchecked :
  new Add [] [] = (Ok (VRef 0), [Object Add [] None]) ∧
  new Pow [VInt 1; VStr "a"; VNone] []
  = (Ok (VRef 0), [Object Pow [VInt 1; VStr "a"; VNone] None]).
Proof. split; reflexivity. Qed.

(** ** Differentiation only allocates *)

Lemma allocates_ret {A} (a : A) : allocates (ret a).
Proof. intros h res h' [= <- <-]. exists []. by rewrite app_nil_r. Qed.

Lemma allocates_raise {A} (e : exn) : allocates (@raise A e).
Proof. intros h res h' [= <- <-]. exists []. by rewrite app_nil_r. Qed.

Lemma allocates_bind {A B} (m : M A) (k : A → M B) :
  allocates m → (∀ a, allocates (k a)) → allocates (bind m k).
Proof.
  intros Hm Hk h res h'. unfold bind.
  destruct (m h) as [r1 h1] eqn:E1.
  destruct (Hm _ _ _ E1) as (ext1 & -> & F1).
  destruct r1; try (intros [= <- <-]; eauto).
  intros E2. destruct (Hk _ _ _ _ E2) as (ext2 & -> & F2).
  exists (ext1 ++ ext2). rewrite app_assoc. split; [done|].
  by apply Forall_app.
Qed.

Lemma allocates_pure {A} (f : heap → result A) :
  allocates (λ h, (f h, h)).
Proof. intros h res h' [= <- <-]. exists []. by rewrite app_nil_r. Qed.

Lemma allocates_get_type (v : value) : allocates (get_type v).
Proof.
  intros h res h'. unfold get_type. case_match; intros [= <- <-];
    exists []; by rewrite app_nil_r.
Qed.

Lemma allocates_deref (v : value) : allocates (deref v).
Proof.
  intros h res h'. unfold deref. repeat case_match; intros [= <- <-];
    exists []; by rewrite app_nil_r.
Qed.

Lemma allocates_get_operands (v : value) : allocates (get_operands v).
Proof.
  apply allocates_bind; [apply allocates_get_type|]. intros [].
  all: try apply allocates_raise.
  apply allocates_bind; [apply allocates_deref|]. intros o.
  apply allocates_ret.
Qed.

Lemma allocates_get_value (v : value) : allocates (get_value v).
Proof.
  apply allocates_bind; [apply allocates_get_type|]. intros [].
  all: try apply allocates_raise.
  apply allocates_bind; [apply allocates_deref|]. intros o.
  case_match; [apply allocates_ret | apply allocates_raise].
Qed.

Lemma allocates_unpack2 (t : list value) : allocates (unpack2 t).
Proof.
  destruct t as [|f [|g []]]; simpl;
    first [apply allocates_ret | apply allocates_raise].
Qed.

Lemma allocates_check_instance (v : value) (c : cls) :
  allocates (check_instance v c).
Proof. apply (allocates_pure (λ h, Ok (isinstance h v c))). Qed.

Lemma allocates_new (c : cls) (args : list value) :
  binary_operator c || bool_decide (c = Number) = true →
  allocates (new c args).
Proof.
  intros Hc h res h' Hn.
  destruct (new_heap _ _ _ _ _ Hn) as [[-> _] | (o & -> & _ & Ho)].
  - exists []. by rewrite app_nil_r.
  - exists [o]. split; [done|]. constructor; [|done].
    unfold derived. by rewrite Ho, Hc.
Qed.

Lemma allocates_map_m {A B} (f : A → M B) (l : list A) :
  (∀ x, allocates (f x)) → allocates (map_m f l).
Proof.
  intros Hf. induction l as [|x l IH]; simpl; [apply allocates_ret|].
  apply allocates_bind; [done|]. intros y.
  apply allocates_bind; [done|]. intros ys. apply allocates_ret.
Qed.

Lemma makes_node_new (c : cls) (args : list value) : makes_node (new c args).
Proof.
  intros h r h' Hn.
  destruct (new_heap _ _ _ _ _ Hn) as [[_ [e ?]] | (o & -> & [= ->] & _)];
    [done|].
  eexists. split; [done|]. rewrite length_app; simpl. lia.
Qed.

Lemma makes_node_raise (e : exn) : makes_node (raise e).
Proof. by intros h r h'. Qed.

Lemma makes_node_bind {A} (m : M A) (k : A → M value) :
  allocates m → (∀ a, makes_node (k a)) → makes_node (bind m k).
Proof.
  intros Hm Hk h r h'. unfold bind.
  destruct (m h) as [r1 h1] eqn:E1.
  destruct (Hm _ _ _ E1) as (ext1 & -> & _).
  destruct r1; try done.
  intros E2. destruct (Hk _ _ _ _ E2) as (b & -> & Hb).
  exists b. split; [done|]. rewrite length_app in Hb. lia.
Qed.

Ltac allocates_step :=
  first
    [ apply allocates_ret | apply allocates_raise
    | apply allocates_get_type | apply allocates_get_operands
    | apply allocates_get_value | apply allocates_unpack2
    | apply allocates_check_instance
    | apply allocates_new; reflexivity
    | apply allocates_bind; [|intros ?]
    | apply allocates_map_m; intros ? ].

Lemma allocates_differentiate (fuel : nat) (expr var : value) :
  allocates (differentiate fuel expr var).
Proof.
  revert expr. induction fuel as [|fuel IH]; intros expr; simpl.
  - apply (allocates_pure (λ _, Diverge)).
  - apply allocates_bind; [apply allocates_get_type|]. intros t.
    destruct (dispatch t) as [[]|];
      repeat first [ allocates_step | apply IH
                   | match goal with
                     | |- allocates (let '(_, _) := ?p in _) => destruct p
                     | |- allocates (if ?b then _ else _) => destruct b
                     end ].
Qed.

Ltac makes_node_step :=
  first
    [ apply makes_node_new | apply makes_node_raise
    | apply makes_node_bind;
      [repeat first [allocates_step | apply allocates_differentiate]
      | intros ?] ].

Lemma makes_node_differentiate (fuel : nat) (expr var : value) :
  makes_node (differentiate fuel expr var).
Proof.
  destruct fuel as [|fuel]; simpl; [by intros h r h'|].
  apply makes_node_bind; [apply allocates_get_type|]. intros t.
  destruct (dispatch t) as [[]|];
    repeat first [ makes_node_step
                 | match goal with
                   | |- makes_node (let '(_, _) := ?p in _) => destruct p
                   | |- makes_node (if ?b then _ else _) => destruct b
                   end ].
Qed.

(** ** The tree a value denotes *)

Lemma tree_of_mono (n m : nat) (h : heap) (v : value) (t : tree) :
  tree_of n h v = Some t → n ≤ m → tree_of m h v = Some t.
Proof.
  revert m v t. induction n as [|n IH]; intros m v t Hn Hle.
  - destruct v; try done; by destruct m.
  - destruct v; try (by destruct m). destruct m as [|m]; [lia|].
    simpl in *. destruct (h !! a) as [o|]; simpl in *; [|done].
    destruct (mapM (tree_of n h) (ob_operands o)) as [ts|] eqn:E;
      simpl in *; [|done].
    apply mapM_Some in E. rewrite (mapM_Some_2 _ _ ts); [done|].
    eapply Forall2_impl; [done|]. intros; apply IH; [done | lia].
Qed.

Lemma tree_of_prefix (n : nat) (h h' : heap) (v : value) (t : tree) :
  tree_of n h v = Some t → h `prefix_of` h' → tree_of n h' v = Some t.
Proof.
  intros Hn [ext ->]. revert v t Hn.
  induction n as [|n IH]; intros v t Hn; [done|].
  destruct v; try done. simpl in *.
  destruct (h !! a) as [o|] eqn:Ha; simpl in *; [|done].
  rewrite (lookup_app_l_Some _ _ _ _ Ha); simpl.
  destruct (mapM (tree_of n h) (ob_operands o)) as [ts|] eqn:E;
    simpl in *; [|done].
  apply mapM_Some in E. rewrite (mapM_Some_2 _ _ ts); [done|].
  eapply Forall2_impl; [done|]. intros; by apply IH.
Qed.

Lemma repr_prefix (h h' : heap) (v : value) (t : tree) :
  h `prefix_of` h' → repr h v t → repr h' v t.
Proof. intros Hp [n Hn]. exists n. by eapply tree_of_prefix. Qed.

Lemma repr_all_prefix (h h' : heap) (vs : list value) (ts : list tree) :
  h `prefix_of` h' → Forall2 (repr h) vs ts → Forall2 (repr h') vs ts.
Proof.
  intros Hp H. eapply Forall2_impl; [done|]. intros; by eapply repr_prefix.
Qed.

Lemma repr_fun (h : heap) (v : value) (t t' : tree) :
  repr h v t → repr h v t' → t = t'.
Proof.
  intros [n Hn] [m Hm].
  apply (tree_of_mono _ (n `max` m)) in Hn; [|lia].
  apply (tree_of_mono _ (n `max` m)) in Hm; [|lia]. congruence.
Qed.

(** The operands of one object are read with one amount of fuel. *)
Lemma repr_all_fuel (h : heap) (vs : list value) (ts : list tree) :
  Forall2 (repr h) vs ts → ∃ n, Forall2 (λ v t, tree_of n h v = Some t) vs ts.
Proof.
  induction 1 as [|v t vs ts [n Hn] _ [m IH]]; [exists 0; constructor|].
  exists (n `max` m). constructor.
  - eapply tree_of_mono; [eassumption | lia].
  - eapply Forall2_impl; [done|].
    intros x y Hx. eapply tree_of_mono; [exact Hx | lia].
Qed.

Lemma repr_node (h : heap) (a : addr) (o : object) (ts : list tree) :
  h !! a = Some o → Forall2 (repr h) (ob_operands o) ts →
  repr h (VRef a) (Node (ob_class o) (ob_value o) ts).
Proof.
  intros Ha Hts. destruct (repr_all_fuel _ _ _ Hts) as [n Hn].
  exists (S n). simpl. rewrite Ha; simpl.
  by rewrite (mapM_Some_2 _ _ ts).
Qed.

Lemma repr_new (h : heap) (o : object) (ts : list tree) :
  Forall2 (repr h) (ob_operands o) ts →
  repr (h ++ [o]) (VRef (length h)) (Node (ob_class o) (ob_value o) ts).
Proof.
  intros Hts. apply repr_node; [apply lookup_new|].
  eapply repr_all_prefix; [|done]. by apply prefix_app_r.
Qed.

Lemma repr_ref_inv (h : heap) (a : addr) (t : tree) :
  repr h (VRef a) t →
  ∃ o ts, h !! a = Some o ∧ t = Node (ob_class o) (ob_value o) ts ∧
          Forall2 (repr h) (ob_operands o) ts.
Proof.
  intros [[|n] Hn]; [done|]. simpl in Hn.
  destruct (h !! a) as [o|]; simpl in *; [|done].
  destruct (mapM (tree_of n h) (ob_operands o)) as [ts|] eqn:E;
    simpl in *; [|done].
  exists o, ts. split_and!; [done | congruence |].
  apply mapM_Some in E. eapply Forall2_impl; [done|].
  intros v t' Hv. by exists n.
Qed.

Lemma repr_type (h : heap) (v : value) (t : tree) :
  repr h v t → type_of h v = tree_type t.
Proof.
  destruct v;
    try (intros [k Hk]; destruct k; simpl in Hk; by simplify_eq).
  intros (o & ts & Ha & -> & _)%repr_ref_inv. simpl. by rewrite Ha.
Qed.

Lemma repr_atom_inv (h : heap) (v : value) (t : tree) :
  (∀ a, v ≠ VRef a) → repr h v t → t = Atom v.
Proof.
  intros Hv [n Hn].
  destruct v as [| | | | |a]; [..|by destruct (Hv a)];
    destruct n; simpl in Hn; congruence.
Qed.

(** ** The heap-level rules refine the tree-level rules *)

Lemma bind_ok {A B} (m : M A) (k : A → M B) (h h' : heap) (a : A) :
  m h = (Ok a, h') → bind m k h = k a h'.
Proof. unfold bind. by intros ->. Qed.

Lemma bind_raise {A B} (m : M A) (k : A → M B) (h h' : heap) (e : exn) :
  m h = (Raise e, h') → bind m k h = (Raise e, h').
Proof. unfold bind. by intros ->. Qed.

Lemma bind_ret {A B} (a : A) (k : A → M B) (h : heap) :
  bind (ret a) k h = k a h.
Proof. done. Qed.

Lemma bind_check_instance {B} (v : value) (c : cls) (k : bool → M B)
    (h : heap) :
  bind (check_instance v c) k h = k (isinstance h v c) h.
Proof. done. Qed.

Lemma deref_ref (h : heap) (a : addr) (o : object) :
  h !! a = Some o → deref (VRef a) h = (Ok o, h).
Proof. unfold deref. by intros ->. Qed.

Lemma refines_prefix {A B} (Rel : heap → A → B → Prop) (h0 h : heap)
    (m : result A * heap) (d : result B) :
  h0 `prefix_of` h → refines Rel h m d → refines Rel h0 m d.
Proof. intros Hp [Hq Hm]. split; [by etrans|done]. Qed.

Lemma refines_raise {A B} (Rel : heap → A → B → Prop) (h : heap) (e : exn) :
  refines Rel h (raise e h) (Raise e).
Proof. by split. Qed.

Lemma refines_bind {A B A' B'} (RA : heap → A → A' → Prop)
    (RB : heap → B → B' → Prop) (h : heap) (m : M A) (k : A → M B)
    (d : result A') (kd : A' → result B') :
  refines RA h (m h) d →
  (∀ h1 a a', h `prefix_of` h1 → d = Ok a' → RA h1 a a' →
              refines RB h1 (k a h1) (kd a')) →
  refines RB h (bind m k h) (rbind d kd).
Proof.
  intros [Hp Hm] Hk. unfold bind. destruct (m h) as [r h1]; simpl in *.
  destruct r, d; simpl; try done.
  eapply refines_prefix; [done|]. by apply Hk.
Qed.

Lemma new_init (c : cls) (args : list value) (o : object) (h : heap) :
  init c (blank c) args = inr o →
  new c args h = (Ok (VRef (length h)), h ++ [o]).
Proof. unfold new. by intros ->. Qed.

Lemma refines_new (c : cls) (args : list value) (o : object)
    (ts : list tree) (h : heap) :
  init c (blank c) args = inr o →
  Forall2 (repr h) (ob_operands o) ts →
  refines repr h (new c args h) (Ok (Node (ob_class o) (ob_value o) ts)).
Proof.
  intros Hi Hts. rewrite (new_init _ _ _ _ Hi). split; simpl.
  - by apply prefix_app_r.
  - by apply repr_new.
Qed.

Lemma refines_new_bind {B B'} (RB : heap → B → B' → Prop) (c : cls)
    (args : list value) (o : object) (ts : list tree) (k : value → M B)
    (d : result B') (h : heap) :
  init c (blank c) args = inr o →
  Forall2 (repr h) (ob_operands o) ts →
  (∀ h1 r, h `prefix_of` h1 →
           repr h1 r (Node (ob_class o) (ob_value o) ts) →
           refines RB h1 (k r h1) d) →
  refines RB h (bind (new c args) k h) d.
Proof.
  intros Hi Hts Hk.
  apply (refines_bind repr RB h (new c args) k
           (Ok (Node (ob_class o) (ob_value o) ts)) (λ _, d)).
  - by apply refines_new.
  - intros h1 a a' Hp [= <-] Ha. by apply Hk.
Qed.

Lemma refines_map_m (f : value → M value) (fd : tree → result tree)
    (l : list value) (ts : list tree) (h : heap) :
  (∀ h1 x t, h `prefix_of` h1 → repr h1 x t →
             refines repr h1 (f x h1) (fd t)) →
  Forall2 (repr h) l ts →
  refines (λ h' rs ts', Forall2 (repr h') rs ts') h
          (map_m f l h) (rmap fd ts).
Proof.
  intros Hf Hl. revert h Hf Hl. revert ts.
  induction l as [|x l IH]; intros ts h Hf Hl.
  - apply Forall2_nil_inv_l in Hl as ->. split; simpl; [done|constructor].
  - apply Forall2_cons_inv_l in Hl as (t & ts' & Hx & Hl & ->). simpl.
    eapply refines_bind; [by apply Hf|].
    intros h1 y ty Hp1 _ Hy.
    eapply refines_bind.
    + apply IH.
      * intros h2 x' t' Hp2. apply Hf. by etrans.
      * by eapply repr_all_prefix.
    + intros h2 ys tys Hp2 _ Hys. split; simpl; [done|].
      constructor; [by eapply repr_prefix|done].
Qed.

Lemma dispatch_class (c : cls) :
  dispatch (TClass c) =
  match c with
  | Number | Symbol | Add | Mul | Div | Pow => Some c
  | _ => None
  end.
Proof. by destruct c. Qed.

Lemma dispatch_atom (h : heap) (v : value) (t : pytype) :
  (∀ a, v ≠ VRef a) → type_of h v = Some t → dispatch t = None.
Proof. intros Hv. destruct v; try (by intros [= <-]). by destruct (Hv a). Qed.

Ltac advance Hp :=
  repeat match goal with
         | H : repr ?h _ _ |- _ =>
             match type of Hp with
             | h `prefix_of` _ => apply (repr_prefix _ _ _ _ Hp) in H
             end
         end.

Ltac refine_call IH :=
  eapply refines_bind;
  [ apply IH; eassumption
  | let Hp := fresh "Hp" in
    intros ? ? ? Hp _ ?; advance Hp; clear Hp ].

Ltac refine_new :=
  first
    [ eapply (refines_new_bind _ _ _ (Object _ _ _));
      [ reflexivity
      | simpl; repeat constructor; eassumption
      | let Hp := fresh "Hp" in
        simpl; intros ? ? Hp ?; advance Hp; clear Hp ]
    | eapply (refines_new _ _ (Object _ _ _));
      [ reflexivity | simpl; repeat constructor; eassumption ] ].

Lemma differentiate_refines (fuel : nat) (var : value) :
  ∀ (h : heap) (expr : value) (t : tree),
    repr h expr t →
    refines repr h (differentiate fuel expr var h)
            (differentiate_tree fuel t var).
Proof.
  induction fuel as [|fuel IH]; intros h expr t Ht; [by split|].
  pose proof (repr_type _ _ _ Ht) as Hty.
  destruct expr as [| | | | |a].
  1-5: apply repr_atom_inv in Ht as ->; [|done]; by split.
  apply repr_ref_inv in Ht as (o & ts & Ha & -> & Hts).
  cbn [differentiate differentiate_tree tree_type tree_operands tree_value].
  rewrite (bind_ok _ _ _ _ _ (get_type_ref _ _ _ Ha)).
  rewrite dispatch_class.
  unfold TAdd, TSub, TMul, TDiv, TPow, TNumber.
  pose proof (Forall2_length _ _ _ Hts) as Hlen.
  destruct (ob_class o) eqn:Hc.
  all: try apply refines_raise.
  - (* Add *)
    rewrite (bind_ok _ _ _ _ _ (get_operands_ref _ _ _ Ha)).
    eapply refines_bind.
    + apply refines_map_m; [|done]. intros h1 x t _ Hx. by apply IH.
    + intros h1 ds tds Hp _ Hds. simpl.
      by eapply (refines_new _ _ (Object _ _ _)).
  - (* Mul *)
    rewrite (bind_ok _ _ _ _ _ (get_operands_ref _ _ _ Ha)).
    destruct Hts as [|f tf ? ? Hf [|g tg ? ? Hg []]];
      try apply refines_raise; [|by split; [|simpl in *; rewrite Hlen]].
    cbn [unpack2]. rewrite bind_ret.
    refine_call IH. refine_new. refine_call IH. refine_new. refine_new.
  - (* Div *)
    rewrite (bind_ok _ _ _ _ _ (get_operands_ref _ _ _ Ha)).
    destruct Hts as [|f tf ? ? Hf [|g tg ? ? Hg []]];
      try apply refines_raise; [|by split; [|simpl in *; rewrite Hlen]].
    cbn [unpack2]. rewrite bind_ret.
    refine_call IH. refine_new. refine_call IH. refine_new. refine_new.
    refine_new. refine_new. refine_new.
  - (* Pow *)
    rewrite (bind_ok _ _ _ _ _ (get_operands_ref _ _ _ Ha)).
    destruct Hts as [|b tb ? ? Hb [|e te ? ? He []]];
      try apply refines_raise; [|by split; [|simpl in *; rewrite Hlen]].
    cbn [unpack2]. rewrite bind_ret.
    rewrite bind_check_instance.
    unfold isinstance. rewrite (repr_type _ _ _ He).
    destruct (tree_type te) as [[| | | | |d]|]; try apply refines_raise.
    destruct (issubclass d Number); [|apply refines_raise].
    refine_new. refine_new. refine_new. refine_new. refine_call IH.
    refine_new.
  - (* Number *)
    by eapply (refines_new _ _ (Object _ _ _)).
  - (* Symbol *)
    destruct (ob_value o) as [v|] eqn:Hv.
    + rewrite (bind_ok _ _ _ _ _ (get_value_ref _ _ _ _ Ha Hv)).
      destruct (py_eq v var); by eapply (refines_new _ _ (Object _ _ _)).
    + rewrite (bind_raise _ _ _ _ _ (get_value_none _ _ _ Ha Hv)).
      rewrite Hc. by split.
Qed.

Lemma refines_raises {A B} (Rel : heap → A → B → Prop) (h : heap)
    (m : result A * heap) (d : result B) (x : exn) :
  refines Rel h m d → raises m x ↔ d = Raise x.
Proof.
  intros [_ Hm]. unfold raises.
  destruct m as [[] ?], d; simpl in *; naive_solver.
Qed.

(** ** Differentiation: the rules *)

(** C9: a call of [differentiate] that returns has changed no object that
    existed (each keeps its class, value and operands, so the input denotes
    the tree it denoted before); the heap has only grown by [Number] and
    operator nodes, and the derivative returned is one of the new nodes. *)
Theorem differentiate_preserves_input (fuel : nat) (expr var : value)
    (h h' : heap) (r : value) :
  differentiate fuel expr var h = (Ok r, h') →
  (∀ a o, h !! a = Some o → h' !! a = Some o)
  ∧ (∀ v t, repr h v t → repr h' v t)
  ∧ ∃ ext a, h' = h ++ ext ∧ Forall derived ext
             ∧ r = VRef a ∧ length h ≤ a < length h'.
Proof.
  intros Hd.
  destruct (allocates_differentiate _ _ _ _ _ _ Hd) as (ext & -> & Hext).
  destruct (makes_node_differentiate _ _ _ _ _ _ Hd) as (a & -> & Ha).
  split_and!.
  - intros b o Hb. by apply lookup_app_l_Some.
  - intros v t. apply repr_prefix. by apply prefix_app_r.
  - by exists ext, a.
Qed.

Lemma differentiate_preserves_input_witness :
  let h := heap_of Mul_x_x in
  let h' := (differentiate 2 (VRef 1) (VStr "x") h).2 in
  (∀ a o, h !! a = Some o → h' !! a = Some o)
  ∧ (∀ v t, repr h v t → repr h' v t)
  ∧ ∃ ext a, h' = h ++ ext ∧ Forall derived ext
             ∧ VRef 6 = VRef a ∧ length h ≤ a < length h'.
Proof.
  apply (differentiate_preserves_input 2 (VRef 1) (VStr "x")). reflexivity.
Defined.

(** C2 on the code: no rule is registered for [Sub], so the generic
    function runs and every [Sub] node is refused, whatever its operands. *)
Theorem differentiate_Sub_unsupported (fuel : nat) (h : heap) (a : addr)
    (o : object) (var : value) :
  h !! a = Some o → ob_class o = Sub →
  differentiate (S fuel) (VRef a) var h
  = (Raise (NotImplementedError "Cannot differentiate a Sub"), h).
Proof.
  intros Ha Hc. simpl.
  rewrite (bind_ok _ _ _ _ _ (get_type_ref _ _ _ Ha)). by rewrite Hc.
Qed.

Lemma differentiate_Sub_unsupported_witness :
  (∃ dx hx, differentiate 1 (VRef 0) (VStr "x") (heap_of Sub_x_y)
            = (Ok dx, hx))
  ∧ (∃ dy hy, differentiate 1 (VRef 1) (VStr "x") (heap_of Sub_x_y)
              = (Ok dy, hy))
  ∧ differentiate 1 (VRef 2) (VStr "x") (heap_of Sub_x_y)
    = (Raise (NotImplementedError "Cannot differentiate a Sub"),
       heap_of Sub_x_y).
Proof.
  split_and!; [by do 2 eexists..|].
  by apply (differentiate_Sub_unsupported 0 (heap_of Sub_x_y) 2
              (Object Sub [VRef 0; VRef 1] None) (VStr "x")).
Defined.

(** ** Heaps built by constructor calls *)

Lemma wf_from_lookup (k i : nat) (h : heap) (o : object) :
  wf_from k h = true → h !! i = Some o → wf_object (k + i) o = true.
Proof.
  revert k i. induction h as [|o' h IH]; intros k i Hwf Hi; [done|].
  simpl in Hwf. apply andb_true_iff in Hwf as [Ho Hh].
  destruct i as [|i]; simpl in Hi.
  - simplify_eq. by rewrite Nat.add_0_r.
  - rewrite <- Nat.add_succ_comm. by apply IH.
Qed.

Lemma wf_heap_operand (h : heap) (a : addr) (o : object) (v : value) :
  wf_heap h → h !! a = Some o → v ∈ ob_operands o → wf_operand a v = true.
Proof.
  intros Hwf Ha Hv. pose proof (wf_from_lookup 0 a h o Hwf Ha) as Ho.
  unfold wf_object in Ho. rewrite forallb_forall in Ho.
  apply Ho. by apply list_elem_of_In.
Qed.

Lemma wf_heap_operand_valid (h : heap) (a : addr) (o : object) (v : value) :
  wf_heap h → h !! a = Some o → v ∈ ob_operands o → valid h v = true.
Proof.
  intros Hwf Ha Hv. pose proof (wf_heap_operand _ _ _ _ Hwf Ha Hv) as Hw.
  apply lookup_lt_Some in Ha. destruct v; try done.
  unfold valid; simpl in *. apply Nat.ltb_lt in Hw. apply Nat.ltb_lt. lia.
Qed.

Lemma repr_all_exists (h : heap) (vs : list value) :
  (∀ v, v ∈ vs → ∃ t, repr h v t) → ∃ ts, Forall2 (repr h) vs ts.
Proof.
  induction vs as [|v vs IH]; intros Hvs; [by exists []|].
  destruct (Hvs v) as [t Ht]; [left|].
  destruct IH as [ts Hts]; [intros; apply Hvs; by right|].
  exists (t :: ts). by constructor.
Qed.

Lemma wf_repr_ref (h : heap) (a : addr) :
  wf_heap h → a < length h → ∃ t, repr h (VRef a) t.
Proof.
  intros Hwf. induction (lt_wf a) as [a _ IH]. intros Ha.
  destruct (lookup_lt_is_Some_2 h a Ha) as [o Ho].
  destruct (repr_all_exists h (ob_operands o)) as [ts Hts].
  { intros v Hv. pose proof (wf_heap_operand _ _ _ _ Hwf Ho Hv) as Hw.
    destruct v as [| | | | |b]; try (by eexists; exists 0).
    simpl in Hw. apply Nat.ltb_lt in Hw. apply IH; lia. }
  eexists. by apply repr_node.
Qed.

Lemma wf_repr (h : heap) (v : value) :
  wf_heap h → valid h v = true → ∃ t, repr h v t.
Proof.
  intros Hwf Hv. destruct v as [| | | | |b]; try (by eexists; exists 0).
  apply wf_repr_ref; [done|]. by apply Nat.ltb_lt.
Qed.

Lemma refines_returns {A B} (Rel : heap → A → B → Prop) (h : heap)
    (m : result A * heap) (b : B) :
  refines Rel h m (Ok b) → ∃ a, m = (Ok a, m.2) ∧ Rel m.2 a b.
Proof.
  intros [_ Hm]. destruct m as [[] ?]; simpl in *; try done. eauto.
Qed.

Lemma refines_returned {A B} (Rel : heap → A → B → Prop) (h h' : heap)
    (a : A) (d : result B) :
  refines Rel h (Ok a, h') d → ∃ b, d = Ok b ∧ Rel h' a b.
Proof. intros [_ Hm]. destruct d; simpl in *; try done. eauto. Qed.

(** The tree-level rule for a [Pow] node whose exponent is a [Number]. *)
Lemma differentiate_tree_Pow (fuel : nat) (val : option value)
    (tb te : tree) (var : value) (h : heap) (e : value) :
  repr h e te → isinstance h e Number = true →
  differentiate_tree (S fuel) (Node Pow val [tb; te]) var
  = rbind (differentiate_tree fuel tb var)
          (λ d, Ok (TMul (TMul te (TPow tb (TSub te (TNumber (VInt 1))))) d)).
Proof.
  intros He Hi. unfold isinstance in Hi. rewrite (repr_type _ _ _ He) in Hi.
  cbn [differentiate_tree tree_type tree_operands].
  rewrite dispatch_class.
  destruct (tree_type te) as [[| | | | |d]|]; try done. by rewrite Hi.
Qed.

(** C6: on a [Pow] node whose exponent [e] is a [Number] the call is
    [Mul(Mul(e, Pow(b, Sub(e, Number(1)))), differentiate(b))]: if the
    recursive call on the base [b] returns a node denoting [td], the call
    returns a node denoting [Mul(Mul(e, Pow(b, Sub(e, Number(1)))), td)],
    and if the recursive call raises, so does the call. *)
Theorem differentiate_Pow_rule (fuel : nat) (h : heap) (a : addr)
    (b e : value) (val : option value) (var : value) (tb te : tree) :
  h !! a = Some (Object Pow [b; e] val) →
  isinstance h e Number = true →
  repr h b tb → repr h e te →
  (∀ d hb td,
      differentiate fuel b var h = (Ok d, hb) → repr hb d td →
      ∃ r h', differentiate (S fuel) (VRef a) var h = (Ok r, h') ∧
              repr h' r
                   (TMul (TMul te (TPow tb (TSub te (TNumber (VInt 1)))))
                         td))
  ∧ (∀ x, raises (differentiate fuel b var h) x →
          raises (differentiate (S fuel) (VRef a) var h) x).
Proof.
  intros Ha Hi Hb He.
  assert (repr h (VRef a) (Node Pow val [tb; te])) as Hnode.
  { apply (repr_node h a (Object Pow [b; e] val)); [done|].
    by repeat constructor. }
  pose proof (differentiate_refines (S fuel) var _ _ _ Hnode) as Hr.
  rewrite (differentiate_tree_Pow _ _ _ _ _ _ _ He Hi) in Hr.
  pose proof (differentiate_refines fuel var _ _ _ Hb) as Hrb.
  split.
  - intros d hb td Hd Htd.
    rewrite Hd in Hrb. apply refines_returned in Hrb as (td' & Hbt & Htd').
    rewrite (repr_fun _ _ _ _ Htd Htd'), Hbt in *. simpl in Hr.
    apply refines_returns in Hr as (r & Hr & Hrepr). eauto.
  - intros x Hx. apply (refines_raises _ _ _ _ x) in Hrb.
    apply Hrb in Hx. rewrite Hx in Hr. simpl in Hr.
    by apply (refines_raises _ _ _ _ x) in Hr as ->.
Qed.

Lemma differentiate_Pow_rule_witness :
  let h := heap_of Pow_x_3 in
  let tx := Node Symbol (Some (VStr "x")) [] in
  let t3 := TNumber (VInt 3) in
  (∀ d hb td,
      differentiate 1 (VRef 0) (VStr "x") h = (Ok d, hb) → repr hb d td →
      ∃ r h', differentiate 2 (VRef 2) (VStr "x") h = (Ok r, h') ∧
              repr h' r
                   (TMul (TMul t3 (TPow tx (TSub t3 (TNumber (VInt 1)))))
                         td))
  ∧ (∀ x, raises (differentiate 1 (VRef 0) (VStr "x") h) x →
          raises (differentiate 2 (VRef 2) (VStr "x") h) x).
Proof.
  apply (differentiate_Pow_rule 1 (heap_of Pow_x_3) 2 (VRef 0) (VRef 1)
           None (VStr "x")).
  - reflexivity.
  - reflexivity.
  - exists 1. reflexivity.
  - exists 1. reflexivity.
Defined.

(** The derivative of [Pow(Symbol("x"), Number(3))] in [x], as built. *)
Example differentiate_Pow_x_3 :
  let run := differentiate 2 (VRef 2) (VStr "x") (heap_of Pow_x_3) in
  run.1 = Ok (VRef 8)
  ∧ tree_of 5 run.2 (VRef 8)
    = Some (TMul (TMul (TNumber (VInt 3))
                       (TPow (Node Symbol (Some (VStr "x")) [])
                             (TSub (TNumber (VInt 3)) (TNumber (VInt 1)))))
                 (TNumber (VInt 1))).
Proof. split; reflexivity. Qed.

(** C3, as the code has it: on a [Pow] node the call raises the
    variable-exponent error when the exponent is not a [Number]; when it is
    one, the call raises exactly what differentiating the base raises, so
    the error can still come out of the base. *)
Theorem differentiate_Pow_raises (fuel : nat) (h : heap) (a : addr)
    (b e : value) (val : option value) (var : value) :
  wf_heap h →
  h !! a = Some (Object Pow [b; e] val) →
  (isinstance h e Number = false →
   differentiate (S fuel) (VRef a) var h
   = (Raise (NotImplementedError
               "Variable exponents are not yet supported."), h))
  ∧ (isinstance h e Number = true →
     ∀ x, raises (differentiate (S fuel) (VRef a) var h) x
          ↔ raises (differentiate fuel b var h) x).
Proof.
  intros Hwf Ha. split.
  - intros Hi. simpl.
    rewrite (bind_ok _ _ _ _ _ (get_type_ref _ _ _ Ha)); simpl.
    rewrite (bind_ok _ _ _ _ _ (get_operands_ref _ _ _ Ha)); simpl.
    rewrite bind_ret, bind_check_instance. by rewrite Hi.
  - intros Hi x.
    destruct (wf_repr h b) as [tb Hb]; [done|..].
    { eapply wf_heap_operand_valid; [done..|]. simpl. set_solver. }
    destruct (wf_repr h e) as [te He]; [done|..].
    { eapply wf_heap_operand_valid; [done..|]. simpl. set_solver. }
    assert (repr h (VRef a) (Node Pow val [tb; te])) as Hnode.
    { apply (repr_node h a (Object Pow [b; e] val)); [done|].
      by repeat constructor. }
    rewrite (refines_raises _ _ _ _ _
               (differentiate_refines (S fuel) var _ _ _ Hnode)).
    rewrite (refines_raises _ _ _ _ _
               (differentiate_refines fuel var _ _ _ Hb)).
    rewrite (differentiate_tree_Pow _ _ _ _ _ _ _ He Hi).
    destruct (differentiate_tree fuel tb var); simpl; naive_solver.
Qed.

Lemma differentiate_Pow_raises_witness :
  let h := heap_of Pow_Pow_x_y_2 in
  (isinstance h (VRef 3) Number = false →
   differentiate 3 (VRef 4) (VStr "x") h
   = (Raise (NotImplementedError
               "Variable exponents are not yet supported."), h))
  ∧ (isinstance h (VRef 3) Number = true →
     ∀ x, raises (differentiate 3 (VRef 4) (VStr "x") h) x
          ↔ raises (differentiate 2 (VRef 2) (VStr "x") h) x).
Proof.
  apply (differentiate_Pow_raises 2 (heap_of Pow_Pow_x_y_2) 4
           (VRef 2) (VRef 3) None (VStr "x")); reflexivity.
Defined.

(** C3 fails from right to left: in [Pow(Pow(x, y), Number(2))] the
    exponent is a [Number], and the call still raises the variable-exponent
    error, out of the base. *)
Lemma Pow_constant_exponent_raises :
  let h := heap_of Pow_Pow_x_y_2 in
  h !! 4 = Some (Object Pow [VRef 2; VRef 3] None)
  ∧ isinstance h (VRef 3) Number = true
  ∧ raises (differentiate 3 (VRef 4) (VStr "x") h)
           (NotImplementedError "Variable exponents are not yet supported.")
  ∧ ¬ ((∃ msg, raises (differentiate 3 (VRef 4) (VStr "x") h)
                      (NotImplementedError msg))
       ↔ isinstance h (VRef 3) Number = false).
Proof.
  split_and!; [reflexivity..|].
  intros [Hraise _]. by discriminate Hraise; [eexists; reflexivity].
Qed.

(** ** The traversal: invariants of the loop *)

Section PostvisitorInvariants.
Context {R St : Type}.
Variable h : heap.
Variable visitor : visitor_t R St.
Variable kw : kwargs.

Local Abbreviation body := (body h visitor kw).
Local Abbreviation while := (while h visitor kw).
Local Abbreviation trace_inv := (trace_inv h visitor kw).

Lemma while_inv (P : pv_state R St → Prop) :
  (∀ st r st', P st → body st = (r, st') → P st') →
  ∀ fuel st r st', P st → while fuel st = (r, st') → P st'.
Proof.
  intros Hbody. induction fuel as [|fuel IH]; intros st r st' HP Hw.
  - simpl in Hw. by simplify_eq.
  - simpl in Hw. destruct (stack st) eqn:Hs; [by simplify_eq|].
    destruct (body st) as [[[]| | |] st1] eqn:Hb;
      try (simplify_eq; by eapply Hbody).
    eapply IH; [|done]. by eapply Hbody.
Qed.

Lemma while_inv_ok (P : pv_state R St → Prop) :
  (∀ st st', P st → stack st ≠ [] → body st = (Ok (), st') → P st') →
  ∀ fuel st u st', P st → while fuel st = (Ok u, st') →
                   P st' ∧ stack st' = [].
Proof.
  intros Hbody. induction fuel as [|fuel IH]; intros st u st' HP Hw.
  - done.
  - simpl in Hw. destruct (stack st) eqn:Hs; [by simplify_eq|].
    destruct (body st) as [[[]| | |] st1] eqn:Hb; try done.
    eapply IH; [|done]. eapply Hbody; [done| |done]. by rewrite Hs.
Qed.

Lemma visited_all_inr (vis : gmap addr R) (ops : list value)
    (args : list R) :
  visited_all vis ops = inr args →
  Forall2 (λ op r, ∃ b, op = VRef b ∧ vis !! b = Some r) ops args.
Proof.
  revert args. induction ops as [|op ops IH]; intros args Hv; simpl in Hv.
  - simplify_eq. constructor.
  - destruct (visited_get vis op) as [|r] eqn:Hg; [done|].
    destruct (visited_all vis ops) as [|rs]; [done|]. simplify_eq.
    constructor; [|by apply IH].
    unfold visited_get in Hg. destruct op; try done.
    destruct (vis !! a) eqn:Ha; simplify_eq. eauto.
Qed.

Lemma body_trace_inv (st : pv_state R St) (r : result unit)
    (st' : pv_state R St) :
  trace_inv st → body st = (r, st') → trace_inv st'.
Proof.
  intros (Hvis & Hok & Hsent) Hb. unfold body in Hb.
  destruct (stack st) as [|e stk]; [by simplify_eq|].
  destruct e as [| | | | |a];
    try (destruct (type_of h _); by simplify_eq).
  destruct (h !! a) as [o|] eqn:Ha; [|by simplify_eq]. simpl in Hb.
  destruct (filter _ _) as [|u us]; [|by simplify_eq].
  destruct (visited_all _ _) as [x|args] eqn:Hargs; [by simplify_eq|].
  destruct (visitor _ _ _ _) as [res s'] eqn:Hcall.
  assert (call_ok h (trace st) (Call a args kw res)) as Hcallok.
  { exists o. split; [done|]. simpl.
    eapply Forall2_impl; [by apply visited_all_inr|].
    intros op r0 (b & -> & Hb'). exists b. by rewrite <- Hvis. }
  assert (call_sent visitor kw (Call a args kw res)) as Hcs.
  { split; [done|]. simpl. eauto. }
  destruct res as [x|r0]; simplify_eq; simpl.
  - split_and!; [|done|by constructor]. intros b. simpl. apply Hvis.
  - split_and!; [|done|by constructor]. intros b. simpl.
    destruct (Nat.eqb_spec a b) as [->|Hne].
    + by rewrite lookup_insert_eq.
    + by rewrite lookup_insert_ne.
Qed.

Lemma postvisitor_trace_inv (fuel : nat) (expr : value) (s : St) :
  calls_ok h (postvisitor h visitor kw fuel expr s).2
  ∧ Forall (call_sent visitor kw) (postvisitor h visitor kw fuel expr s).2.
Proof.
  unfold postvisitor.
  destruct (while fuel _) as [r st] eqn:Hw.
  assert (trace_inv st) as (_ & Hok & Hsent).
  { eapply (while_inv trace_inv); [apply body_trace_inv| |done].
    split_and!; simpl; [intros b; apply lookup_empty|done|constructor]. }
  destruct r; [destruct (visited_get _ _)|..]; by simpl.
Qed.

End PostvisitorInvariants.



(** ** The traversal: termination and the root *)

Section PostvisitorRuns.
Context {R St : Type}.
Variable h : heap.
Variable visitor : visitor_t R St.
Variable kw : kwargs.

Local Abbreviation body := (body h visitor kw).
Local Abbreviation while := (while h visitor kw).
Local Abbreviation reaches := (reaches h visitor kw).
Local Abbreviation aborts := (aborts h visitor kw).

Lemma reaches_refl (st : pv_state R St) : reaches 0 st st.
Proof. by intros k. Qed.

Lemma reaches_trans (n m : nat) (st st1 st2 : pv_state R St) :
  reaches n st st1 → reaches m st1 st2 → reaches (n + m) st st2.
Proof.
  intros H1 H2 k. rewrite <- Nat.add_assoc. by rewrite H1, H2.
Qed.

Lemma reaches_aborts (n m : nat) (st st1 : pv_state R St) :
  reaches n st st1 → aborts m st1 → aborts (n + m) st.
Proof.
  intros H1 (x & st' & H2). exists x, st'. intros k.
  rewrite <- Nat.add_assoc. by rewrite H1, H2.
Qed.

Lemma step_reaches (st st' : pv_state R St) :
  stack st ≠ [] → body st = (Ok (), st') → reaches 1 st st'.
Proof.
  intros Hs Hb k. simpl. destruct (stack st); [done|]. by rewrite Hb.
Qed.

Lemma step_aborts (st st' : pv_state R St) (x : exn) :
  stack st ≠ [] → body st = (Raise x, st') → aborts 1 st.
Proof.
  intros Hs Hb. exists x, st'. intros k. simpl.
  destruct (stack st); [done|]. by rewrite Hb.
Qed.

Lemma not_in_visited_false (vis : gmap addr R) (op : value) :
  not_in_visited vis op = false ↔ ∃ b, op = VRef b ∧ is_Some (vis !! b).
Proof.
  split.
  - intros Hop. destruct op as [| | | | |b]; simpl in Hop; try done.
    apply bool_decide_eq_false in Hop. exists b. split; [done|].
    by apply not_eq_None_Some.
  - intros (b & -> & Hb). simpl. apply bool_decide_eq_false.
    by apply not_eq_None_Some.
Qed.

Lemma filter_empty_iff {A} (P : A → Prop) `{∀ x, Decision (P x)}
    (l : list A) :
  filter P l = [] ↔ Forall (λ x, ¬ P x) l.
Proof.
  induction l as [|x l IH]; [by split; [constructor|]|].
  rewrite filter_cons. case_decide.
  - split; [done|]. by intros [? _]%Forall_cons.
  - rewrite IH. split; [by constructor|]. by intros [_ ?]%Forall_cons.
Qed.

Lemma visited_all_ready (vis : gmap addr R) (ops : list value) :
  Forall (λ op, not_in_visited vis op = false) ops →
  ∃ args, visited_all vis ops = inr args.
Proof.
  induction 1 as [|op ops Hop _ [args IH]]; [by exists []|].
  apply not_in_visited_false in Hop as (b & -> & [r Hr]).
  exists (r :: args). simpl. by rewrite Hr, IH.
Qed.

Lemma body_push (st : pv_state R St) (a : addr) (rest : list value)
    (o : object) (u : value) (us : list value) :
  stack st = VRef a :: rest → h !! a = Some o →
  filter (λ c, not_in_visited (visited st) c = true) (ob_operands o)
  = u :: us →
  body st = (Ok (), PvState (rev (u :: us) ++ VRef a :: rest)
                            (visited st) (vstate st) (trace st)).
Proof.
  destruct st as [stk vis s tr]. simpl. intros -> Ho Hf.
  unfold body. simpl. rewrite Ho. simpl. by rewrite Hf.
Qed.

Lemma body_visit (st : pv_state R St) (a : addr) (rest : list value)
    (o : object) (args : list R) :
  stack st = VRef a :: rest → h !! a = Some o →
  filter (λ c, not_in_visited (visited st) c = true) (ob_operands o) = [] →
  visited_all (visited st) (ob_operands o) = inr args →
  body st =
  let (res, s') := visitor (VRef a) args kw (vstate st) in
  let tr := Call a args kw res :: trace st in
  match res with
  | inl x => (Raise x, PvState rest (visited st) s' tr)
  | inr r => (Ok (), PvState rest (<[a:=r]> (visited st)) s' tr)
  end.
Proof.
  destruct st as [stk vis s tr]. simpl. intros -> Ho Hf Hargs.
  unfold body. simpl. rewrite Ho. simpl. by rewrite Hf, Hargs.
Qed.

(** A node whose operands are all in the dict is visited by the next
    iteration. *)
Lemma visit_ready (a : addr) (o : object) (rest : list value)
    (st : pv_state R St) :
  h !! a = Some o → stack st = VRef a :: rest →
  Forall (λ op, not_in_visited (visited st) op = false) (ob_operands o) →
  (∃ st', reaches 1 st st' ∧ stack st' = rest
          ∧ is_Some (visited st' !! a) ∧ visited_le st st')
  ∨ aborts 1 st.
Proof.
  intros Ha Hs Hops.
  destruct (visited_all_ready _ _ Hops) as [args Hargs].
  assert (filter (λ c, not_in_visited (visited st) c = true)
                 (ob_operands o) = []) as Hf.
  { apply filter_empty_iff. eapply Forall_impl; [done|].
    simpl. intros op ->. done. }
  destruct (visitor (VRef a) args kw (vstate st)) as [res s'] eqn:Hcall.
  assert (stack st ≠ []) as Hne by by rewrite Hs.
  destruct res as [x|r0].
  - right. eapply step_aborts; [done|].
    rewrite (body_visit _ _ _ _ _ Hs Ha Hf Hargs), Hcall. done.
  - left. eexists. split_and!.
    + eapply step_reaches; [done|].
      rewrite (body_visit _ _ _ _ _ Hs Ha Hf Hargs), Hcall. done.
    + done.
    + simpl. rewrite lookup_insert_eq. eauto.
    + intros b Hb. simpl. destruct (decide (a = b)) as [->|Hne'].
      * rewrite lookup_insert_eq. eauto.
      * by rewrite lookup_insert_ne.
Qed.

Lemma visited_le_refl (st : pv_state R St) : visited_le st st.
Proof. by intros b. Qed.

Lemma visited_le_trans (st1 st2 st3 : pv_state R St) :
  visited_le st1 st2 → visited_le st2 st3 → visited_le st1 st3.
Proof. intros H1 H2 b Hb. by apply H2, H1. Qed.

Lemma not_in_visited_le (st st' : pv_state R St) (op : value) :
  visited_le st st' → not_in_visited (visited st) op = false →
  not_in_visited (visited st') op = false.
Proof.
  intros Hle (b & -> & Hb)%not_in_visited_false.
  apply not_in_visited_false. eauto.
Qed.

Hypothesis Hwf : wf_heap h.

(** The values [vs] on top of the stack, all older than [a], are taken
    off one by one, each visited before it goes. *)
Lemma run_operands (a : addr) :
  (∀ b, b < a → b < length h → ∀ st rest,
      stack st = VRef b :: rest →
      (∃ n st', reaches n st st' ∧ stack st' = rest
                ∧ is_Some (visited st' !! b) ∧ visited_le st st')
      ∨ (∃ n, aborts n st)) →
  a < length h →
  ∀ vs st rest,
    Forall (λ v, wf_operand a v = true) vs →
    stack st = vs ++ rest →
    (∃ n st', reaches n st st' ∧ stack st' = rest
              ∧ Forall (λ v, not_in_visited (visited st') v = false) vs
              ∧ visited_le st st')
    ∨ (∃ n, aborts n st).
Proof.
  intros IH Ha vs. induction vs as [|v vs IHvs]; intros st rest Hvs Hs.
  - left. exists 0, st. split_and!;
      [apply reaches_refl | done | constructor | apply visited_le_refl].
  - apply Forall_cons in Hvs as [Hv Hvs].
    destruct v as [| | | | |b].
    1-5: right; exists 1; eapply step_aborts; [by rewrite Hs|];
      unfold body; rewrite Hs; reflexivity.
    simpl in Hv. apply Nat.ltb_lt in Hv.
    destruct (IH b Hv ltac:(lia) st (vs ++ rest) Hs)
      as [(n & st1 & Hr1 & Hs1 & Hb1 & Hle1) | [n Hab]];
      [|right; eauto].
    destruct (IHvs st1 rest Hvs Hs1)
      as [(m & st2 & Hr2 & Hs2 & Hvs2 & Hle2) | [m Hab]].
    + left. exists (n + m), st2. split_and!.
      * by eapply reaches_trans.
      * done.
      * constructor; [|done]. apply not_in_visited_false.
        eexists. split; [done|]. by apply Hle2.
      * by eapply visited_le_trans.
    + right. exists (n + m). by eapply reaches_aborts.
Qed.

(** A node on top of the stack is visited and taken off, unless an
    exception ends the loop first. *)
Lemma run_node (a : addr) :
  a < length h → ∀ st rest,
    stack st = VRef a :: rest →
    (∃ n st', reaches n st st' ∧ stack st' = rest
              ∧ is_Some (visited st' !! a) ∧ visited_le st st')
    ∨ (∃ n, aborts n st).
Proof.
  induction (lt_wf a) as [a _ IH]. intros Ha st rest Hs.
  destruct (lookup_lt_is_Some_2 h a Ha) as [o Ho].
  destruct (filter (λ c, not_in_visited (visited st) c = true)
                   (ob_operands o)) as [|u us] eqn:Hf.
  - destruct (visit_ready a o rest st Ho Hs)
      as [(st' & ?) | Hab]; [|left; exists 1; eauto|right; eauto].
    apply filter_empty_iff in Hf. eapply Forall_impl; [done|].
    simpl. intros op Hop. by destruct (not_in_visited _ op).
  - set (st1 := PvState (rev (u :: us) ++ VRef a :: rest)
                        (visited st) (vstate st) (trace st)).
    assert (reaches 1 st st1) as Hr1.
    { eapply step_reaches; [by rewrite Hs|]. by eapply body_push. }
    destruct (run_operands a (λ b Hb, IH b Hb) Ha (rev (u :: us)) st1
                (VRef a :: rest))
      as [(n & st2 & Hr2 & Hs2 & Hvs2 & Hle2) | [n Hab]]; [|done|..].
    { apply Forall_rev. rewrite <- Hf. apply Forall_forall.
      intros v [_ Hv]%list_elem_of_filter.
      by eapply wf_heap_operand. }
    + destruct (visit_ready a o rest st2 Ho Hs2)
        as [(st3 & Hr3 & Hs3 & Ha3 & Hle3) | Hab].
      * apply Forall_forall. intros op Hop.
        destruct (not_in_visited (visited st) op) eqn:Hnv.
        -- rewrite Forall_forall in Hvs2. apply Hvs2.
           apply list_elem_of_In. rewrite <- in_rev.
           apply list_elem_of_In. rewrite <- Hf.
           by apply list_elem_of_filter.
        -- by eapply (not_in_visited_le st1).
      * left. exists (1 + n + 1), st3. split_and!; [|done..|].
        -- eapply reaches_trans; [|done]. by eapply reaches_trans.
        -- by eapply (visited_le_trans st1).
      * right. exists (1 + n + 1).
        eapply reaches_aborts; [|done]. by eapply reaches_trans.
    + right. exists (1 + n). by eapply reaches_aborts.
Qed.

End PostvisitorRuns.

Section PostvisitorRoot.
Context {R St : Type}.
Variable h : heap.
Variable visitor : visitor_t R St.
Variable kw : kwargs.

Local Abbreviation body := (body h visitor kw).
Local Abbreviation while := (while h visitor kw).

Lemma body_root_inv (root : addr) (st st' : pv_state R St) :
  root_inv kw root st → stack st ≠ [] → body st = (Ok (), st') →
  root_inv kw root st'.
Proof.
  intros [[s Hs] | [Hs _]] Hne Hb; [|done].
  destruct st as [stk vis vs tr]. simpl in *. subst stk. clear Hne.
  unfold body in Hb. simpl in Hb.
  assert (∃ e stk', s ++ [VRef root] = e :: stk' ∧
                    (s = [] ∧ e = VRef root ∧ stk' = []
                     ∨ ∃ s', s = e :: s' ∧ stk' = s' ++ [VRef root]))
    as (e & stk' & Heq & Hcase).
  { destruct s as [|e s']; simpl; eauto 10. }
  rewrite Heq in Hb.
  destruct e as [| | | | |a];
    try (destruct (type_of h _); by simplify_eq).
  destruct (h !! a) as [o|]; [|by simplify_eq]. simpl in Hb.
  destruct (filter _ _) as [|u us].
  - destruct (visited_all _ _) as [x|args]; [by simplify_eq|].
    destruct (visitor _ _ _ _) as [[x|r] s1]; simplify_eq.
    destruct Hcase as [(-> & [= ->] & ->) | (s' & -> & ->)].
    + right. split; [done|]. simpl. do 3 eexists. split; [done|].
      by rewrite lookup_insert_eq.
    + left. by exists s'.
  - simplify_eq. left. simpl.
    destruct Hcase as [(-> & [= ->] & ->) | (s' & -> & ->)].
    + by exists (rev us ++ [u]).
    + exists ((rev us ++ [u]) ++ VRef a :: s').
      by rewrite <- !app_assoc.
Qed.

Lemma calls_ok_split (tr post pre : list (call R)) (c : call R) :
  calls_ok h tr → tr = post ++ c :: pre → call_ok h pre c.
Proof.
  revert tr. induction post as [|c' post IH]; intros tr Hok ->.
  - by destruct Hok.
  - destruct Hok as [_ Hok]. by eapply IH.
Qed.

End PostvisitorRoot.

Lemma reachable_trans (h : heap) (a b c : addr) :
  reachable h a b → reachable h b c → reachable h a c.
Proof.
  induction 1 as [a | a o b' b Ha Hb _ IH]; [done|].
  intros Hc. eapply reachable_step; [done..|]. by apply IH.
Qed.

Lemma reachable_operand (h : heap) (a b c : addr) (o : object) :
  reachable h a b → h !! b = Some o → VRef c ∈ ob_operands o →
  reachable h a c.
Proof.
  intros Hab Hb Hc. eapply reachable_trans; [done|].
  eapply reachable_step; [done..|]. constructor.
Qed.

Section PostvisitorRaise.
Context {R St : Type}.
Variable h : heap.
Variable visitor : visitor_t R St.
Variable kw : kwargs.
Variable root : addr.

Local Abbreviation body := (body h visitor kw).
Local Abbreviation while := (while h visitor kw).

Lemma from_root_reachable (a : addr) :
  from_root h root (VRef a) → reachable h root a.
Proof.
  intros [[= ->] | (b & o & Hb & Ho & Ha)]; [constructor|].
  by eapply reachable_operand.
Qed.

Lemma body_from_root (st st' : pv_state R St) (r : result unit) :
  Forall (from_root h root) (stack st) → body st = (r, st') →
  Forall (from_root h root) (stack st').
Proof.
  intros Hst Hb. unfold body in Hb.
  destruct (stack st) as [|e stk] eqn:Hs; [simplify_eq; by rewrite Hs|].
  apply Forall_cons in Hst as [He Hstk].
  destruct e as [| | | | |a];
    try (destruct (type_of h _); by simplify_eq).
  destruct (h !! a) as [o|] eqn:Ha; [|by simplify_eq]. simpl in Hb.
  destruct (filter _ _) as [|u us] eqn:Hf.
  - destruct (visited_all _ _) as [x|args]; [by simplify_eq|].
    destruct (visitor _ _ _ _) as [[x|r0] s']; by simplify_eq.
  - simplify_eq. cbn [stack]. apply Forall_app. split; [|by constructor].
    apply Forall_rev. rewrite <- Hf. apply Forall_forall.
    intros v [_ Hv]%list_elem_of_filter. right. exists a, o.
    split_and!; [by apply from_root_reachable|done..].
Qed.

Lemma body_raise_cause (st st' : pv_state R St) (x : exn) :
  Forall (from_root h root) (stack st) → body st = (Raise x, st') →
  raise_cause h visitor kw root (trace st') x.
Proof.
  intros Hst Hb. unfold body in Hb.
  destruct (stack st) as [|e stk] eqn:Hs; [by simplify_eq|].
  apply Forall_cons in Hst as [He Hstk].
  assert (∀ t, (∀ d, e ≠ VRef d) → type_of h e = Some t →
               x = AttributeError t "operands" →
               raise_cause h visitor kw root (trace st') x) as Hraw.
  { intros t Hne Ht ->. right.
    destruct He as [-> | (a & o & Ha & Ho & Hv)]; [by destruct (Hne root)|].
    by exists a, o, e, t. }
  destruct e as [| | | | |a];
    try (destruct (type_of h _) as [t|] eqn:Ht; simplify_eq;
         by apply (Hraw t)).
  destruct (h !! a) as [o|] eqn:Ha; [|by simplify_eq]. simpl in Hb.
  destruct (filter _ _) as [|u us] eqn:Hf; [|by simplify_eq].
  destruct (visited_all_ready (visited st) (ob_operands o)) as [args Hargs].
  { apply filter_empty_iff in Hf. eapply Forall_impl; [done|].
    simpl. intros op Hop. by destruct (not_in_visited _ op). }
  rewrite Hargs in Hb.
  destruct (visitor _ _ _ _) as [[x'|r0] s'] eqn:Hcall; simplify_eq.
  left. simpl. by exists a, args, (trace st), (vstate st), s'.
Qed.

Lemma while_raise_cause (fuel : nat) (st st' : pv_state R St) (x : exn) :
  Forall (from_root h root) (stack st) → while fuel st = (Raise x, st') →
  raise_cause h visitor kw root (trace st') x.
Proof.
  revert st. induction fuel as [|fuel IH]; intros st Hst Hw; simpl in Hw.
  - done.
  - destruct (stack st) eqn:Hs; [done|]. rewrite <- Hs in Hst.
    destruct (body st) as [out st1] eqn:Hb.
    destruct out as [[]| | |]; simplify_eq.
    + eapply IH; [|done]. by eapply body_from_root.
    + by eapply body_raise_cause.
Qed.

End PostvisitorRaise.

(** C8: in a heap built by constructor calls the traversal from a node
    [root] ends.  It returns what the last visitor call returned, and that
    call is the one on [root]; it raises only what the visitor raised in
    its latest call, or the [AttributeError] of an operand below the root
    that is no expression object: with a visitor that always returns, on
    an expression made of expressions, it returns.  Every call, whether
    the traversal returns or not, is made on a node whose operands have
    all been visited before, with the results of those earlier calls as
    arguments, in the order of the operands. *)
Theorem postvisitor_postorder {R St} (h : heap) (visitor : visitor_t R St)
    (kw : kwargs) (root : addr) (s : St) :
  wf_heap h → root < length h →
  ∃ n, ∀ k,
    match (postvisitor h visitor kw (n + k) (VRef root) s).1.1 with
    | Ok r =>
        ∃ args pre,
          (postvisitor h visitor kw (n + k) (VRef root) s).2
          = Call root args kw (inr r) :: pre
    | Raise x =>
        raise_cause h visitor kw root
          (postvisitor h visitor kw (n + k) (VRef root) s).2 x
    | _ => False
    end
    ∧ ∀ post c pre,
        (postvisitor h visitor kw (n + k) (VRef root) s).2 = post ++ c :: pre →
        call_ok h pre c.
Proof.
  intros Hwf Hroot.
  set (st0 := PvState [VRef root] ∅ s ([] : list (call R))).
  assert (∀ fuel post c pre,
             (postvisitor h visitor kw fuel (VRef root) s).2
             = post ++ c :: pre → call_ok h pre c) as Hcalls.
  { intros fuel post c pre. apply calls_ok_split.
    apply postvisitor_trace_inv. }
  destruct (run_node h visitor kw Hwf root Hroot st0 [] eq_refl)
    as [(n & st' & Hr & Hs & _ & _) | (n & x & st' & Hab)].
  - exists (n + 1). intros k. split; [|apply Hcalls].
    unfold postvisitor. fold st0. rewrite <- Nat.add_assoc, Hr. simpl.
    rewrite Hs.
    destruct (while_inv_ok h visitor kw (root_inv kw root)
                (body_root_inv h visitor kw root) (n + 1) st0 () st')
      as [[[? Hbot] | (_ & args & r & pre & Htr & Hvis)] _].
    + left. by exists [].
    + by rewrite Hr; simpl; rewrite Hs.
    + rewrite Hs in Hbot. by destruct x.
    + simpl. rewrite Hvis. simpl. eauto.
  - exists n. intros k. split; [|apply Hcalls].
    unfold postvisitor. fold st0. rewrite Hab. simpl.
    eapply while_raise_cause; [|apply (Hab k)].
    repeat constructor.
Qed.

Lemma postvisitor_postorder_witness :
  let h := heap_of Add_a_b in
  ∃ n, ∀ k,
    match (postvisitor h (names_visitor h) [] (n + k) (VRef 2) ()).1.1 with
    | Ok r =>
        ∃ args pre,
          (postvisitor h (names_visitor h) [] (n + k) (VRef 2) ()).2
          = Call 2 args [] (inr r) :: pre
    | Raise x =>
        raise_cause h (names_visitor h) [] 2
          (postvisitor h (names_visitor h) [] (n + k) (VRef 2) ()).2 x
    | _ => False
    end
    ∧ ∀ post c pre,
        (postvisitor h (names_visitor h) [] (n + k) (VRef 2) ()).2
        = post ++ c :: pre →
        call_ok h pre c.
Proof.
  apply (postvisitor_postorder (heap_of Add_a_b)
           (names_visitor (heap_of Add_a_b)) [] 2 ()).
  - reflexivity.
  - vm_compute. lia.
Defined.

(** The traversal of [Add(Symbol("a"), Symbol("b"))]: [b] is visited first,
    then [a], and the call on the [Add] node gets the result for [a] first
    and the result for [b] second. *)
Example postvisitor_Add_a_b :
  postvisitor (heap_of Add_a_b) (names_visitor (heap_of Add_a_b)) []
              5 (VRef 2) ()
  = (Ok ["a"; "b"], (),
     [Call 2 [["a"]; ["b"]] [] (inr ["a"; "b"]);
      Call 0 [] [] (inr ["a"]);
      Call 1 [] [] (inr ["b"])]).
Proof. vm_compute. reflexivity. Qed.

(** C1 on the code: a node that is pushed twice is visited twice.  In
    [Mul(x, x)] the shared symbol is an unvisited operand twice over: with
    any visitor whose first call returns, the visitor is invoked on it a
    second time.  In [Add(x, Mul(x, y))] it is pushed by both parents before
    it is visited.  The counting visitor reports two invocations for it in
    both. *)
Theorem postvisitor_visits_shared_node_twice :
  (∀ R St (visitor : visitor_t R St) (kw : kwargs) (s : St) (k : nat),
      match visitor (VRef 0) [] kw s with
      | (inr _, _) =>
          invocations
            (postvisitor (heap_of Mul_x_x) visitor kw (5 + k) (VRef 1) s).2 0
          = 2
      | (inl _, _) => True
      end)
  ∧ (let run := postvisitor (heap_of Mul_x_x) count_visitor [] 5 (VRef 1) ∅ in
     run.1.1 = Ok ()
     ∧ run.1.2 !! 0 = Some 2 ∧ run.1.2 !! 1 = Some 1
     ∧ invocations run.2 0 = 2)
  ∧ (let run :=
       postvisitor (heap_of Add_x_Mul_x_y) count_visitor [] 8 (VRef 3) ∅ in
     run.1.1 = Ok ()
     ∧ run.1.2 !! 0 = Some 2
     ∧ invocations run.2 0 = 2).
Proof.
  split; [|vm_compute; by repeat split].
  intros R St visitor kw s k. vm_compute.
  destruct (visitor (VRef 0) [] kw s) as [[x|r0] s1]; [done|].
  destruct (visitor (VRef 0) [] kw s1) as [[x|r1] s2]; [done|].
  destruct (visitor (VRef 1) _ kw s2) as [[x|r2] s3]; [done|].
  by destruct k.
Qed.

(** ** Differentiation ends *)

Lemma height_operand (c : cls) (val : option value) (ts : list tree)
    (t : tree) :
  t ∈ ts → height t < height (Node c val ts).
Proof.
  intros Ht. simpl. apply Nat.lt_succ_r.
  induction Ht as [t ts | t t' ts _ IH]; simpl; lia.
Qed.

Lemma rbind_converges {A B} (r : result A) (k : A → result B) :
  r ≠ Diverge → (∀ a, k a ≠ Diverge) → rbind r k ≠ Diverge.
Proof. intros Hr Hk. by destruct r; simpl. Qed.

Lemma rmap_converges {A B} (f : A → result B) (l : list A) :
  (∀ x, x ∈ l → f x ≠ Diverge) → rmap f l ≠ Diverge.
Proof.
  induction l as [|x l IH]; intros Hf; simpl; [done|].
  apply rbind_converges; [apply Hf; left|]. intros y.
  apply rbind_converges; [|done]. apply IH. intros; apply Hf. by right.
Qed.

Lemma differentiate_tree_converges (fuel : nat) (t : tree) (var : value) :
  height t < fuel → differentiate_tree fuel t var ≠ Diverge.
Proof.
  revert t. induction fuel as [|fuel IH]; intros t Ht; [lia|].
  assert (∀ t', t' ∈ tree_operands t →
                differentiate_tree fuel t' var ≠ Diverge) as Hops.
  { intros t' Ht'. apply IH. destruct t as [|c val ts]; [by inversion Ht'|].
    pose proof (height_operand c val ts t' Ht'). lia. }
  cbn [differentiate_tree].
  destruct (tree_type t) as [ty|]; [|done].
  destruct (dispatch ty) as [[]|]; try done.
  - apply rbind_converges; [by apply rmap_converges|done].
  - destruct (tree_operands t) as [|f [|g []]]; try done.
    apply rbind_converges; [apply Hops; set_solver|]. intros df.
    apply rbind_converges; [apply Hops; set_solver|done].
  - destruct (tree_operands t) as [|f [|g []]]; try done.
    apply rbind_converges; [apply Hops; set_solver|]. intros df.
    apply rbind_converges; [apply Hops; set_solver|done].
  - destruct (tree_operands t) as [|b [|e []]]; try done.
    destruct (tree_type e) as [[| | | | |d]|]; try done.
    destruct (issubclass d Number); [|done].
    apply rbind_converges; [apply Hops; set_solver|done].
  - destruct (tree_value t); [|done]. by destruct (py_eq _ _).
Qed.

(** With fuel beyond the height of the expression the call returns or
    raises: the recursion of [differentiate] is on the operands, and a heap
    built by constructor calls has no cycle. *)
Lemma differentiate_converges (fuel : nat) (h : heap) (expr var : value)
    (t : tree) :
  repr h expr t → height t < fuel →
  (∃ r h', differentiate fuel expr var h = (Ok r, h'))
  ∨ (∃ x h', differentiate fuel expr var h = (Raise x, h')).
Proof.
  intros Ht Hfuel.
  pose proof (differentiate_refines fuel var _ _ _ Ht) as [_ Hr].
  pose proof (differentiate_tree_converges fuel t var Hfuel) as Hc.
  destruct (differentiate fuel expr var h) as [[r|x| |] h']; simpl in Hr.
  - left. eauto.
  - right. eauto.
  - by destruct (differentiate_tree fuel t var).
  - by destruct (differentiate_tree fuel t var).
Qed.

Lemma differentiate_terminates (h : heap) (expr var : value) :
  wf_heap h → valid h expr = true →
  ∃ n, ∀ k,
    (∃ r h', differentiate (n + k) expr var h = (Ok r, h'))
    ∨ (∃ x h', differentiate (n + k) expr var h = (Raise x, h')).
Proof.
  intros Hwf Hv. destruct (wf_repr h expr Hwf Hv) as [t Ht].
  exists (S (height t)). intros k.
  eapply differentiate_converges; [done | lia].
Qed.

(** ** Constructor calls and differentiation keep the heap well formed *)

Lemma wf_heap_nil : wf_heap [].
Proof. done. Qed.

Lemma wf_from_app (k : nat) (h1 h2 : heap) :
  wf_from k (h1 ++ h2) = wf_from k h1 && wf_from (k + length h1) h2.
Proof.
  revert k. induction h1 as [|o h1 IH]; intros k; simpl.
  - by rewrite Nat.add_0_r.
  - rewrite IH, Nat.add_succ_comm. by rewrite andb_assoc.
Qed.

Lemma wf_heap_snoc (h : heap) (o : object) :
  wf_heap h → wf_object (length h) o = true → wf_heap (h ++ [o]).
Proof.
  unfold wf_heap. intros Hh Ho. rewrite wf_from_app; simpl.
  by rewrite Hh, Ho.
Qed.

Lemma valid_prefix (h h' : heap) (v : value) :
  h `prefix_of` h' → valid h v = true → valid h' v = true.
Proof.
  intros Hp%prefix_length. destruct v; try done. unfold valid; simpl.
  rewrite !Nat.ltb_lt. lia.
Qed.

Lemma init_operands (c : cls) (args : list value) (o : object) :
  init c (blank c) args = inr o → ob_operands o = args ∨ ob_operands o = [].
Proof.
  destruct c; simpl;
    try (intros [= <-]; by left);
    destruct args as [|v [|]]; try done;
    unfold Number__init__, Symbol__init__; try destruct (negb _); try done;
    intros [= <-]; by right.
Qed.

Lemma keeps_wf_new (c : cls) (args : list value) (h : heap) :
  wf_heap h → Forall (λ v, valid h v = true) args →
  keeps_wf (λ r, [r]) h (new c args h).
Proof.
  intros Hwf Hargs. unfold new.
  destruct (init c (blank c) args) as [e|o] eqn:Hi.
  - by unfold keeps_wf; split_and!.
  - unfold keeps_wf; split_and!; simpl.
    + by apply prefix_app_r.
    + apply wf_heap_snoc; [done|]. unfold wf_object.
      apply forallb_forall. intros v Hv%list_elem_of_In.
      destruct (init_operands _ _ _ Hi) as [Ho | Ho]; rewrite Ho in Hv.
      * rewrite Forall_forall in Hargs. by apply Hargs.
      * by inversion Hv.
    + intros ? [= <-]. constructor; [|done]. unfold valid; simpl.
      rewrite length_app; simpl. apply Nat.ltb_lt. lia.
Qed.

Lemma keeps_wf_raise {A} (vals : A → list value) (h : heap) (e : exn) :
  wf_heap h → keeps_wf vals h (raise e h).
Proof. intros Hwf. by unfold keeps_wf; split_and!. Qed.

Lemma keeps_wf_bind {A B} (va : A → list value) (vb : B → list value)
    (h : heap) (m : M A) (k : A → M B) :
  keeps_wf va h (m h) →
  (∀ h1 a, h `prefix_of` h1 → wf_heap h1 →
           Forall (λ v, valid h1 v = true) (va a) →
           keeps_wf vb h1 (k a h1)) →
  keeps_wf vb h (bind m k h).
Proof.
  intros (Hp & Hwf & Hv) Hk. unfold bind.
  destruct (m h) as [[a| | |] h1]; simpl in *;
    try by unfold keeps_wf; split_and!.
  destruct (Hk h1 a Hp Hwf (Hv a eq_refl)) as (Hp' & Hwf' & Hv').
  unfold keeps_wf; split_and!; [by etrans|done..].
Qed.

Lemma keeps_wf_map_m (f : value → M value) (l : list value) (h : heap) :
  (∀ h1 x, h `prefix_of` h1 → wf_heap h1 → valid h1 x = true →
           keeps_wf (λ r, [r]) h1 (f x h1)) →
  wf_heap h → Forall (λ v, valid h v = true) l →
  keeps_wf (λ rs, rs) h (map_m f l h).
Proof.
  revert h. induction l as [|x l IH]; intros h Hf Hwf Hl.
  - unfold keeps_wf; simpl; split_and!; [done..|].
    intros ? [= <-]. constructor.
  - apply Forall_cons in Hl as [Hx Hl]. simpl.
    eapply keeps_wf_bind; [by apply Hf|].
    intros h1 y Hp1 Hwf1 Hy.
    eapply keeps_wf_bind.
    + apply IH; [|done|].
      * intros h2 x' Hp2. apply Hf. by etrans.
      * eapply Forall_impl; [done|]. intros v. by apply valid_prefix.
    + simpl. intros h2 ys Hp2 Hwf2 Hys. unfold keeps_wf; split_and!; [done..|].
      intros ? [= <-]. constructor; [|done].
      apply Forall_cons in Hy as [Hy _]. by eapply valid_prefix.
Qed.

Ltac carry Hp :=
  repeat match goal with
         | H : valid ?h _ = true |- _ =>
             match type of Hp with
             | h `prefix_of` _ => apply (valid_prefix _ _ _ Hp) in H
             end
         end.

Ltac wf_call IH :=
  eapply keeps_wf_bind;
  [ apply IH; assumption
  | let Hp := fresh "Hp" in
    let Hv := fresh "Hv" in
    simpl; intros ? ? Hp ? Hv; apply Forall_cons in Hv as [Hv _];
    carry Hp; clear Hp ].

Ltac wf_new :=
  first
    [ eapply keeps_wf_bind;
      [ apply keeps_wf_new; [assumption | by repeat constructor]
      | let Hp := fresh "Hp" in
        let Hv := fresh "Hv" in
        simpl; intros ? ? Hp ? Hv; apply Forall_cons in Hv as [Hv _];
        carry Hp; clear Hp ]
    | apply keeps_wf_new; [assumption | by repeat constructor] ].

Lemma differentiate_keeps_wf (fuel : nat) (var : value) :
  ∀ (h : heap) (expr : value),
    wf_heap h → valid h expr = true →
    keeps_wf (λ r, [r]) h (differentiate fuel expr var h).
Proof.
  induction fuel as [|fuel IH]; intros h expr Hwf Hv;
    [by unfold keeps_wf; split_and!|].
  destruct expr as [| | | | |a]; try by unfold keeps_wf; split_and!.
  unfold valid in Hv; simpl in Hv. apply Nat.ltb_lt in Hv.
  destruct (lookup_lt_is_Some_2 h a Hv) as [o Ha].
  assert (Forall (λ v, valid h v = true) (ob_operands o)) as Hops.
  { apply Forall_forall. intros v Hin. by eapply wf_heap_operand_valid. }
  cbn [differentiate].
  rewrite (bind_ok _ _ _ _ _ (get_type_ref _ _ _ Ha)).
  rewrite dispatch_class.
  destruct (ob_class o) eqn:Hc; try by apply keeps_wf_raise.
  - rewrite (bind_ok _ _ _ _ _ (get_operands_ref _ _ _ Ha)).
    eapply keeps_wf_bind.
    + apply keeps_wf_map_m; [|done..]. intros h1 x _ ? ?. by apply IH.
    + simpl. intros h1 ds Hp Hwf1 Hds. by apply keeps_wf_new.
  - rewrite (bind_ok _ _ _ _ _ (get_operands_ref _ _ _ Ha)).
    destruct Hops as [|f ? Hf [|g ? Hg []]]; try by apply keeps_wf_raise.
    cbn [unpack2]. rewrite bind_ret.
    wf_call IH. wf_new. wf_call IH. wf_new. wf_new.
  - rewrite (bind_ok _ _ _ _ _ (get_operands_ref _ _ _ Ha)).
    destruct Hops as [|f ? Hf [|g ? Hg []]]; try by apply keeps_wf_raise.
    cbn [unpack2]. rewrite bind_ret.
    wf_call IH. wf_new. wf_call IH. wf_new. wf_new. wf_new. wf_new. wf_new.
  - rewrite (bind_ok _ _ _ _ _ (get_operands_ref _ _ _ Ha)).
    destruct Hops as [|b ? Hb [|e ? He []]]; try by apply keeps_wf_raise.
    cbn [unpack2]. rewrite bind_ret, bind_check_instance.
    destruct (isinstance h e Number); [|by apply keeps_wf_raise].
    wf_new. wf_new. wf_new. wf_new. wf_call IH. wf_new.
  - apply keeps_wf_new; [done | by repeat constructor].
  - destruct (ob_value o) as [v|] eqn:Hval.
    + rewrite (bind_ok _ _ _ _ _ (get_value_ref _ _ _ _ Ha Hval)).
      destruct (py_eq v var);
        (apply keeps_wf_new; [done | by repeat constructor]).
    + rewrite (bind_raise _ _ _ _ _ (get_value_none _ _ _ Ha Hval)).
      by unfold keeps_wf; split_and!.
Qed.

(** ** Differentiation: the other rules *)

Lemma differentiate_tree_of_returns (fuel : nat) (h hd : heap)
    (v d var : value) (t : tree) :
  repr h v t → differentiate fuel v var h = (Ok d, hd) →
  ∃ td, differentiate_tree fuel t var = Ok td ∧ repr hd d td.
Proof.
  intros Ht Hd. pose proof (differentiate_refines fuel var _ _ _ Ht) as Hr.
  rewrite Hd in Hr. by apply refines_returned in Hr.
Qed.

Lemma differentiate_tree_of_denoted (fuel : nat) (h hd : heap)
    (v d var : value) (t td : tree) :
  repr h v t → differentiate fuel v var h = (Ok d, hd) → repr hd d td →
  differentiate_tree fuel t var = Ok td.
Proof.
  intros Ht Hd Htd.
  destruct (differentiate_tree_of_returns _ _ _ _ _ _ _ Ht Hd)
    as (td' & Heq & Htd').
  by rewrite (repr_fun _ _ _ _ Htd Htd').
Qed.

Lemma differentiate_tree_of_raises (fuel : nat) (h : heap) (v var : value)
    (t : tree) (x : exn) :
  repr h v t →
  raises (differentiate fuel v var h) x ↔ differentiate_tree fuel t var = Raise x.
Proof.
  intros Ht. apply refines_raises with (Rel := repr) (h := h).
  by apply differentiate_refines.
Qed.

Lemma returns_of_differentiate_tree (fuel : nat) (h : heap) (v var : value)
    (t td : tree) :
  repr h v t → differentiate_tree fuel t var = Ok td →
  ∃ r h', differentiate fuel v var h = (Ok r, h') ∧ repr h' r td.
Proof.
  intros Ht Hd. pose proof (differentiate_refines fuel var _ _ _ Ht) as Hr.
  rewrite Hd in Hr. apply refines_returns in Hr as (r & Hr & Hrepr). eauto.
Qed.

(** X1: what [differentiate] does depends on the tree its argument denotes
    and on nothing else: two arguments that denote the same tree, in
    whatever heaps and with whatever sharing, both raise the same exception
    or both return nodes that denote the same tree. *)
Theorem differentiate_by_tree (fuel : nat) (var : value) (h1 h2 : heap)
    (v1 v2 : value) (t : tree) :
  repr h1 v1 t → repr h2 v2 t →
  match differentiate fuel v1 var h1, differentiate fuel v2 var h2 with
  | (Ok r1, h1'), (Ok r2, h2') => ∃ t', repr h1' r1 t' ∧ repr h2' r2 t'
  | (Raise x1, _), (Raise x2, _) => x1 = x2
  | (Diverge, _), (Diverge, _) => True
  | _, _ => False
  end.
Proof.
  intros H1 H2.
  pose proof (differentiate_refines fuel var _ _ _ H1) as [_ R1].
  pose proof (differentiate_refines fuel var _ _ _ H2) as [_ R2].
  destruct (differentiate fuel v1 var h1) as [[r1|x1| |] h1'],
    (differentiate fuel v2 var h2) as [[r2|x2| |] h2'],
    (differentiate_tree fuel t var) as [t'|x| |];
    simpl in *; try done; [eauto | congruence].
Qed.

Lemma differentiate_by_tree_witness :
  match differentiate 2 (VRef 1) (VStr "x") (heap_of Mul_x_x),
        differentiate 2 (VRef 2) (VStr "x") (heap_of Mul_x_x_unshared) with
  | (Ok r1, h1'), (Ok r2, h2') => ∃ t', repr h1' r1 t' ∧ repr h2' r2 t'
  | (Raise x1, _), (Raise x2, _) => x1 = x2
  | (Diverge, _), (Diverge, _) => True
  | _, _ => False
  end.
Proof.
  apply (differentiate_by_tree 2 (VStr "x") (heap_of Mul_x_x)
           (heap_of Mul_x_x_unshared) (VRef 1) (VRef 2)
           (TMul (Node Symbol (Some (VStr "x")) [])
                 (Node Symbol (Some (VStr "x")) []))).
  - exists 2. reflexivity.
  - exists 2. reflexivity.
Defined.

(** X2: in a heap built by constructor calls, [differentiate] ends on every
    value: with enough fuel (more than the height of the expression) the
    call returns or raises. *)
Theorem differentiate_ends (h : heap) (expr var : value) :
  wf_heap h → valid h expr = true →
  ∃ n, ∀ k,
    match (differentiate (n + k) expr var h).1 with
    | Ok _ | Raise _ => True
    | _ => False
    end.
Proof.
  intros Hwf Hv. destruct (differentiate_terminates h expr var Hwf Hv) as [n Hn].
  exists n. intros k.
  by destruct (Hn k) as [(r & h' & ->) | (x & h' & ->)].
Qed.

Lemma differentiate_ends_witness :
  ∃ n, ∀ k,
    match (differentiate (n + k) (VRef 2) (VStr "x") (heap_of Div_x_2)).1 with
    | Ok _ | Raise _ => True
    | _ => False
    end.
Proof.
  apply (differentiate_ends (heap_of Div_x_2) (VRef 2) (VStr "x"));
    reflexivity.
Defined.



Lemma py_eq_str (name : string) (var : value) :
  py_eq (VStr name) var = true ↔ var = VStr name.
Proof.
  destruct var; simpl; try (split; [done|congruence]).
  rewrite String.eqb_eq. split; congruence.
Qed.

(** X4: the rules for the terminals.  A [Number] differentiates to a new
    [Number(0)].  A [Symbol] differentiates to a new [Number(1)] exactly
    when [var] is the string that is its name, and to a new [Number(0)] for
    every other [var], a [Symbol] object with that name included. *)
Theorem differentiate_terminal (fuel : nat) (h : heap) (a : addr)
    (o : object) (var : value) :
  h !! a = Some o →
  (ob_class o = Number →
   differentiate (S fuel) (VRef a) var h
   = (Ok (VRef (length h)), h ++ [Object Number [] (Some (VInt 0))]))
  ∧ (∀ name, ob_class o = Symbol → ob_value o = Some (VStr name) →
       (var = VStr name →
        differentiate (S fuel) (VRef a) var h
        = (Ok (VRef (length h)), h ++ [Object Number [] (Some (VInt 1))]))
       ∧ (var ≠ VStr name →
          differentiate (S fuel) (VRef a) var h
          = (Ok (VRef (length h)), h ++ [Object Number [] (Some (VInt 0))]))).
Proof.
  intros Ha. split.
  - intros Hc. simpl.
    rewrite (bind_ok _ _ _ _ _ (get_type_ref _ _ _ Ha)). by rewrite Hc.
  - intros name Hc Hv. simpl.
    rewrite (bind_ok _ _ _ _ _ (get_type_ref _ _ _ Ha)). rewrite Hc.
    rewrite dispatch_class.
    rewrite (bind_ok _ _ _ _ _ (get_value_ref _ _ _ _ Ha Hv)).
    split; intros Hvar.
    + by rewrite (proj2 (py_eq_str name var) Hvar).
    + destruct (py_eq (VStr name) var) eqn:Heq; [|done].
      by apply py_eq_str in Heq.
Qed.

Lemma differentiate_terminal_witness :
  let h := heap_of Div_x_2 in
  (ob_class (Object Symbol [] (Some (VStr "x"))) = Number →
   differentiate 1 (VRef 0) (VRef 0) h
   = (Ok (VRef (length h)), h ++ [Object Number [] (Some (VInt 0))]))
  ∧ (∀ name,
       ob_class (Object Symbol [] (Some (VStr "x"))) = Symbol →
       ob_value (Object Symbol [] (Some (VStr "x"))) = Some (VStr name) →
       (VRef 0 = VStr name →
        differentiate 1 (VRef 0) (VRef 0) h
        = (Ok (VRef (length h)), h ++ [Object Number [] (Some (VInt 1))]))
       ∧ (VRef 0 ≠ VStr name →
          differentiate 1 (VRef 0) (VRef 0) h
          = (Ok (VRef (length h)), h ++ [Object Number [] (Some (VInt 0))]))).
Proof.
  apply (differentiate_terminal 0 (heap_of Div_x_2) 0
           (Object Symbol [] (Some (VStr "x"))) (VRef 0)).
  reflexivity.
Defined.

Lemma rmap_Ok {A B} (f : A → result B) (l : list A) (k : list B) :
  Forall2 (λ x y, f x = Ok y) l k → rmap f l = Ok k.
Proof.
  induction 1 as [|x y l k Hx _ IH]; simpl; [done|]. by rewrite Hx, IH.
Qed.

Lemma rmap_Raise {A B} (f : A → result B) (pre post : list A) (x : A)
    (e : exn) :
  Forall (λ y, ∃ z, f y = Ok z) pre → f x = Raise e →
  rmap f (pre ++ x :: post) = Raise e.
Proof.
  intros Hpre Hx. induction Hpre as [|y pre [z Hy] _ IH]; simpl.
  - by rewrite Hx.
  - by rewrite Hy, IH.
Qed.

(** X5: the rule for [Add] maps over the operands, however many there are
    and from left to right.  When the recursive call on every operand
    returns, the call returns a new [Add] node with the derivatives as
    operands, in order ([Add()] differentiates to [Add()], a sum of three
    to a sum of three); and the exception of the first operand whose call
    raises, those of the operands before it having returned, is the
    call's, whatever the operands after it would do. *)
Theorem differentiate_Add_rule (fuel : nat) (h : heap) (a : addr)
    (o : object) (var : value) (ts : list tree) :
  h !! a = Some o → ob_class o = Add →
  Forall2 (repr h) (ob_operands o) ts →
  (∀ tds,
      Forall2 (λ op td, ∃ d hd, differentiate fuel op var h = (Ok d, hd)
                                ∧ repr hd d td)
              (ob_operands o) tds →
      ∃ r h', differentiate (S fuel) (VRef a) var h = (Ok r, h') ∧
              repr h' r (Node Add None tds))
  ∧ (∀ pre op post x,
        ob_operands o = pre ++ op :: post →
        Forall (λ p, ∃ d hd, differentiate fuel p var h = (Ok d, hd)) pre →
        raises (differentiate fuel op var h) x →
        raises (differentiate (S fuel) (VRef a) var h) x).
Proof.
  intros Ha Hc Hts.
  assert (repr h (VRef a) (Node (ob_class o) (ob_value o) ts)) as Hnode
    by by apply repr_node.
  assert (differentiate_tree (S fuel) (Node (ob_class o) (ob_value o) ts) var
          = rbind (rmap (λ op, differentiate_tree fuel op var) ts)
                  (λ ds, Ok (Node Add None ds))) as Htree.
  { rewrite Hc. cbn [differentiate_tree tree_type tree_operands].
    by rewrite dispatch_class. }
  split.
  - intros tds Htds.
    apply (returns_of_differentiate_tree _ _ _ _ _ _ Hnode).
    rewrite Htree. rewrite (rmap_Ok _ _ tds); [done|].
    clear Ha Hc Hnode Htree. revert tds Htds.
    induction Hts as [|op t ops ts Ht _ IH]; intros tds Htds.
    + apply Forall2_nil_inv_l in Htds as ->. constructor.
    + apply Forall2_cons_inv_l in Htds
        as (td & tds' & (d & hd & Hd & Htd) & Htds & ->).
      constructor; [|by apply IH].
      by eapply differentiate_tree_of_denoted.
  - intros pre op post x Hops Hpre Hx.
    apply (differentiate_tree_of_raises _ _ _ _ _ _ Hnode).
    rewrite Hops in Hts.
    apply Forall2_app_inv_l in Hts as (tpre & trest & Htpre & Htrest & ->).
    apply Forall2_cons_inv_l in Htrest as (t & tpost & Ht & _ & ->).
    apply (differentiate_tree_of_raises _ _ _ _ _ _ Ht) in Hx.
    assert (Forall (λ y, ∃ z, differentiate_tree fuel y var = Ok z) tpre)
      as Htp.
    { clear -Htpre Hpre.
      induction Htpre as [|p tp pre tpre Hp _ IH]; [constructor|].
      apply Forall_cons in Hpre as [(d & hd & Hd) Hpre].
      constructor; [|by apply IH].
      destruct (differentiate_tree_of_returns _ _ _ _ _ _ _ Hp Hd)
        as (td & Htd & _).
      by exists td. }
    by rewrite Htree, (rmap_Raise _ _ _ _ x Htp Hx).
Qed.

Lemma differentiate_Add_rule_witness :
  (∃ r h', differentiate 2 (VRef 3) (VStr "x") (heap_of Add_x_y_3) = (Ok r, h')
           ∧ repr h' r (Node Add None [TNumber (VInt 1); TNumber (VInt 0);
                                       TNumber (VInt 0)]))
  ∧ raises (differentiate 2 (VRef 4) (VStr "x")
              (heap_of Add_x_Sub_x_y_Pow_x_y))
           (NotImplementedError "Cannot differentiate a Sub").
Proof.
  split.
  - apply (differentiate_Add_rule 1 (heap_of Add_x_y_3) 3
             (Object Add [VRef 0; VRef 1; VRef 2] None) (VStr "x")
             [Node Symbol (Some (VStr "x")) [];
              Node Symbol (Some (VStr "y")) []; TNumber (VInt 3)]).
    + reflexivity.
    + reflexivity.
    + repeat constructor; exists 1; reflexivity.
    + repeat constructor; do 2 eexists; (split; [reflexivity|]);
        exists 1; reflexivity.
  - apply (differentiate_Add_rule 1 (heap_of Add_x_Sub_x_y_Pow_x_y) 4
             (Object Add [VRef 0; VRef 2; VRef 3] None) (VStr "x")
             [Node Symbol (Some (VStr "x")) [];
              Node Sub None [Node Symbol (Some (VStr "x")) [];
                             Node Symbol (Some (VStr "y")) []];
              Node Pow None [Node Symbol (Some (VStr "x")) [];
                             Node Symbol (Some (VStr "y")) []]]
             eq_refl eq_refl)
      with (pre := [VRef 0]) (op := VRef 2) (post := [VRef 3]).
    + repeat constructor; exists 2; reflexivity.
    + reflexivity.
    + repeat constructor. do 2 eexists. reflexivity.
    + reflexivity.
Defined.

(** X6: the product rule.  On [Mul(f, g)], when the recursive calls on [f]
    and on [g] return nodes denoting [tdf] and [tdg], the call returns a
    node denoting [Add(Mul(tdf, g), Mul(tdg, f))]; an exception of the call
    on [f], or of the call on [g] after [f]'s returned, is the call's. *)
Theorem differentiate_Mul_rule (fuel : nat) (h : heap) (a : addr)
    (f g : value) (val : option value) (var : value) (tf tg : tree) :
  h !! a = Some (Object Mul [f; g] val) →
  repr h f tf → repr h g tg →
  (∀ df hf tdf dg hg tdg,
      differentiate fuel f var h = (Ok df, hf) → repr hf df tdf →
      differentiate fuel g var h = (Ok dg, hg) → repr hg dg tdg →
      ∃ r h', differentiate (S fuel) (VRef a) var h = (Ok r, h') ∧
              repr h' r (TAdd (TMul tdf tg) (TMul tdg tf)))
  ∧ (∀ x, raises (differentiate fuel f var h) x →
          raises (differentiate (S fuel) (VRef a) var h) x)
  ∧ (∀ df hf x, differentiate fuel f var h = (Ok df, hf) →
                raises (differentiate fuel g var h) x →
                raises (differentiate (S fuel) (VRef a) var h) x).
Proof.
  intros Ha Hf Hg.
  assert (repr h (VRef a) (Node Mul val [tf; tg])) as Hnode.
  { apply (repr_node h a (Object Mul [f; g] val)); [done|].
    by repeat constructor. }
  assert (differentiate_tree (S fuel) (Node Mul val [tf; tg]) var
          = rbind (differentiate_tree fuel tf var) (λ df,
            rbind (differentiate_tree fuel tg var) (λ dg,
            Ok (TAdd (TMul df tg) (TMul dg tf))))) as Htree by done.
  split_and!.
  - intros df hf tdf dg hg tdg Hdf Htdf Hdg Htdg.
    apply (returns_of_differentiate_tree _ _ _ _ _ _ Hnode).
    rewrite Htree.
    rewrite (differentiate_tree_of_denoted _ _ _ _ _ _ _ _ Hf Hdf Htdf).
    by rewrite (differentiate_tree_of_denoted _ _ _ _ _ _ _ _ Hg Hdg Htdg).
  - intros x Hx. apply (differentiate_tree_of_raises _ _ _ _ _ _ Hnode).
    apply (differentiate_tree_of_raises _ _ _ _ _ _ Hf) in Hx.
    by rewrite Htree, Hx.
  - intros df hf x Hdf Hx.
    apply (differentiate_tree_of_raises _ _ _ _ _ _ Hnode).
    apply (differentiate_tree_of_raises _ _ _ _ _ _ Hg) in Hx.
    destruct (differentiate_tree_of_returns _ _ _ _ _ _ _ Hf Hdf)
      as (tdf & Htdf & _).
    by rewrite Htree, Htdf, Hx.
Qed.

Lemma differentiate_Mul_rule_witness :
  let h := heap_of Mul_x_x in
  let tx := Node Symbol (Some (VStr "x")) [] in
  (∀ df hf tdf dg hg tdg,
      differentiate 1 (VRef 0) (VStr "x") h = (Ok df, hf) → repr hf df tdf →
      differentiate 1 (VRef 0) (VStr "x") h = (Ok dg, hg) → repr hg dg tdg →
      ∃ r h', differentiate 2 (VRef 1) (VStr "x") h = (Ok r, h') ∧
              repr h' r (TAdd (TMul tdf tx) (TMul tdg tx)))
  ∧ (∀ x, raises (differentiate 1 (VRef 0) (VStr "x") h) x →
          raises (differentiate 2 (VRef 1) (VStr "x") h) x)
  ∧ (∀ df hf x, differentiate 1 (VRef 0) (VStr "x") h = (Ok df, hf) →
                raises (differentiate 1 (VRef 0) (VStr "x") h) x →
                raises (differentiate 2 (VRef 1) (VStr "x") h) x).
Proof.
  apply (differentiate_Mul_rule 1 (heap_of Mul_x_x) 1 (VRef 0) (VRef 0)
           None (VStr "x")).
  - reflexivity.
  - exists 1. reflexivity.
  - exists 1. reflexivity.
Defined.

Lemma differentiate_tree_Div (fuel : nat) (val : option value)
    (tf tg : tree) (var : value) :
  differentiate_tree (S fuel) (Node Div val [tf; tg]) var
  = rbind (differentiate_tree fuel tf var) (λ df,
    rbind (differentiate_tree fuel tg var) (λ dg,
    Ok (TDiv (TSub (TMul df tg) (TMul dg tf)) (TPow tg (TNumber (VInt 2)))))).
Proof. done. Qed.

(** X7: the quotient rule.  On [Div(f, g)], when the recursive calls on [f]
    and on [g] return nodes denoting [tdf] and [tdg], the call returns a
    node denoting [Div(Sub(Mul(tdf, g), Mul(tdg, f)), Pow(g, Number(2)))];
    an exception of the call on [f], or of the call on [g] after [f]'s
    returned, is the call's. *)
Theorem differentiate_Div_rule (fuel : nat) (h : heap) (a : addr)
    (f g : value) (val : option value) (var : value) (tf tg : tree) :
  h !! a = Some (Object Div [f; g] val) →
  repr h f tf → repr h g tg →
  (∀ df hf tdf dg hg tdg,
      differentiate fuel f var h = (Ok df, hf) → repr hf df tdf →
      differentiate fuel g var h = (Ok dg, hg) → repr hg dg tdg →
      ∃ r h', differentiate (S fuel) (VRef a) var h = (Ok r, h') ∧
              repr h' r (TDiv (TSub (TMul tdf tg) (TMul tdg tf))
                              (TPow tg (TNumber (VInt 2)))))
  ∧ (∀ x, raises (differentiate fuel f var h) x →
          raises (differentiate (S fuel) (VRef a) var h) x)
  ∧ (∀ df hf x, differentiate fuel f var h = (Ok df, hf) →
                raises (differentiate fuel g var h) x →
                raises (differentiate (S fuel) (VRef a) var h) x).
Proof.
  intros Ha Hf Hg.
  assert (repr h (VRef a) (Node Div val [tf; tg])) as Hnode.
  { apply (repr_node h a (Object Div [f; g] val)); [done|].
    by repeat constructor. }
  pose proof (differentiate_tree_Div fuel val tf tg var) as Htree.
  split_and!.
  - intros df hf tdf dg hg tdg Hdf Htdf Hdg Htdg.
    apply (returns_of_differentiate_tree _ _ _ _ _ _ Hnode).
    rewrite Htree.
    rewrite (differentiate_tree_of_denoted _ _ _ _ _ _ _ _ Hf Hdf Htdf).
    by rewrite (differentiate_tree_of_denoted _ _ _ _ _ _ _ _ Hg Hdg Htdg).
  - intros x Hx. apply (differentiate_tree_of_raises _ _ _ _ _ _ Hnode).
    apply (differentiate_tree_of_raises _ _ _ _ _ _ Hf) in Hx.
    by rewrite Htree, Hx.
  - intros df hf x Hdf Hx.
    apply (differentiate_tree_of_raises _ _ _ _ _ _ Hnode).
    apply (differentiate_tree_of_raises _ _ _ _ _ _ Hg) in Hx.
    destruct (differentiate_tree_of_returns _ _ _ _ _ _ _ Hf Hdf)
      as (tdf & Htdf & _).
    by rewrite Htree, Htdf, Hx.
Qed.

Lemma differentiate_Div_rule_witness :
  (∃ r h', differentiate 2 (VRef 2) (VStr "x") (heap_of Div_x_2) = (Ok r, h')
           ∧ repr h' r
               (TDiv (TSub (TMul (TNumber (VInt 1)) (TNumber (VInt 2)))
                           (TMul (TNumber (VInt 0))
                                 (Node Symbol (Some (VStr "x")) [])))
                     (TPow (TNumber (VInt 2)) (TNumber (VInt 2)))))
  ∧ raises (differentiate 2 (VRef 3) (VStr "x") (heap_of Div_x_Sub_x_y))
           (NotImplementedError "Cannot differentiate a Sub").
Proof.
  split.
  - apply (proj1 (differentiate_Div_rule 1 (heap_of Div_x_2) 2
                    (VRef 0) (VRef 1) None (VStr "x")
                    (Node Symbol (Some (VStr "x")) []) (TNumber (VInt 2))
                    eq_refl
                    (ex_intro _ 1 eq_refl) (ex_intro _ 1 eq_refl))
             (VRef 3)
             (heap_of Div_x_2 ++ [Object Number [] (Some (VInt 1))])
             (TNumber (VInt 1))
             (VRef 3)
             (heap_of Div_x_2 ++ [Object Number [] (Some (VInt 0))])
             (TNumber (VInt 0))).
    + reflexivity.
    + exists 1. reflexivity.
    + reflexivity.
    + exists 1. reflexivity.
  - apply (proj2 (proj2 (differentiate_Div_rule 1 (heap_of Div_x_Sub_x_y) 3
                    (VRef 0) (VRef 2) None (VStr "x")
                    (Node Symbol (Some (VStr "x")) [])
                    (Node Sub None [Node Symbol (Some (VStr "x")) [];
                                    Node Symbol (Some (VStr "y")) []])
                    eq_refl
                    (ex_intro _ 1 eq_refl) (ex_intro _ 2 eq_refl)))
             (VRef 4)
             (heap_of Div_x_Sub_x_y ++ [Object Number [] (Some (VInt 1))])).
    + reflexivity.
    + reflexivity.
Defined.

(** X8: the rules for [Mul], [Div] and [Pow] unpack exactly two operands:
    on a node of one of these classes with any other number of operands the
    call raises the [ValueError] of the unpacking, before anything is
    differentiated or allocated. *)
Theorem differentiate_wrong_arity (fuel : nat) (h : heap) (a : addr)
    (o : object) (var : value) :
  h !! a = Some o → unpacks_two (ob_class o) = true →
  length (ob_operands o) ≠ 2 →
  differentiate (S fuel) (VRef a) var h
  = (Raise (UnpackError 2 (length (ob_operands o))), h).
Proof.
  intros Ha Hc Hlen. simpl.
  rewrite (bind_ok _ _ _ _ _ (get_type_ref _ _ _ Ha)).
  rewrite dispatch_class.
  destruct (ob_class o); try done;
    rewrite (bind_ok _ _ _ _ _ (get_operands_ref _ _ _ Ha));
    by destruct (ob_operands o) as [|? [|? []]].
Qed.

Lemma differentiate_wrong_arity_witness :
  differentiate 1 (VRef 1) (VStr "x") (heap_of Mul_x)
  = (Raise (UnpackError 2 1), heap_of Mul_x).
Proof.
  apply (differentiate_wrong_arity 0 (heap_of Mul_x) 1
           (Object Mul [VRef 0] None) (VStr "x")).
  - reflexivity.
  - reflexivity.
  - simpl. lia.
Defined.

Lemma differentiate_default (fuel : nat) (h : heap) (v var : value)
    (t : pytype) :
  type_of h v = Some t → dispatch t = None →
  differentiate (S fuel) v var h
  = (Raise (NotImplementedError ("Cannot differentiate a " +:+ type_name t)),
     h).
Proof.
  intros Ht Hd. simpl. unfold bind at 1, get_type. by rewrite Ht, Hd.
Qed.

(** X9: the generic function is what runs on everything that is not an
    instance of a registered class: on a number, a string or [None], and on
    an instance of [Expression], [Operator], [Terminal] or [Sub], the call
    raises [NotImplementedError] with the name of the value's type and
    leaves the heap alone. *)
Theorem differentiate_unregistered (fuel : nat) (h : heap) (v var : value)
    (t : pytype) :
  type_of h v = Some t →
  (∀ c, t = TClass c → c ∈ [Expression; Operator; Terminal; Sub]) →
  differentiate (S fuel) v var h
  = (Raise (NotImplementedError ("Cannot differentiate a " +:+ type_name t)),
     h).
Proof.
  intros Ht Hc. apply differentiate_default; [done|].
  destruct t as [| | | | |c]; try done.
  rewrite dispatch_class. specialize (Hc c eq_refl).
  destruct c; try reflexivity; exfalso;
    repeat (apply elem_of_cons in Hc as [Hc|Hc]; [discriminate Hc|]);
    by apply elem_of_nil in Hc.
Qed.

Lemma differentiate_unregistered_witness :
  differentiate 1 (VInt 7) (VStr "x") []
  = (Raise (NotImplementedError "Cannot differentiate a int"), []).
Proof.
  apply (differentiate_unregistered 0 [] (VInt 7) (VStr "x") TInt).
  - reflexivity.
  - intros c Hc. discriminate Hc.
Defined.

(** X10: the derivative of a quotient cannot be differentiated.  Whatever
    a call on a [Div] node returns is a [Div] node whose numerator is a
    [Sub] node, and there is no rule for [Sub]: the second call raises
    [NotImplementedError]. *)
Theorem second_derivative_of_Div_raises (fuel k : nat) (h h' : heap)
    (a : addr) (o : object) (var var' r : value) :
  wf_heap h → h !! a = Some o → ob_class o = Div →
  differentiate fuel (VRef a) var h = (Ok r, h') →
  raises (differentiate (S (S k)) r var' h')
         (NotImplementedError "Cannot differentiate a Sub").
Proof.
  intros Hwf Ha Hc Hd.
  destruct (wf_repr_ref h a Hwf (lookup_lt_Some _ _ _ Ha)) as [t Ht].
  destruct (differentiate_tree_of_returns _ _ _ _ _ _ _ Ht Hd)
    as (t' & Ht' & Hr).
  apply (differentiate_tree_of_raises _ _ _ _ _ _ Hr).
  apply repr_ref_inv in Ht as (o' & ts & Ha' & -> & _).
  assert (o' = o) as -> by congruence. rewrite Hc in Ht'.
  destruct fuel as [|fuel]; [done|].
  cbn [differentiate_tree tree_type tree_operands] in Ht'.
  rewrite dispatch_class in Ht'.
  destruct ts as [|tf [|tg []]]; try done.
  destruct (differentiate_tree fuel tf var); try done.
  destruct (differentiate_tree fuel tg var); try done.
  simpl in Ht'. by simplify_eq.
Qed.

Lemma second_derivative_of_Div_raises_witness :
  raises (differentiate 2 (VRef 10) (VStr "x")
            (differentiate 2 (VRef 2) (VStr "x") (heap_of Div_x_2)).2)
         (NotImplementedError "Cannot differentiate a Sub").
Proof.
  apply (second_derivative_of_Div_raises 2 0 (heap_of Div_x_2) _ 2
           (Object Div [VRef 0; VRef 1] None) (VStr "x") (VStr "x") (VRef 10));
    reflexivity.
Defined.

Lemma differentiate_tree_Mul (fuel : nat) (val : option value)
    (tf tg : tree) (var : value) :
  differentiate_tree (S fuel) (Node Mul val [tf; tg]) var
  = rbind (differentiate_tree fuel tf var) (λ df,
    rbind (differentiate_tree fuel tg var) (λ dg,
    Ok (TAdd (TMul df tg) (TMul dg tf)))).
Proof. done. Qed.

(** X11: the derivative of a power cannot be differentiated either.
    Whatever a call on a [Pow] node returns contains [Pow(b, Sub(e,
    Number(1)))], whose exponent is a [Sub] node and so not a [Number]: the
    second call raises the variable-exponent error. *)
Theorem second_derivative_of_Pow_raises (fuel k : nat) (h h' : heap)
    (a : addr) (o : object) (var var' r : value) :
  wf_heap h → h !! a = Some o → ob_class o = Pow →
  differentiate fuel (VRef a) var h = (Ok r, h') →
  raises (differentiate (S (S (S k))) r var' h')
         (NotImplementedError "Variable exponents are not yet supported.").
Proof.
  intros Hwf Ha Hc Hd.
  destruct (wf_repr_ref h a Hwf (lookup_lt_Some _ _ _ Ha)) as [t Ht].
  destruct (differentiate_tree_of_returns _ _ _ _ _ _ _ Ht Hd)
    as (t' & Ht' & Hr).
  apply (differentiate_tree_of_raises _ _ _ _ _ _ Hr).
  apply repr_ref_inv in Ht as (o' & ts & Ha' & -> & _).
  assert (o' = o) as -> by congruence. rewrite Hc in Ht'.
  destruct fuel as [|fuel]; [done|].
  cbn [differentiate_tree tree_type tree_operands] in Ht'.
  rewrite dispatch_class in Ht'.
  destruct ts as [|tb [|te []]]; try done.
  destruct (tree_type te) as [[| | | | |d]|] eqn:Hte; try done.
  destruct (issubclass d Number) eqn:Hd'; [|done].
  destruct (differentiate_tree fuel tb var); try done.
  simpl in Ht'. simplify_eq.
  assert (d = Number) as -> by by destruct d.
  assert (differentiate_tree (S k) te var' = Ok (TNumber (VInt 0))) as Hn.
  { cbn [differentiate_tree]. by rewrite Hte. }
  unfold TMul at 1. rewrite differentiate_tree_Mul.
  unfold TMul at 1. rewrite differentiate_tree_Mul.
  by rewrite Hn.
Qed.

Lemma second_derivative_of_Pow_raises_witness :
  raises (differentiate 3 (VRef 8) (VStr "x")
            (differentiate 2 (VRef 2) (VStr "x") (heap_of Pow_x_3)).2)
         (NotImplementedError "Variable exponents are not yet supported.").
Proof.
  apply (second_derivative_of_Pow_raises 2 0 (heap_of Pow_x_3) _ 2
           (Object Pow [VRef 0; VRef 1] None) (VStr "x") (VStr "x") (VRef 8));
    reflexivity.
Defined.

(** ** The traversal: exceptions, leaves, coverage *)

Section PostvisitorMore.
Context {R St : Type}.
Variable h : heap.
Variable visitor : visitor_t R St.
Variable kw : kwargs.

Local Abbreviation body := (body h visitor kw).
Local Abbreviation while := (while h visitor kw).

Lemma body_trace_ended (st st' : pv_state R St) (out : result unit) :
  Forall returned (trace st) → body st = (out, st') →
  trace_ended out st' ∧ (∀ u, out = Ok u → Forall returned (trace st')).
Proof.
  intros Htr Hb. unfold body in Hb.
  assert (∀ out' stk' vis' s',
             (out', PvState stk' vis' s' (trace st)) = (out, st') →
             trace_ended out st'
             ∧ (∀ u, out = Ok u → Forall returned (trace st'))) as Hsame.
  { intros out' stk' vis' s' [= <- <-]. split; [by left|done]. }
  destruct (stack st) as [|e stk].
  { destruct st. by eapply Hsame. }
  destruct e as [| | | | |a];
    try (destruct (type_of h _); by eapply Hsame).
  destruct (h !! a) as [o|]; [|by eapply Hsame].
  simpl in Hb.
  destruct (filter _ _) as [|u us]; [|by eapply Hsame].
  destruct (visited_all _ _) as [x|args]; [by eapply Hsame|].
  destruct (visitor _ _ _ _) as [[x|r] s']; simplify_eq; simpl.
  - split; [|done]. right. by exists x, (Call a args kw (inl x)), (trace st).
  - assert (Forall returned (Call a args kw (inr r) :: trace st)) as Hall.
    { constructor; [by exists r|done]. }
    split; [by left|done].
Qed.

Lemma while_trace_ended (fuel : nat) (st st' : pv_state R St)
    (out : result unit) :
  Forall returned (trace st) → while fuel st = (out, st') →
  trace_ended out st' ∧ (∀ u, out = Ok u → Forall returned (trace st')).
Proof.
  revert st. induction fuel as [|fuel IH]; intros st Htr Hw; simpl in Hw.
  - simplify_eq. split; [by left|done].
  - destruct (stack st) eqn:Hs; [simplify_eq; split; [by left|done]|].
    destruct (body st) as [out1 st1] eqn:Hb.
    destruct (body_trace_ended _ _ _ Htr Hb) as [Hend Hok].
    destruct out1 as [[]| | |];
      [eapply IH; [by eapply Hok | done] | by simplify_eq..].
Qed.

End PostvisitorMore.

(** X12: an exception of the visitor ends the traversal at once and is the
    exception of [postvisitor]: in the trace of any run every call but the
    latest returned, and if the latest raised, [postvisitor] raised the
    same; a run that returns has no raising call at all. *)
Theorem postvisitor_stops_at_exception {R St} (h : heap)
    (visitor : visitor_t R St) (kw : kwargs) (fuel : nat) (expr : value)
    (s : St) :
  match (postvisitor h visitor kw fuel expr s).2 with
  | [] => True
  | c :: pre =>
      Forall returned pre
      ∧ ∀ x, call_result c = inl x →
             (postvisitor h visitor kw fuel expr s).1.1 = Raise x
  end
  ∧ ∀ r, (postvisitor h visitor kw fuel expr s).1.1 = Ok r →
         Forall returned (postvisitor h visitor kw fuel expr s).2.
Proof.
  unfold postvisitor.
  destruct (while h visitor kw fuel _) as [out st] eqn:Hw.
  destruct (while_trace_ended h visitor kw fuel (PvState [expr] ∅ s [])
              st out (Forall_nil_2 _) Hw) as [Hend Hok].
  assert (match trace st with
          | [] => True
          | c :: pre =>
              Forall returned pre
              ∧ ∀ x, call_result c = inl x → out = Raise x
          end) as Hlast.
  { destruct Hend as [Hall | (x & c & pre & -> & -> & Hx & Hpre)].
    - destruct (trace st) as [|c pre]; [done|].
      apply Forall_cons in Hall as [[r Hr] Hpre]. split; [done|].
      intros x Hx. congruence.
    - split; [done|]. intros x' Hx'. congruence. }
  assert (∀ res : result R,
             (∀ x, out = Raise x → res = Raise x) →
             match trace st with
             | [] => True
             | c :: pre =>
                 Forall returned pre
                 ∧ ∀ x, call_result c = inl x → res = Raise x
             end) as Hres.
  { intros res Hout. destruct (trace st) as [|c pre]; [done|].
    destruct Hlast as [Hpre Hx]. split; [done|].
    intros x Hcx. by apply Hout, Hx. }
  split.
  - destruct out as [[]|x| |]; [destruct (visited_get _ _)|..]; simpl;
      apply Hres; intros x' Hx'; by simplify_eq.
  - intros r. destruct out as [[]|x| |]; simpl; try done.
    destruct (visited_get _ _); simpl; [done|]. intros _. by eapply Hok.
Qed.

Lemma postvisitor_returns_root {R St} (h : heap) (visitor : visitor_t R St)
    (kw : kwargs) (fuel : nat) (root : addr) (s : St) (r : R) :
  (postvisitor h visitor kw fuel (VRef root) s).1.1 = Ok r →
  ∃ args pre,
    (postvisitor h visitor kw fuel (VRef root) s).2
    = Call root args kw (inr r) :: pre.
Proof.
  unfold postvisitor.
  destruct (while h visitor kw fuel _) as [out st] eqn:Hw.
  destruct out as [[]|x| |]; simpl; try done.
  destruct (while_inv_ok h visitor kw (root_inv kw root)
              (body_root_inv h visitor kw root) fuel
              (PvState [VRef root] ∅ s []) () st)
    as [[[x Hbot] | (_ & args & r0 & pre & Htr & Hvis)] Hs].
  - left. by exists [].
  - done.
  - rewrite Hs in Hbot. by destruct x.
  - simpl. rewrite Hvis. simpl. intros [= <-]. eauto.
Qed.

Lemma postvisitor_Ok_returned {R St} (h : heap) (visitor : visitor_t R St)
    (kw : kwargs) (fuel : nat) (expr : value) (s : St) (r : R) :
  (postvisitor h visitor kw fuel expr s).1.1 = Ok r →
  Forall returned (postvisitor h visitor kw fuel expr s).2.
Proof.
  unfold postvisitor.
  destruct (while h visitor kw fuel _) as [out st] eqn:Hw.
  destruct (while_trace_ended h visitor kw fuel (PvState [expr] ∅ s [])
              st out (Forall_nil_2 _) Hw) as [_ Hok].
  destruct out as [[]|x| |]; simpl; try done.
  destruct (visited_get _ _); simpl; [done|]. intros _. by eapply Hok.
Qed.

Lemma last_result_elem {R} (pre : list (call R)) (b : addr) (r : R) :
  last_result pre b = Some r →
  ∃ c, c ∈ pre ∧ call_node c = b ∧ call_result c = inr r.
Proof.
  induction pre as [|c pre IH]; simpl; [done|].
  destruct (call_result c) as [x|r0] eqn:Hc.
  - intros (c' & ? & ? & ?)%IH. exists c'. split; [by right|done].
  - destruct (Nat.eqb_spec (call_node c) b) as [Hb|Hb].
    + intros [= <-]. exists c. split; [by left|done].
    + intros (c' & ? & ? & ?)%IH. exists c'. split; [by right|done].
Qed.

Lemma calls_ok_reachable {R} (h : heap) (tr : list (call R)) (a b : addr) :
  calls_ok h tr → reachable h a b →
  ∀ c, c ∈ tr → call_node c = a →
       ∃ c' o, c' ∈ tr ∧ call_node c' = b ∧ h !! b = Some o
               ∧ Forall (λ v, ∃ d, v = VRef d) (ob_operands o).
Proof.
  intros Hok Hreach. induction Hreach as [a | a o b c0 Ha Hb _ IH];
    intros c Hc Hnode.
  - destruct (list_elem_of_split _ _ Hc) as (post & pre & Htr).
    destruct (calls_ok_split h tr post pre c Hok Htr) as (o & Ho & Hargs).
    exists c, o. rewrite <- Hnode. split_and!; [done..|].
    apply (Forall2_Forall_l _ _ _ _ Hargs), Forall_true.
    intros v r (d & -> & _). eauto.
  - destruct (list_elem_of_split _ _ Hc) as (post & pre & Htr).
    destruct (calls_ok_split h tr post pre c Hok Htr) as (o' & Ho & Hargs).
    rewrite Hnode, Ha in Ho. simplify_eq.
    apply list_elem_of_lookup in Hb as [i Hi].
    destruct (Forall2_lookup_l _ _ _ _ _ Hargs Hi)
      as (r & _ & d & [= <-] & Hlast).
    destruct (last_result_elem _ _ _ Hlast) as (c' & Hc' & Hn' & _).
    apply (IH c'); [|done].
    apply elem_of_app. right. by right.
Qed.

(** X13: when [postvisitor] returns, the visitor has been invoked, and has
    returned, on every node that can be reached from the root through
    operands: no subexpression is skipped. *)
Theorem postvisitor_visits_all {R St} (h : heap) (visitor : visitor_t R St)
    (kw : kwargs) (fuel : nat) (root : addr) (s : St) (r : R) :
  (postvisitor h visitor kw fuel (VRef root) s).1.1 = Ok r →
  ∀ b, reachable h root b →
       ∃ c, c ∈ (postvisitor h visitor kw fuel (VRef root) s).2
            ∧ call_node c = b ∧ returned c.
Proof.
  intros Hr b Hb.
  destruct (postvisitor_returns_root _ _ _ _ _ _ _ Hr) as (args & pre & Htr).
  destruct (postvisitor_trace_inv h visitor kw fuel (VRef root) s)
    as [Hok _].
  destruct (calls_ok_reachable h _ root b Hok Hb
              (Call root args kw (inr r)))
    as (c & o & Hc & Hn & _); [rewrite Htr; by left|done|].
  exists c. split_and!; [done..|].
  pose proof (postvisitor_Ok_returned _ _ _ _ _ _ _ Hr) as Hall.
  rewrite Forall_forall in Hall. by apply Hall.
Qed.

Lemma postvisitor_visits_all_witness :
  ∃ c, c ∈ (postvisitor (heap_of Add_x_Mul_x_y) count_visitor [] 8
              (VRef 3) ∅).2
       ∧ call_node c = 1 ∧ returned c.
Proof.
  apply (postvisitor_visits_all (heap_of Add_x_Mul_x_y) count_visitor []
           8 3 ∅ ()).
  - reflexivity.
  - apply (reachable_step _ 3 (Object Add [VRef 0; VRef 2] None) 2 1).
    + reflexivity.
    + simpl. do 2 constructor.
    + apply (reachable_step _ 2 (Object Mul [VRef 0; VRef 1] None) 1 1).
      * reflexivity.
      * simpl. do 2 constructor.
      * apply reachable_refl.
Defined.

(** X14: [postvisitor] returns only on expressions made of expressions:
    when it returns, every operand of every node reachable from the root is
    an expression object.  On [Add(Number(1), 2)], say, it cannot return
    (the bare [2] has no [operands]). *)
Theorem postvisitor_returns_only_on_expressions {R St} (h : heap)
    (visitor : visitor_t R St) (kw : kwargs) (fuel : nat) (root : addr)
    (s : St) (r : R) :
  (postvisitor h visitor kw fuel (VRef root) s).1.1 = Ok r →
  ∀ b o, reachable h root b → h !! b = Some o →
         Forall (λ v, ∃ d, v = VRef d) (ob_operands o).
Proof.
  intros Hr b o Hb Ho.
  destruct (postvisitor_returns_root _ _ _ _ _ _ _ Hr) as (args & pre & Htr).
  destruct (postvisitor_trace_inv h visitor kw fuel (VRef root) s)
    as [Hok _].
  destruct (calls_ok_reachable h _ root b Hok Hb
              (Call root args kw (inr r)))
    as (c & o' & _ & _ & Ho' & Hops); [rewrite Htr; by left|done|].
  by simplify_eq.
Qed.

Lemma postvisitor_returns_only_on_expressions_witness :
  Forall (λ v, ∃ d, v = VRef d)
         (ob_operands (Object Add [VRef 0; VRef 1] None)).
Proof.
  apply (postvisitor_returns_only_on_expressions (heap_of Add_a_b)
           (names_visitor (heap_of Add_a_b)) [] 5 2 () ["a"; "b"]
           eq_refl 2 (Object Add [VRef 0; VRef 1] None)).
  - apply reachable_refl.
  - reflexivity.
Defined.

(** The traversal of [Add(Number(1), 2)] ends in the [AttributeError] of
    the bare integer, which is on top of the stack, before any visit. *)
Example postvisitor_Add_1_raw2 :
  postvisitor (heap_of Add_1_raw2) count_visitor [] 4 (VRef 1) ∅
  = (Raise (AttributeError TInt "operands"), ∅, []).
Proof. vm_compute. reflexivity. Qed.

(** X15: a root without operands (a [Number], a [Symbol], an [Add()]) is
    visited at once: the visitor is invoked once, with no results, and what
    it returns or raises is what [postvisitor] returns or raises. *)
Theorem postvisitor_leaf {R St} (h : heap) (visitor : visitor_t R St)
    (kw : kwargs) (fuel : nat) (a : addr) (o : object) (s : St) :
  h !! a = Some o → ob_operands o = [] →
  postvisitor h visitor kw (S (S fuel)) (VRef a) s
  = match visitor (VRef a) [] kw s with
    | (inr r, s') => (Ok r, s', [Call a [] kw (inr r)])
    | (inl x, s') => (Raise x, s', [Call a [] kw (inl x)])
    end.
Proof.
  intros Ha Hops. unfold postvisitor.
  cbn [while stack]. unfold body at 1. cbn [stack visited vstate trace].
  rewrite Ha, Hops. simpl.
  destruct (visitor (VRef a) [] kw s) as [[x|r] s']; [done|].
  simpl. by rewrite lookup_insert_eq.
Qed.

Lemma postvisitor_leaf_witness :
  postvisitor (heap_of Add_a_b) count_visitor [] 2 (VRef 0) ∅
  = match count_visitor (VRef 0) [] [] ∅ with
    | (inr r, s') => (Ok r, s', [Call 0 [] [] (inr r)])
    | (inl x, s') => (Raise x, s', [Call 0 [] [] (inl x)])
    end.
Proof.
  apply (postvisitor_leaf (heap_of Add_a_b) count_visitor [] 0 0
           (Object Symbol [] (Some (VStr "a"))) ∅); reflexivity.
Defined.

(** ** The traversal with a pure visitor is a fold *)

Lemma fold_visitor_mono {R} (f : value → list R → kwargs → R) (kw : kwargs)
    (n m : nat) (h : heap) (v : value) (r : R) :
  fold_visitor f kw n h v = Some r → n ≤ m →
  fold_visitor f kw m h v = Some r.
Proof.
  revert m v r. induction n as [|n IH]; intros m v r Hn Hle.
  - by destruct v.
  - destruct v as [| | | | |a]; try done. destruct m as [|m]; [lia|].
    simpl in *. destruct (h !! a) as [o|]; simpl in *; [|done].
    destruct (mapM (fold_visitor f kw n h) (ob_operands o)) as [args|] eqn:E;
      simpl in *; [|done].
    apply mapM_Some in E. rewrite (mapM_Some_2 _ _ args); [done|].
    eapply Forall2_impl; [done|]. intros; apply IH; [done | lia].
Qed.

Lemma reachable_valid (h : heap) (a b : addr) :
  wf_heap h → a < length h → reachable h a b → b < length h.
Proof.
  intros Hwf Ha. induction 1 as [a | a o b' b Ho Hb _ IH]; [done|].
  apply IH. pose proof (wf_heap_operand _ _ _ _ Hwf Ho Hb) as Hw.
  simpl in Hw. apply Nat.ltb_lt in Hw. lia.
Qed.

Section PostvisitorFold.
Context {R St : Type}.
Variable h : heap.
Variable f : value → list R → kwargs → R.
Variable kw : kwargs.
Variable root : addr.
Hypothesis Hwf : wf_heap h.
Hypothesis Hroot : root < length h.
Hypothesis Hexpr : expression_only h root.

Local Abbreviation body := (body h (@pure_visitor R St f) kw).
Local Abbreviation while := (while h (@pure_visitor R St f) kw).
Local Abbreviation fold_inv := (@fold_inv R St f kw h root).

Lemma fold_of_visited (vis : gmap addr R) (ops : list value)
    (args : list R) :
  (∀ b r, vis !! b = Some r → ∃ n, fold_visitor f kw n h (VRef b) = Some r) →
  visited_all vis ops = inr args →
  ∃ n, mapM (fold_visitor f kw n h) ops = Some args.
Proof.
  intros Hvis Hargs. apply visited_all_inr in Hargs.
  induction Hargs as [|op r ops args (b & -> & Hb) _ [m IH]];
    [by exists 0|].
  destruct (Hvis b r Hb) as [n Hn]. exists (n `max` m).
  apply mapM_Some. constructor.
  - eapply fold_visitor_mono; [done | lia].
  - apply mapM_Some in IH. eapply Forall2_impl; [done|].
    intros x y Hxy. eapply fold_visitor_mono; [exact Hxy | lia].
Qed.

(** Under the invariant an iteration neither raises nor gets stuck. *)
Lemma body_fold_inv (st : pv_state R St) :
  fold_inv st → stack st ≠ [] →
  ∃ st', body st = (Ok (), st') ∧ fold_inv st' ∧ vstate st' = vstate st.
Proof.
  intros [Hstack Hvis] Hne. destruct st as [stk vis s tr]. simpl in *.
  destruct stk as [|e stk]; [done|]. clear Hne.
  apply Forall_cons in Hstack as [(a & -> & Ha) Hstk].
  pose proof (reachable_valid h root a Hwf Hroot Ha) as Hlt.
  destruct (lookup_lt_is_Some_2 h a Hlt) as [o Ho].
  destruct (filter (λ c, not_in_visited vis c = true) (ob_operands o))
    as [|u us] eqn:Hf.
  - destruct (visited_all_ready vis (ob_operands o)) as [args Hargs].
    { apply filter_empty_iff in Hf. eapply Forall_impl; [done|].
      simpl. intros op Hop. by destruct (not_in_visited vis op). }
    rewrite (body_visit h _ kw (PvState (VRef a :: stk) vis s tr) a stk o
               args eq_refl Ho Hf Hargs).
    simpl. eexists. split; [done|]. split; [|done].
    split; [done|]. simpl. intros b r.
    destruct (decide (a = b)) as [<-|Hab].
    + rewrite lookup_insert_eq. intros [= <-].
      destruct (fold_of_visited vis _ _ Hvis Hargs) as [n Hn].
      exists (S n). cbn [fold_visitor].
      assert (h !! a = Some o) as -> by exact Ho. simpl. by rewrite Hn.
    + rewrite lookup_insert_ne by done. apply Hvis.
  - rewrite (body_push h _ kw (PvState (VRef a :: stk) vis s tr) a stk o
               u us eq_refl Ho Hf).
    eexists. split; [done|]. split; [|done]. split; [|done]. cbn [stack].
    apply Forall_app. split; [|constructor; [eauto|done]].
    apply Forall_rev. rewrite <- Hf. apply Forall_forall.
    intros v [_ Hv]%list_elem_of_filter.
    pose proof (Hexpr a o Ha Ho) as Hops. rewrite Forall_forall in Hops.
    destruct (Hops v Hv) as [d ->]. exists d. split; [done|].
    by eapply reachable_operand.
Qed.

Lemma while_fold_inv (fuel : nat) (st st' : pv_state R St)
    (out : result unit) :
  fold_inv st → while fuel st = (out, st') →
  (out = Diverge ∨ out = Ok ()) ∧ fold_inv st' ∧ vstate st' = vstate st
  ∧ (out = Ok () → stack st' = []).
Proof.
  revert st. induction fuel as [|fuel IH]; intros st Hinv Hw; simpl in Hw.
  - simplify_eq. split_and!; [by left|done..].
  - destruct (stack st) eqn:Hs.
    + simplify_eq. split_and!; [by right|done..].
    + destruct (body_fold_inv st Hinv) as (st1 & Hb & Hinv1 & Hs1);
        [by rewrite Hs|].
      rewrite Hb in Hw. destruct (IH st1 Hinv1 Hw) as (? & ? & ? & ?).
      split_and!; [done..|congruence|done].
Qed.

End PostvisitorFold.

(** X16: with a visitor that is a pure function [f], on an expression built
    by constructor calls and made of expressions, [postvisitor] returns the
    bottom-up fold of [f]: [f] applied to the root and the folds of its
    operands, whatever is shared between them; the visitor's state is as it
    was. *)
Theorem postvisitor_pure_fold {R St} (h : heap)
    (f : value → list R → kwargs → R) (kw : kwargs) (root : addr) (s : St) :
  wf_heap h → root < length h → expression_only h root →
  ∃ n, ∀ k, ∃ r m,
    (postvisitor h (pure_visitor f) kw (n + k) (VRef root) s).1 = (Ok r, s)
    ∧ fold_visitor f kw m h (VRef root) = Some r.
Proof.
  intros Hwf Hroot Hexpr.
  set (st0 := PvState [VRef root] ∅ s ([] : list (call R))).
  assert (fold_inv f kw h root st0) as Hinv0.
  { split; simpl; [|by intros b r; rewrite lookup_empty].
    constructor; [|done]. exists root. split; [done|constructor]. }
  destruct (run_node h (pure_visitor f) kw Hwf root Hroot st0 [] eq_refl)
    as [(n & st' & Hr & Hs & _ & _) | (n & x & st' & Hab)].
  - exists (n + 1). intros k.
    unfold postvisitor. fold st0.
    destruct (while h (pure_visitor f) kw (n + 1 + k) st0) as [out st1] eqn:Hw.
    pose proof Hw as Hw'.
    rewrite <- Nat.add_assoc, Hr in Hw'. simpl in Hw'. rewrite Hs in Hw'.
    simplify_eq.
    destruct (while_fold_inv h f kw root Hwf Hroot Hexpr _ _ _ _ Hinv0 Hw)
      as (_ & [_ Hvis] & Hst & _).
    destruct (while_inv_ok h (pure_visitor f) kw (root_inv kw root)
                (body_root_inv h (pure_visitor f) kw root)
                (n + 1 + k) st0 () st1)
      as [[[x Hbot] | (_ & args & r & pre & Htr & Hroot')] _];
      [left; by exists [] | done | rewrite Hs in Hbot; by destruct x |].
    simpl. rewrite Hroot'. simpl. exists r.
    destruct (Hvis root r Hroot') as [m Hm]. exists m. by rewrite Hst.
  - specialize (Hab 0).
    destruct (while_fold_inv h f kw root Hwf Hroot Hexpr _ _ _ _ Hinv0 Hab)
      as ([?|?] & _); done.
Qed.

Lemma all_expressions_only (h : heap) (root : addr) :
  all_expressions h = true → expression_only h root.
Proof.
  intros Hall b o _ Hb. unfold all_expressions in Hall.
  rewrite forallb_forall in Hall.
  pose proof (Hall o) as Ho. rewrite forallb_forall in Ho.
  apply Forall_forall. intros v Hv.
  assert (is_ref v = true) as Hr.
  { apply Ho; [|by apply list_elem_of_In].
    apply list_elem_of_In, list_elem_of_lookup. eauto. }
  destruct v; try done. eauto.
Qed.

Lemma postvisitor_pure_fold_witness :
  ∃ n, ∀ k, ∃ r m,
    (postvisitor (heap_of Mul_x_x) (pure_visitor size_of) []
                 (n + k) (VRef 1) ()).1 = (Ok r, ())
    ∧ fold_visitor size_of [] m (heap_of Mul_x_x) (VRef 1) = Some r.
Proof.
  apply (postvisitor_pure_fold (heap_of Mul_x_x) size_of [] 1 ()).
  - reflexivity.
  - vm_compute. lia.
  - apply all_expressions_only. reflexivity.
Defined.

(** On [Mul(x, x)] the size visitor gives 3, the size of the tree: the
    second visit of the shared [x] changes nothing for a pure visitor. *)
Example postvisitor_size_Mul_x_x :
  (postvisitor (heap_of Mul_x_x) (pure_visitor size_of) [] 5 (VRef 1) ()).1
  = (Ok 3, ())
  ∧ fold_visitor size_of [] 2 (heap_of Mul_x_x) (VRef 1) = Some 3.
Proof. split; vm_compute; reflexivity. Qed.

(** ** The traversal of an expression without sharing *)

Lemma occurrences_enough (h : heap) (n m : nat) (a : addr) :
  wf_heap h → a < n → a < m →
  occurrences n h (VRef a) = occurrences m h (VRef a).
Proof.
  intros Hwf. revert m a. induction n as [|n IH]; intros m a Hn Hm; [lia|].
  destruct m as [|m]; [lia|]. simpl. f_equal.
  destruct (h !! a) as [o|] eqn:Ha; [|done]. f_equal.
  apply map_ext_in. intros v Hv%list_elem_of_In.
  pose proof (wf_heap_operand _ _ _ _ Hwf Ha Hv) as Hw.
  destruct v as [| | | | |b]; [by destruct n, m..|].
  simpl in Hw. apply Nat.ltb_lt in Hw. apply IH; lia.
Qed.

Lemma nodes_below_unfold (h : heap) (a : addr) (o : object) :
  wf_heap h → h !! a = Some o →
  nodes_below h (VRef a)
  = a :: concat (map (nodes_below h) (ob_operands o)).
Proof.
  intros Hwf Ha. pose proof (lookup_lt_Some _ _ _ Ha) as Hlt.
  transitivity
    (a :: concat (map (occurrences (pred (length h)) h) (ob_operands o))).
  - unfold nodes_below. destruct (length h) as [|n]; [lia|].
    simpl. by rewrite Ha.
  - f_equal. f_equal. apply map_ext_in. intros v Hv%list_elem_of_In.
    pose proof (wf_heap_operand _ _ _ _ Hwf Ha Hv) as Hw.
    unfold nodes_below.
    destruct v as [| | | | |b].
    1-5: by destruct (length h) as [|[|?]].
    simpl in Hw. apply Nat.ltb_lt in Hw.
    apply occurrences_enough; [done|lia..].
Qed.

Lemma concat_map_rev {A B} (g : A → list B) (l : list A) :
  concat (map g (rev l)) ≡ₚ concat (map g l).
Proof.
  induction l as [|x l IH]; [done|]. simpl.
  rewrite map_app, concat_app. simpl. rewrite app_nil_r, IH.
  apply Permutation_app_comm.
Qed.

Lemma while_more_fuel {R St} (h : heap) (visitor : visitor_t R St)
    (kw : kwargs) (fuel j : nat) (st st' : pv_state R St) (u : unit) :
  while h visitor kw fuel st = (Ok u, st') →
  while h visitor kw (fuel + j) st = (Ok u, st').
Proof.
  revert st. induction fuel as [|fuel IH]; intros st Hw; [done|].
  simpl in *. destruct (stack st); [done|].
  destruct (body h visitor kw st) as [[[]| | |] st1]; try done. by apply IH.
Qed.

Section PostvisitorOnce.
Context {R St : Type}.
Variable h : heap.
Variable visitor : visitor_t R St.
Variable kw : kwargs.
Hypothesis Hwf : wf_heap h.

Local Abbreviation reaches := (reaches h visitor kw).
Local Abbreviation aborts := (aborts h visitor kw).
Local Abbreviation visits_once := (visits_once h visitor kw).

Lemma visit_step_once (a : addr) (o : object) (rest : list value)
    (st : pv_state R St) :
  h !! a = Some o → stack st = VRef a :: rest →
  Forall (λ op, not_in_visited (visited st) op = false) (ob_operands o) →
  (∃ st' c, reaches 1 st st' ∧ stack st' = rest
            ∧ trace st' = c :: trace st ∧ call_node c = a
            ∧ ∀ b, is_Some (visited st' !! b)
                   ↔ is_Some (visited st !! b) ∨ b = a)
  ∨ aborts 1 st.
Proof.
  intros Ha Hs Hops.
  destruct (visited_all_ready _ _ Hops) as [args Hargs].
  assert (filter (λ c, not_in_visited (visited st) c = true)
                 (ob_operands o) = []) as Hf.
  { apply filter_empty_iff. eapply Forall_impl; [done|].
    simpl. intros op ->. done. }
  destruct (visitor (VRef a) args kw (vstate st)) as [res s'] eqn:Hcall.
  assert (stack st ≠ []) as Hne by by rewrite Hs.
  destruct res as [x|r0].
  - right. eapply step_aborts; [done|].
    rewrite (body_visit _ _ _ _ _ _ _ _ Hs Ha Hf Hargs), Hcall. done.
  - left. do 2 eexists. split_and!.
    + eapply step_reaches; [done|].
      rewrite (body_visit _ _ _ _ _ _ _ _ Hs Ha Hf Hargs), Hcall. done.
    + done.
    + done.
    + done.
    + intros b. simpl. destruct (decide (a = b)) as [->|Hne'].
      * rewrite lookup_insert_eq. split; [by right|eauto].
      * rewrite lookup_insert_ne by done. split; [by left|].
        by intros [?|?].
Qed.

Lemma run_once_list (a : addr) :
  (∀ b, b < a → b < length h → ∀ st rest,
      stack st = VRef b :: rest →
      (∀ c, c ∈ nodes_below h (VRef b) → visited st !! c = None) →
      NoDup (nodes_below h (VRef b)) →
      visits_once [VRef b] rest st) →
  a < length h →
  ∀ vs st rest,
    Forall (λ v, wf_operand a v = true) vs →
    stack st = vs ++ rest →
    (∀ c, c ∈ concat (map (nodes_below h) vs) → visited st !! c = None) →
    NoDup (concat (map (nodes_below h) vs)) →
    visits_once vs rest st.
Proof.
  intros IH Ha vs. induction vs as [|v vs IHvs];
    intros st rest Hvs Hs Hunv Hnd.
  - left. exists 0, st, []. split_and!;
      [apply reaches_refl | done | done | done | constructor |].
    intros b. simpl. split; [by left|]. intros [?|Hb]; [done|].
    by apply elem_of_nil in Hb.
  - apply Forall_cons in Hvs as [Hv Hvs].
    destruct v as [| | | | |b].
    1-5: right; exists 1; eapply step_aborts; [by rewrite Hs|];
      unfold body; rewrite Hs; reflexivity.
    simpl in Hv. apply Nat.ltb_lt in Hv.
    simpl in Hnd, Hunv. apply NoDup_app in Hnd as (Hnd1 & Hdisj & Hnd2).
    destruct (IH b Hv ltac:(lia) st (vs ++ rest) Hs)
      as [(n & st1 & new1 & Hr1 & Hs1 & Htr1 & Hp1 & Hb1 & Hvis1)
         | [n Hab]]; [..|right; eauto].
    { intros c Hc. apply Hunv, elem_of_app. by left. }
    { done. }
    simpl in Hp1, Hvis1. rewrite app_nil_r in Hp1.
    destruct (IHvs st1 rest Hvs Hs1)
      as [(m & st2 & new2 & Hr2 & Hs2 & Htr2 & Hp2 & Hvs2 & Hvis2)
         | [m Hab]].
    { intros c Hc. apply eq_None_not_Some. intros Hsome.
      apply Hvis1 in Hsome as [Hsome | Hin].
      - rewrite Hunv in Hsome; [by destruct Hsome|].
        apply elem_of_app. by right.
      - rewrite app_nil_r in Hin. by apply (Hdisj c). }
    { done. }
    + left. exists (n + m), st2, (new2 ++ new1). split_and!.
      * by eapply reaches_trans.
      * done.
      * by rewrite Htr2, Htr1, app_assoc.
      * rewrite map_app, Hp1, Hp2. simpl. apply Permutation_app_comm.
      * constructor; [|done]. apply not_in_visited_false.
        eexists. split; [done|]. apply Hvis2. left.
        by apply Forall_cons in Hb1 as [(? & [= <-] & ?)%not_in_visited_false _].
      * intros c. rewrite Hvis2, Hvis1. simpl.
        rewrite app_nil_r, elem_of_app. tauto.
    + right. exists (n + m). by eapply reaches_aborts.
Qed.

Lemma run_once_node (a : addr) :
  a < length h → ∀ st rest,
    stack st = VRef a :: rest →
    (∀ c, c ∈ nodes_below h (VRef a) → visited st !! c = None) →
    NoDup (nodes_below h (VRef a)) →
    visits_once [VRef a] rest st.
Proof.
  induction (lt_wf a) as [a _ IH]. intros Ha st rest Hs Hunv Hnd.
  destruct (lookup_lt_is_Some_2 h a Ha) as [o Ho].
  rewrite (nodes_below_unfold h a o Hwf Ho) in Hunv, Hnd.
  apply NoDup_cons in Hnd as [Hfresh Hnd].
  assert (∀ st2 n new,
             reaches n st st2 → stack st2 = VRef a :: rest →
             trace st2 = new ++ trace st →
             map call_node new
             ≡ₚ concat (map (nodes_below h) (ob_operands o)) →
             Forall (λ op, not_in_visited (visited st2) op = false)
                    (ob_operands o) →
             (∀ b, is_Some (visited st2 !! b)
                   ↔ is_Some (visited st !! b)
                     ∨ b ∈ concat (map (nodes_below h) (ob_operands o))) →
             visits_once [VRef a] rest st) as Hvisit.
  { intros st2 n new Hr2 Hs2 Htr2 Hp2 Hops2 Hvis2.
    destruct (visit_step_once a o rest st2 Ho Hs2 Hops2)
      as [(st3 & c & Hr3 & Hs3 & Htr3 & Hc3 & Hvis3) | Hab].
    - left. exists (n + 1), st3, (c :: new). split_and!.
      + by eapply reaches_trans.
      + done.
      + by rewrite Htr3, Htr2.
      + simpl. rewrite app_nil_r, (nodes_below_unfold h a o Hwf Ho), Hc3.
        by constructor.
      + constructor; [|done]. apply not_in_visited_false.
        eexists. split; [done|]. apply Hvis3. by right.
      + intros b. rewrite Hvis3, Hvis2. simpl.
        rewrite app_nil_r, (nodes_below_unfold h a o Hwf Ho), elem_of_cons.
        tauto.
    - right. exists (n + 1). by eapply reaches_aborts. }
  destruct (ob_operands o) as [|u us] eqn:Hops.
  - apply (Hvisit st 0 []); [apply reaches_refl|done|done|done|constructor|].
    intros b. simpl. split; [by left|]. intros [?|Hb]; [done|].
    by apply elem_of_nil in Hb.
  - assert (filter (λ c, not_in_visited (visited st) c = true)
                   (ob_operands o) = u :: us) as Hf.
    { rewrite Hops.
      assert (∀ l : list value,
                 (∀ v, v ∈ l → not_in_visited (visited st) v = true) →
                 filter (λ c, not_in_visited (visited st) c = true) l = l)
        as Hall.
      { induction l as [|x l IHl]; intros Hl; [done|].
        rewrite filter_cons_True by (apply Hl; by left).
        f_equal. apply IHl. intros; apply Hl. by right. }
      apply Hall. intros v Hv. destruct v as [| | | | |b]; try done.
      simpl. apply bool_decide_eq_true. apply Hunv. right.
      apply list_elem_of_In, in_concat.
      exists (nodes_below h (VRef b)). split.
      - apply in_map_iff. exists (VRef b). split; [done|].
        by apply list_elem_of_In.
      - apply list_elem_of_In.
        assert (b < a) as Hb.
        { assert (VRef b ∈ ob_operands o) as Hin by by rewrite Hops.
          pose proof (wf_heap_operand _ _ _ _ Hwf Ho Hin) as Hw.
          simpl in Hw. by apply Nat.ltb_lt in Hw. }
        destruct (lookup_lt_is_Some_2 h b ltac:(lia)) as [ob Hob].
        rewrite (nodes_below_unfold h b ob Hwf Hob). by left. }
    set (st1 := PvState (rev (u :: us) ++ VRef a :: rest)
                        (visited st) (vstate st) (trace st)).
    assert (reaches 1 st st1) as Hr1.
    { eapply step_reaches; [by rewrite Hs|]. by eapply body_push. }
    destruct (run_once_list a (λ b Hb, IH b Hb) Ha (rev (u :: us)) st1
                (VRef a :: rest))
      as [(n & st2 & new & Hr2 & Hs2 & Htr2 & Hp2 & Hvs2 & Hvis2)
         | [n Hab]].
    + apply Forall_rev, Forall_forall. intros v Hv.
      eapply wf_heap_operand; [done..|]. by rewrite Hops.
    + done.
    + intros c Hc. apply Hunv. right.
      by rewrite <- (concat_map_rev (nodes_below h) (u :: us)).
    + by rewrite (concat_map_rev (nodes_below h) (u :: us)).
    + apply (Hvisit st2 (1 + n) new).
      * by eapply reaches_trans.
      * done.
      * done.
      * by rewrite Hp2, concat_map_rev.
      * apply Forall_forall. intros op Hop.
        rewrite Forall_forall in Hvs2. apply Hvs2.
        apply list_elem_of_In. rewrite <- in_rev. by apply list_elem_of_In.
      * intros b. rewrite Hvis2. simpl.
        by rewrite (concat_map_rev (nodes_below h) (u :: us)).
    + right. exists (1 + n). by eapply reaches_aborts.
Qed.

End PostvisitorOnce.

(** X17: without sharing the traversal is exact.  In a heap built by
    constructor calls, when no node below the root is reached by two paths
    and [postvisitor] returns, the visitor has been invoked exactly once on
    every node below the root, and on nothing else. *)
Theorem postvisitor_once_without_sharing {R St} (h : heap)
    (visitor : visitor_t R St) (kw : kwargs) (fuel : nat) (root : addr)
    (s : St) (r : R) :
  wf_heap h → root < length h → tree_shaped h root →
  (postvisitor h visitor kw fuel (VRef root) s).1.1 = Ok r →
  map call_node (postvisitor h visitor kw fuel (VRef root) s).2
  ≡ₚ nodes_below h (VRef root).
Proof.
  intros Hwf Hroot Htree.
  set (st0 := PvState [VRef root] ∅ s ([] : list (call R))).
  unfold postvisitor. fold st0.
  destruct (while h visitor kw fuel st0) as [out st1] eqn:Hw.
  destruct out as [[]|x| |]; simpl; try done.
  intros _.
  assert (map call_node (trace st1) ≡ₚ nodes_below h (VRef root)) as Hperm.
  { destruct (run_once_node h visitor kw Hwf root Hroot st0 [] eq_refl)
      as [(n & st' & new & Hr & Hs & Htr & Hp & _ & _) | (n & x & st' & Hab)].
    - intros c _. apply lookup_empty.
    - done.
    - pose proof (while_more_fuel h visitor kw fuel (n + 1) _ _ _ Hw) as Hw1.
      replace (fuel + (n + 1)) with (n + (S fuel)) in Hw1 by lia.
      rewrite Hr in Hw1. simpl in Hw1. rewrite Hs in Hw1. simplify_eq.
      rewrite Htr. simpl in *. by rewrite !app_nil_r in *.
    - pose proof (while_more_fuel h visitor kw fuel n _ _ _ Hw) as Hw1.
      replace (fuel + n) with (n + fuel) in Hw1 by lia.
      by rewrite Hab in Hw1. }
  by destruct (visited st1 !! root).
Qed.

Lemma postvisitor_once_without_sharing_witness :
  let h := heap_of Add_a_b in
  map call_node (postvisitor h (names_visitor h) [] 5 (VRef 2) ()).2
  ≡ₚ nodes_below h (VRef 2).
Proof.
  apply (postvisitor_once_without_sharing (heap_of Add_a_b)
           (names_visitor (heap_of Add_a_b)) [] 5 2 () ["a"; "b"]).
  - reflexivity.
  - vm_compute. lia.
  - apply (bool_decide_unpack _). vm_compute. exact I.
  - reflexivity.
Defined.

(** ** The operator methods *)

Lemma as_expression_expression (h : heap) (other : value) :
  isinstance h other Expression = true →
  as_expression other h = (Ok other, h).
Proof.
  intros Hi. unfold as_expression. rewrite bind_check_instance. by rewrite Hi.
Qed.

Lemma as_expression_number (h : heap) (other : value) :
  isinstance h other Expression = false →
  isinstance_numbers_Number other = true →
  as_expression other h
  = (Ok (VRef (length h)), h ++ [Object Number [] (Some other)]).
Proof.
  intros Hi Hn. unfold as_expression. rewrite bind_check_instance, Hi.
  simpl. by apply new_Number_ok.
Qed.

Lemma as_expression_other (h : heap) (other : value) :
  isinstance h other Expression = false →
  isinstance_numbers_Number other = false →
  as_expression other h
  = (Raise (ValueError "Number must be a numeric value."), h).
Proof.
  intros Hi Hn. unfold as_expression. rewrite bind_check_instance, Hi.
  simpl. by apply new_Number_error.
Qed.

Lemma isinstance_Expression (h : heap) (v : value) :
  isinstance h v Expression = true ↔ ∃ a o, v = VRef a ∧ h !! a = Some o.
Proof.
  unfold isinstance, type_of. split.
  - destruct v as [| | | | |a]; try done.
    destruct (h !! a) as [o|] eqn:Ha; [|done]. intros _. by exists a, o.
  - intros (a & o & -> & Ha). rewrite Ha. simpl. by destruct (ob_class o).
Qed.

Lemma isinstance_prefix (h h' : heap) (v : value) (c : cls) :
  h `prefix_of` h' → isinstance h v c = true → isinstance h' v c = true.
Proof.
  intros [ext ->]. unfold isinstance, type_of.
  destruct v as [| | | | |a]; try done.
  destruct (h !! a) as [o|] eqn:Ha; [|done].
  by rewrite (lookup_app_l_Some _ _ _ _ Ha).
Qed.

Lemma isinstance_valid (h : heap) (v : value) :
  isinstance h v Expression = true → valid h v = true.
Proof.
  intros (a & o & -> & Ha)%isinstance_Expression.
  apply Nat.ltb_lt. by eapply lookup_lt_Some.
Qed.

(** What every operator method does with its operands: [other] as an
    expression, then a node of the method's class over the two, [self]
    first unless the method is the reflected one of [-], [/] or [**]. *)
Lemma call_method_unfold (m : method) (self other : value) :
  call_method m self other
  = (o <- as_expression other ;;
     new (method_class m)
         (match m with
          | m_rsub | m_rtruediv | m_rpow => [o; self]
          | _ => [self; o]
          end)).
Proof. by destruct m. Qed.

Lemma method_class_binary (m : method) : binary_operator (method_class m) = true.
Proof. by destruct m. Qed.

(** X18: An operator method called on an expression either returns a new
    node of its class with exactly two operands, both expressions and one
    of them [self], leaving the objects that existed untouched and the heap
    well formed; or it raises the [ValueError] of [Number], allocating
    nothing. It returns exactly when [other] is an expression or a number. *)
Theorem operator_method_builds_binary_node (m : method) (h : heap)
    (self other : value) :
  wf_heap h → isinstance h self Expression = true →
  match call_method m self other h with
  | (Ok r, h') =>
      (isinstance h other Expression = true
       ∨ isinstance_numbers_Number other = true)
      ∧ wf_heap h' ∧ h `prefix_of` h'
      ∧ ∃ a l r', r = VRef a ∧ length h ≤ a
          ∧ h' !! a = Some (Object (method_class m) [l; r'] None)
          ∧ isinstance h' l Expression = true
          ∧ isinstance h' r' Expression = true
          ∧ self ∈ [l; r']
  | (Raise e, h') =>
      e = ValueError "Number must be a numeric value." ∧ h' = h
      ∧ isinstance h other Expression = false
      ∧ isinstance_numbers_Number other = false
  | _ => False
  end.
Proof.
  intros Hwf Hself. rewrite call_method_unfold.
  destruct (isinstance h other Expression) eqn:Hio.
  - rewrite (bind_ok _ _ _ _ _ (as_expression_expression _ _ Hio)).
    rewrite (new_operator _ _ _ (method_class_binary m)).
    assert (h `prefix_of` h ++ [Object (method_class m)
              match m with
              | m_rsub | m_rtruediv | m_rpow => [other; self]
              | _ => [self; other]
              end None]) as Hpre by by eexists.
    pose proof (isinstance_valid _ _ Hself) as Hvs.
    pose proof (isinstance_valid _ _ Hio) as Hvo.
    pose proof (isinstance_prefix _ _ _ _ Hpre Hself) as Hs'.
    pose proof (isinstance_prefix _ _ _ _ Hpre Hio) as Ho'.
    split_and!; [by left| |done|].
    + apply wf_heap_snoc; [done|]. unfold wf_object, valid in *.
      destruct m; cbn [ob_operands forallb]; by rewrite Hvs, Hvo.
    + destruct m;
        (eexists (length h), _, _; split_and!;
         [done|done|by rewrite lookup_new|done|done|set_solver]).
  - destruct (isinstance_numbers_Number other) eqn:Hn.
    + rewrite (bind_ok _ _ _ _ _ (as_expression_number _ _ Hio Hn)).
      rewrite (new_operator _ _ _ (method_class_binary m)).
      set (h1 := h ++ [Object Number [] (Some other)]).
      assert (h `prefix_of` h1) as Hpre1 by by eexists.
      assert (wf_heap h1) as Hwf1 by by apply wf_heap_snoc.
      assert (isinstance h1 (VRef (length h)) Expression = true) as Hnum.
      { apply isinstance_Expression. eexists _, _. split; [done|].
        unfold h1. by rewrite lookup_new. }
      pose proof (isinstance_prefix _ _ _ _ Hpre1 Hself) as Hs1.
      pose proof (isinstance_valid _ _ Hs1) as Hvs.
      pose proof (isinstance_valid _ _ Hnum) as Hvo.
      match goal with
      | |- context [h1 ++ [?o]] =>
          assert (h1 `prefix_of` h1 ++ [o]) as Hpre2 by by eexists
      end.
      pose proof (isinstance_prefix _ _ _ _ Hpre2 Hs1) as Hs2.
      pose proof (isinstance_prefix _ _ _ _ Hpre2 Hnum) as Hn2.
      split_and!; [by right| |by etrans|].
      * apply wf_heap_snoc; [done|]. unfold wf_object, valid in *.
        destruct m; cbn [ob_operands forallb]; by rewrite Hvs, Hvo.
      * assert (length h ≤ length h1) as Hle.
        { unfold h1. rewrite length_app. lia. }
        destruct m;
          (eexists (length h1), _, _; split_and!;
           [done|done|by rewrite lookup_new|done|done|set_solver]).
    + by rewrite (bind_raise _ _ _ _ _ (as_expression_other _ _ Hio Hn)).
Qed.

Lemma operator_method_builds_binary_node_witness :
  match call_method m_pow (VRef 0) (VInt 2) (heap_of Symbol_x) with
  | (Ok r, h') =>
      (isinstance (heap_of Symbol_x) (VInt 2) Expression = true
       ∨ isinstance_numbers_Number (VInt 2) = true)
      ∧ wf_heap h' ∧ heap_of Symbol_x `prefix_of` h'
      ∧ ∃ a l r', r = VRef a ∧ length (heap_of Symbol_x) ≤ a
          ∧ h' !! a = Some (Object (method_class m_pow) [l; r'] None)
          ∧ isinstance h' l Expression = true
          ∧ isinstance h' r' Expression = true
          ∧ VRef 0 ∈ [l; r']
  | (Raise e, h') =>
      e = ValueError "Number must be a numeric value."
      ∧ h' = heap_of Symbol_x
      ∧ isinstance (heap_of Symbol_x) (VInt 2) Expression = false
      ∧ isinstance_numbers_Number (VInt 2) = false
  | _ => False
  end.
Proof.
  apply (operator_method_builds_binary_node m_pow (heap_of Symbol_x)
           (VRef 0) (VInt 2)).
  - reflexivity.
  - reflexivity.
Defined.

(** X19: The node an operator method builds holds [self] and [other] (as
    an expression) in the order of the source text of the operation,
    except for the reflected [+] and [*]: [1 + x] builds
    [Add(x, Number(1))] and [2 * x] builds [Mul(x, Number(2))], [self]
    first, while [1 - x], [1 / x] and [2 ** x] keep the number first. *)
Theorem operator_method_operands (m : method) (h h' : heap)
    (self other o : value) :
  as_expression other h = (Ok o, h') →
  call_method m self other h
  = (Ok (VRef (length h')),
     h' ++ [Object (method_class m)
              (if bool_decide (m = m_radd ∨ m = m_rmul)
               then rev (as_written m self o)
               else as_written m self o) None]).
Proof.
  intros Ho. rewrite call_method_unfold, (bind_ok _ _ _ _ _ Ho).
  rewrite (new_operator _ _ _ (method_class_binary m)).
  by destruct m.
Qed.

Lemma operator_method_operands_witness :
  call_method m_radd (VRef 0) (VInt 1) (heap_of Symbol_x)
  = (Ok (VRef 2),
     [Object Symbol [] (Some (VStr "x"));
      Object Number [] (Some (VInt 1));
      Object Add [VRef 0; VRef 1] None]).
Proof.
  apply (operator_method_operands m_radd (heap_of Symbol_x)
           (heap_of Symbol_x ++ [Object Number [] (Some (VInt 1))])
           (VRef 0) (VInt 1) (VRef 1)).
  reflexivity.
Defined.

(** ** Printing *)

Lemma string_app_assoc (s1 s2 s3 : string) :
  (s1 +:+ s2) +:+ s3 = s1 +:+ (s2 +:+ s3).
Proof.
  induction s1 as [|c s1 IH]; [done|].
  change (String c ((s1 +:+ s2) +:+ s3) = String c (s1 +:+ (s2 +:+ s3))).
  by rewrite IH.
Qed.

Lemma bracket_improves (f g : value → str_result) (h : heap)
    (operand : value) (p : nat) :
  improves f g → bracket f h operand p ≠ StrDiverge →
  bracket g h operand p = bracket f h operand p.
Proof.
  intros Hfg. unfold bracket.
  destruct (isinstance h operand Operator && (operand_precedence h operand <? p));
    intros Hd; [|by apply Hfg].
  rewrite Hfg; [done|]. intros Hf. by rewrite Hf in Hd.
Qed.

Lemma Operator__str__improves (f g : value → str_result) (h : heap)
    (self : object) :
  improves f g → Operator__str__ f h self ≠ StrDiverge →
  Operator__str__ g h self = Operator__str__ f h self.
Proof.
  intros Hfg. unfold Operator__str__.
  destruct (ob_operands self !! 0) as [operand0|]; [|done].
  intros Hd. rewrite (bracket_improves f g); [|done|].
  2:{ intros Hb. by rewrite Hb in Hd. }
  destruct (bracket f h operand0 _) as [first| | | |]; try done.
  cbn [str_bind] in *.
  destruct (ob_operands self !! 1) as [operand1|]; [|done].
  rewrite (bracket_improves f g); [done|done|].
  intros Hb. by rewrite Hb in Hd.
Qed.

Lemma str_S_improves float_str object_str (fuel : nat) (h : heap) :
  improves (str float_str object_str fuel h)
           (str float_str object_str (S fuel) h).
Proof.
  induction fuel as [|fuel IH]; intros v Hd.
  - by destruct v.
  - destruct v as [| | | | |a]; try done.
    cbn [str] in Hd. change (str float_str object_str (S (S fuel)) h (VRef a))
      with (match h !! a with
            | None => StrDangling
            | Some self =>
                if issubclass (ob_class self) Operator
                then Operator__str__ (str float_str object_str (S fuel) h) h self
                else if issubclass (ob_class self) Terminal
                then Terminal__str__ (str float_str object_str (S fuel) h) self
                else Str (object_str a (ob_class self))
            end).
    cbn [str]. destruct (h !! a) as [self|]; [|done].
    destruct (issubclass (ob_class self) Operator).
    { by apply Operator__str__improves. }
    destruct (issubclass (ob_class self) Terminal); [|done].
    unfold Terminal__str__ in *. destruct (ob_value self); [|done].
    by apply IH.
Qed.

Lemma str_ref float_str object_str (fuel : nat) (h : heap) (a : addr)
    (self : object) :
  h !! a = Some self →
  str float_str object_str (S fuel) h (VRef a)
  = if issubclass (ob_class self) Operator
    then Operator__str__ (str float_str object_str fuel h) h self
    else if issubclass (ob_class self) Terminal
    then Terminal__str__ (str float_str object_str fuel h) self
    else Str (object_str a (ob_class self)).
Proof. intros Ha. cbn [str]. by rewrite Ha. Qed.

Lemma bracket_answers (f : value → str_result) (h : heap) (operand : value)
    (p : nat) :
  f operand ≠ StrDiverge → bracket f h operand p ≠ StrDiverge.
Proof.
  unfold bracket. intros Hf.
  destruct (isinstance h operand Operator && _); [|done].
  by destruct (f operand).
Qed.

(** An operand of the precedence of its parent gets no brackets. *)
Lemma bracket_same_precedence (f : value → str_result) (h : heap) (a : addr)
    (o : object) (c : cls) :
  h !! a = Some o → precedence c = precedence (ob_class o) →
  bracket f h (VRef a) (default 0 (precedence c)) = f (VRef a).
Proof.
  intros Ha Hp. unfold bracket, operand_precedence, type_of.
  rewrite Ha, Hp. cbn [fmap option_fmap option_map].
  by rewrite Nat.ltb_irrefl, andb_false_r.
Qed.

(** X20: Printing loses the grouping of operators of one precedence: a
    right operand of the precedence of its parent is printed without
    brackets, so [Op1(x, Op2(y, z))] and [Op2(Op1(x, y), z)] print the same
    text (or fail the same way) for all operands: [Sub(a, Sub(b, c))] and
    [Sub(Sub(a, b), c)] both print [a - b - c], [Sub(a, Add(b, c))] prints
    as [Add(Sub(a, b), c)] does. *)
Theorem str_forgets_grouping float_str object_str (fuel : nat) (h : heap)
    (c1 c2 : cls) (x y z : value) (o1 i1 o2 i2 : addr) :
  issubclass c1 Operator = true → issubclass c2 Operator = true →
  precedence c1 = precedence c2 →
  h !! o1 = Some (Object c1 [x; VRef i1] None) →
  h !! i1 = Some (Object c2 [y; z] None) →
  h !! o2 = Some (Object c2 [VRef i2; z] None) →
  h !! i2 = Some (Object c1 [x; y] None) →
  str float_str object_str fuel h x ≠ StrDiverge →
  str float_str object_str fuel h y ≠ StrDiverge →
  str float_str object_str fuel h z ≠ StrDiverge →
  str float_str object_str (S (S fuel)) h (VRef o1)
  = str float_str object_str (S (S fuel)) h (VRef o2)
  ∧ str float_str object_str (S (S fuel)) h (VRef o1) ≠ StrDiverge.
Proof.
  intros Hc1 Hc2 Hp Ho1 Hi1 Ho2 Hi2 Hx Hy Hz.
  pose proof (str_S_improves float_str object_str fuel h) as Himp.
  set (f := str float_str object_str fuel h) in *.
  set (p := default 0 (precedence c1)).
  assert (default 0 (precedence c2) = p) as Hp2 by by rewrite <- Hp.
  rewrite (str_ref _ _ _ _ _ _ Ho1), (str_ref _ _ _ _ _ _ Ho2).
  cbn [ob_class]. rewrite Hc1, Hc2. unfold Operator__str__.
  cbn [ob_class ob_operands lookup list_lookup]. fold p. rewrite Hp2.
  rewrite (bracket_same_precedence _ _ _ _ c1 Hi1) by done.
  rewrite <- Hp2 at 2.
  rewrite (bracket_same_precedence _ _ _ _ c2 Hi2) by done.
  rewrite (str_ref _ _ _ _ _ _ Hi1), (str_ref _ _ _ _ _ _ Hi2).
  cbn [ob_class]. rewrite Hc1, Hc2. unfold Operator__str__.
  cbn [ob_class ob_operands lookup list_lookup]. fold p f. rewrite Hp2.
  rewrite !(bracket_improves f _ _ _ _ Himp) by by apply bracket_answers.
  pose proof (bracket_answers f h x p Hx) as Hbx.
  pose proof (bracket_answers f h y p Hy) as Hby.
  pose proof (bracket_answers f h z p Hz) as Hbz.
  destruct (bracket f h x p) as [sx| | | |]; try done.
  destruct (bracket f h y p) as [sy| | | |]; try done.
  destruct (bracket f h z p) as [sz| | | |]; try done.
  cbn [str_bind]. split; [|done]. f_equal.
  by rewrite !string_app_assoc.
Qed.

Lemma str_forgets_grouping_witness :
  str (λ _, "") (λ _ _, "") 3 (heap_of Sub_a_Add_b_c_and_Add_Sub_a_b_c)
      (VRef 4)
  = str (λ _, "") (λ _ _, "") 3 (heap_of Sub_a_Add_b_c_and_Add_Sub_a_b_c)
        (VRef 6)
  ∧ str (λ _, "") (λ _ _, "") 3 (heap_of Sub_a_Add_b_c_and_Add_Sub_a_b_c)
        (VRef 4) ≠ StrDiverge.
Proof.
  apply (str_forgets_grouping (λ _, "") (λ _ _, "") 1
           (heap_of Sub_a_Add_b_c_and_Add_Sub_a_b_c) Sub Add
           (VRef 0) (VRef 1) (VRef 2) 4 3 6 5).
  - reflexivity.
  - reflexivity.
  - reflexivity.
  - reflexivity.
  - reflexivity.
  - reflexivity.
  - reflexivity.
  - vm_compute. discriminate.
  - vm_compute. discriminate.
  - vm_compute. discriminate.
Defined.

(** [str(Sub(a, Add(b, c)))] is ["a - b + c"], the text of
    [Add(Sub(a, b), c)]. *)
Example str_Sub_a_Add_b_c float_str object_str :
  str float_str object_str 3 (heap_of Sub_a_Add_b_c_and_Add_Sub_a_b_c)
      (VRef 4)
  = Str "a - b + c".
Proof. reflexivity. Qed.

(** X21: Printing an operator node of fewer than two operands never
    returns a text: it raises [IndexError], after printing the first
    operand if there is one, whose failure it passes on. The constructors
    accept such nodes. *)
Theorem str_needs_two_operands float_str object_str (fuel : nat) (h : heap)
    (a : addr) (o : object) :
  h !! a = Some o → issubclass (ob_class o) Operator = true →
  length (ob_operands o) < 2 →
  str float_str object_str (S fuel) h (VRef a)
  = match ob_operands o with
    | [] => StrIndexError
    | x :: _ =>
        match str float_str object_str fuel h x with
        | Str _ => StrIndexError
        | failure => failure
        end
    end.
Proof.
  intros Ha Hc Hlen. rewrite (str_ref _ _ _ _ _ _ Ha), Hc.
  unfold Operator__str__.
  destruct (ob_operands o) as [|x [|y rest]]; [done| |simpl in Hlen; lia].
  cbn [lookup list_lookup]. unfold bracket.
  destruct (isinstance h x Operator && _);
    by destruct (str float_str object_str fuel h x).
Qed.

Lemma str_needs_two_operands_witness :
  str (λ _, "") (λ _ _, "") 3 (heap_of Mul_Add_a_2) (VRef 2)
  = StrIndexError.
Proof.
  apply (str_needs_two_operands (λ _, "") (λ _ _, "") 2
           (heap_of Mul_Add_a_2) 2 (Object Mul [VRef 1] None)).
  - reflexivity.
  - reflexivity.
  - simpl. lia.
Defined.

Lemma wf_operand_le (a b : addr) (v : value) :
  a ≤ b → wf_operand a v = true → wf_operand b v = true.
Proof.
  intros Hab. destruct v as [| | | | |c]; try done. simpl.
  rewrite !Nat.ltb_lt. lia.
Qed.

Lemma printable_from_lookup (k i : nat) (h : heap) (o : object) :
  printable_from k h = true → h !! i = Some o →
  printable_object (k + i) o = true.
Proof.
  revert k i. induction h as [|o' h IH]; intros k i Hp Hi; [done|].
  simpl in Hp. apply andb_true_iff in Hp as [Ho Hh].
  destruct i as [|i]; simpl in Hi.
  - simplify_eq. by rewrite Nat.add_0_r.
  - rewrite <- Nat.add_succ_comm. by apply IH.
Qed.

Lemma str_printable float_str object_str (h : heap) (n : nat) (v : value) :
  wf_heap h → printable h → n ≤ length h → wf_operand n v = true →
  ∃ s, str float_str object_str n h v = Str s.
Proof.
  intros Hwf Hpr. revert v.
  induction n as [|n IH]; intros v Hn Hv.
  { destruct v as [| | | | |b]; [by eexists..|].
    exfalso. simpl in Hv. apply Nat.ltb_lt in Hv. lia. }
  destruct v as [| | | | |b]; try by eexists.
  simpl in Hv. apply Nat.ltb_lt in Hv.
  destruct (lookup_lt_is_Some_2 h b) as [o Ho]; [lia|].
  assert (h !! b = Some o) as Hb by exact Ho.
  rewrite (str_ref _ _ _ _ _ _ Hb).
  pose proof (printable_from_lookup 0 _ _ _ Hpr Hb) as Hpo.
  unfold printable_object in Hpo. cbn [Nat.add] in Hpo.
  assert (∀ x, wf_operand b x = true →
            ∃ s, str float_str object_str n h x = Str s) as Hsub.
  { intros x Hx. apply IH; [lia|]. apply (wf_operand_le b); [lia|done]. }
  destruct (issubclass (ob_class o) Operator).
  - apply Nat.leb_le in Hpo. unfold Operator__str__.
    destruct (ob_operands o) as [|x [|y rest]] eqn:Hops;
      [simpl in Hpo; lia|simpl in Hpo; lia|].
    cbn [lookup list_lookup].
    assert (∀ x p, x ∈ ob_operands o →
              ∃ s, bracket (str float_str object_str n h) h x p = Str s)
      as Hbr.
    { intros x' p Hx'.
      destruct (Hsub x') as [s Hs]; [by eapply wf_heap_operand|].
      unfold bracket. rewrite Hs.
      destruct (isinstance h x' Operator && _); by eexists. }
    destruct (Hbr x (default 0 (precedence (ob_class o)))) as [sx ->].
    { rewrite Hops. set_solver. }
    destruct (Hbr y (default 0 (precedence (ob_class o)))) as [sy ->].
    { rewrite Hops. set_solver. }
    by eexists.
  - destruct (issubclass (ob_class o) Terminal); [|by eexists].
    unfold Terminal__str__. destruct (ob_value o) as [x|]; [|done].
    by apply Hsub.
Qed.

(** X22: In a well-formed heap whose operator nodes all have at least two
    operands (and whose terminals hold a value that existed before them,
    as constructed ones do), printing returns a text for every object:
    raw operands of any type and operands beyond the second are no
    obstacle. *)
Theorem str_returns float_str object_str (h : heap) (a : addr) :
  wf_heap h → printable h → a < length h →
  ∃ s, str float_str object_str (S a) h (VRef a) = Str s.
Proof.
  intros Hwf Hpr Ha. apply str_printable; [done|done|lia|].
  simpl. apply Nat.ltb_lt. lia.
Qed.

Lemma str_returns_witness :
  ∃ s, str (λ _, "") (λ _ _, "") 7
           (heap_of Sub_a_Add_b_c_and_Add_Sub_a_b_c) (VRef 6)
       = Str s.
Proof.
  apply (str_returns (λ _, "") (λ _ _, "")
           (heap_of Sub_a_Add_b_c_and_Add_Sub_a_b_c) 6).
  - reflexivity.
  - reflexivity.
  - simpl. lia.
Defined.

Lemma printable_from_snoc (k : nat) (h : heap) (o : object) :
  printable_from k h = true → printable_object (k + length h) o = true →
  printable_from k (h ++ [o]) = true.
Proof.
  revert k. induction h as [|o' h IH]; intros k Hp Ho; simpl in *.
  - rewrite Nat.add_0_r in Ho. by rewrite Ho.
  - apply andb_true_iff in Hp as [Ho' Hh]. rewrite Ho'. simpl.
    apply IH; [done|]. by rewrite Nat.add_succ_comm.
Qed.

Lemma printable_snoc (h : heap) (o : object) :
  printable h → printable_object (length h) o = true → printable (h ++ [o]).
Proof. intros Hp Ho. by apply printable_from_snoc. Qed.

(** X23: What the operator methods build prints: from a well-formed heap
    in which every object prints, the node an operator method returns is
    printed as a text, whatever the method and the operands. *)
Theorem operator_method_result_prints float_str object_str (m : method)
    (h h' : heap) (self other r : value) :
  wf_heap h → printable h → isinstance h self Expression = true →
  call_method m self other h = (Ok r, h') →
  ∃ s, str float_str object_str (length h') h' r = Str s.
Proof.
  intros Hwf Hpr Hself. rewrite call_method_unfold.
  pose proof (isinstance_valid _ _ Hself) as Hvs.
  assert (∀ h1 o, wf_heap h1 → printable h1 →
            valid h1 self = true → valid h1 o = true →
            new (method_class m)
              match m with
              | m_rsub | m_rtruediv | m_rpow => [o; self]
              | _ => [self; o]
              end h1 = (Ok r, h') →
            ∃ s, str float_str object_str (length h') h' r = Str s) as Hnew.
  { intros h1 o Hwf1 Hpr1 Hs Ho.
    rewrite (new_operator _ _ _ (method_class_binary m)).
    intros [= <- <-]. apply str_printable.
    - apply wf_heap_snoc; [done|]. unfold wf_object, valid in *.
      destruct m; cbn [ob_operands forallb]; by rewrite Hs, Ho.
    - apply printable_snoc; [done|]. by destruct m.
    - done.
    - simpl. apply Nat.ltb_lt. rewrite length_app. simpl. lia. }
  destruct (isinstance h other Expression) eqn:Hio.
  - rewrite (bind_ok _ _ _ _ _ (as_expression_expression _ _ Hio)).
    apply Hnew; [done|done|done|by apply isinstance_valid].
  - destruct (isinstance_numbers_Number other) eqn:Hn.
    + rewrite (bind_ok _ _ _ _ _ (as_expression_number _ _ Hio Hn)).
      apply Hnew.
      * by apply wf_heap_snoc.
      * apply printable_snoc; [done|]. unfold printable_object. simpl.
        by destruct other.
      * unfold valid in *. eapply wf_operand_le; [|done].
        rewrite length_app. lia.
      * unfold valid. simpl. apply Nat.ltb_lt. rewrite length_app. simpl. lia.
    + by rewrite (bind_raise _ _ _ _ _ (as_expression_other _ _ Hio Hn)).
Qed.

Lemma operator_method_result_prints_witness :
  ∃ s, str (λ _, "") (λ _ _, "") 3
         [Object Symbol [] (Some (VStr "x"));
          Object Number [] (Some (VInt 1));
          Object Add [VRef 0; VRef 1] None] (VRef 2)
       = Str s.
Proof.
  apply (operator_method_result_prints (λ _, "") (λ _ _, "") m_radd
           (heap_of Symbol_x)
           [Object Symbol [] (Some (VStr "x"));
            Object Number [] (Some (VInt 1));
            Object Add [VRef 0; VRef 1] None]
           (VRef 0) (VInt 1) (VRef 2)).
  - reflexivity.
  - reflexivity.
  - reflexivity.
  - reflexivity.
Defined.

(** [x = Symbol("x"); str(1 + x)] is ["x + 1"]. *)
Example str_1_plus_x float_str object_str :
  str float_str object_str 2
      (call_method m_radd (VRef 0) (VInt 1) (heap_of Symbol_x)).2 (VRef 2)
  = Str "x + 1".
Proof. reflexivity. Qed.

Lemma valued_from_lookup (k i : nat) (h : heap) (o : object) :
  valued_from k h = true → h !! i = Some o → valued_object (k + i) o = true.
Proof.
  revert k i. induction h as [|o' h IH]; intros k i Hp Hi; [done|].
  simpl in Hp. apply andb_true_iff in Hp as [Ho Hh].
  destruct i as [|i]; simpl in Hi.
  - simplify_eq. by rewrite Nat.add_0_r.
  - rewrite <- Nat.add_succ_comm. by apply IH.
Qed.

Lemma repr_items_returns (repr : value → str_result) (items : list value)
    (k : list string → str_result) :
  (∀ x, x ∈ items → ∃ s, repr x = Str s) → (∀ ss, ∃ s, k ss = Str s) →
  ∃ s, repr_items repr items k = Str s.
Proof.
  revert k. induction items as [|x items IH]; intros k Hitems Hk; [apply Hk|].
  cbn [repr_items]. destruct (Hitems x) as [s ->]; [set_solver|].
  cbn [str_bind]. apply IH; [|done]. intros y Hy. apply Hitems. set_solver.
Qed.

Lemma builtin_repr_valued float_repr str_repr object_repr (h : heap)
    (n : nat) (v : value) :
  wf_heap h → valued h → n ≤ length h → wf_operand n v = true →
  ∃ s, builtin_repr float_repr str_repr object_repr n h v = Str s.
Proof.
  intros Hwf Hval. revert v.
  induction n as [|n IH]; intros v Hn Hv.
  { destruct v as [| | | | |b]; [by eexists..|].
    exfalso. simpl in Hv. apply Nat.ltb_lt in Hv. lia. }
  destruct v as [| | | | |b]; try by eexists.
  simpl in Hv. apply Nat.ltb_lt in Hv.
  destruct (lookup_lt_is_Some_2 h b) as [o Ho]; [lia|].
  assert (h !! b = Some o) as Hb by exact Ho.
  cbn [builtin_repr]. rewrite Hb.
  pose proof (valued_from_lookup 0 _ _ _ Hval Hb) as Hvo.
  unfold valued_object in Hvo. cbn [Nat.add] in Hvo.
  assert (∀ x, wf_operand b x = true →
            ∃ s, builtin_repr float_repr str_repr object_repr n h x = Str s)
    as Hsub.
  { intros x Hx. apply IH; [lia|]. apply (wf_operand_le b); [lia|done]. }
  destruct (issubclass (ob_class o) Operator).
  - unfold Operator__repr__. apply repr_items_returns; [|by eexists].
    intros x Hx. apply Hsub. by eapply wf_heap_operand.
  - destruct (issubclass (ob_class o) Terminal); [|by eexists].
    unfold Terminal__repr__. destruct (ob_value o) as [x|]; [|done].
    by apply Hsub.
Qed.

(** X24: [repr] returns a text for every object of a well-formed heap
    whose terminals hold a value, whatever the number and the types of the
    operands of its operator nodes; unlike [str], it does not need two
    operands. *)
Theorem repr_returns float_repr str_repr object_repr (h : heap) (a : addr) :
  wf_heap h → valued h → a < length h →
  ∃ s, builtin_repr float_repr str_repr object_repr (S a) h (VRef a) = Str s.
Proof.
  intros Hwf Hval Ha. apply builtin_repr_valued; [done|done|lia|].
  simpl. apply Nat.ltb_lt. lia.
Qed.

Lemma repr_returns_witness :
  ∃ s, builtin_repr (λ _, "") (λ s, s) (λ _ _, "") 3 (heap_of Mul_Add_a_2)
         (VRef 2)
       = Str s.
Proof.
  apply (repr_returns (λ _, "") (λ s, s) (λ _ _, "") (heap_of Mul_Add_a_2) 2).
  - reflexivity.
  - reflexivity.
  - simpl. lia.
Defined.

(** [repr(Mul(Add(Symbol("a"), 2)))] is ["Mul(Add('a', 2),)"]. *)
Example repr_Mul_Add_a_2 float_repr object_repr :
  builtin_repr float_repr (λ s, "'" +:+ s +:+ "'") object_repr 3
    (heap_of Mul_Add_a_2) (VRef 2)
  = Str "Mul(Add('a', 2),)".
Proof. reflexivity. Qed.

(** ** Printing a derivative *)

Lemma keeps_printable_bind {A B} (oka : A → Prop) (okb : B → Prop)
    (h : heap) (m : M A) (k : A → M B) :
  keeps_printable oka (m h) →
  (∀ h1 a, printable h1 → oka a → keeps_printable okb (k a h1)) →
  keeps_printable okb (bind m k h).
Proof.
  intros [Hp Hok] Hk. unfold bind.
  destruct (m h) as [[a| | |] h1]; simpl in *;
    try by unfold keeps_printable; split_and!.
  by apply Hk; [|apply Hok].
Qed.

Lemma keeps_printable_raise {A} (ok : A → Prop) (h : heap) (e : exn) :
  printable h → keeps_printable ok (raise e h).
Proof. intros Hp. by unfold keeps_printable; split_and!. Qed.

Lemma keeps_printable_new_operator (c : cls) (args : list value) (h : heap) :
  printable h → binary_operator c = true → 2 ≤ length args →
  keeps_printable (λ _ : value, True) (new c args h).
Proof.
  intros Hp Hc Hlen. rewrite (new_operator _ _ _ Hc).
  split; [|done]. apply printable_snoc; [done|].
  unfold printable_object. cbn [ob_class ob_operands].
  destruct c; try done; by apply Nat.leb_le.
Qed.

Lemma keeps_printable_new_Number (n : Z) (h : heap) :
  printable h → keeps_printable (λ _ : value, True) (new Number [VInt n] h).
Proof.
  intros Hp. rewrite new_Number_ok by done.
  split; [|done]. by apply printable_snoc.
Qed.

Lemma keeps_printable_map_m (f : value → M value) (l : list value)
    (h : heap) :
  (∀ h1 x, printable h1 → keeps_printable (λ _ : value, True) (f x h1)) →
  printable h →
  keeps_printable (λ rs, length rs = length l) (map_m f l h).
Proof.
  intros Hf. revert h. induction l as [|x l IH]; intros h Hp.
  - split; [done|]. by intros ? [= <-].
  - cbn [map_m]. eapply keeps_printable_bind; [by apply Hf|].
    intros h1 y Hp1 _. eapply keeps_printable_bind; [by apply IH|].
    intros h2 ys Hp2 Hys. split; [done|].
    intros ? [= <-]. simpl. by rewrite Hys.
Qed.

Ltac printable_call IH :=
  eapply keeps_printable_bind;
  [ apply IH; assumption | intros ? ? ? _ ].

Ltac printable_new :=
  first
    [ eapply keeps_printable_bind;
      [ first [ apply keeps_printable_new_Number; assumption
              | apply keeps_printable_new_operator;
                [assumption | reflexivity | simpl; lia] ]
      | intros ? ? ? _ ]
    | apply keeps_printable_new_Number; assumption
    | apply keeps_printable_new_operator;
      [assumption | reflexivity | simpl; lia] ].

Lemma differentiate_keeps_printable (fuel : nat) (var : value) :
  ∀ (h : heap) (expr : value),
    printable h →
    keeps_printable (λ _, True) (differentiate fuel expr var h).
Proof.
  induction fuel as [|fuel IH]; intros h expr Hp;
    [by unfold keeps_printable; split_and!|].
  destruct expr as [| | | | |a]; try by unfold keeps_printable; split_and!.
  destruct (h !! a) as [o|] eqn:Ha.
  2:{ cbn [differentiate]. unfold bind, get_type, type_of. rewrite Ha.
      by unfold keeps_printable; split_and!. }
  pose proof (printable_from_lookup 0 _ _ _ Hp Ha) as Hpo.
  unfold printable_object in Hpo.
  cbn [differentiate].
  rewrite (bind_ok _ _ _ _ _ (get_type_ref _ _ _ Ha)).
  rewrite dispatch_class.
  destruct (ob_class o) eqn:Hc; try by apply keeps_printable_raise.
  - rewrite (bind_ok _ _ _ _ _ (get_operands_ref _ _ _ Ha)).
    eapply keeps_printable_bind.
    + apply keeps_printable_map_m; [|done]. intros h1 x ?. by apply IH.
    + cbn beta. intros h1 ds Hp1 Hds.
      apply keeps_printable_new_operator; [done..|].
      rewrite Hds. by apply Nat.leb_le.
  - rewrite (bind_ok _ _ _ _ _ (get_operands_ref _ _ _ Ha)).
    destruct (ob_operands o) as [|f [|g [|]]];
      try by apply keeps_printable_raise.
    cbn [unpack2]. rewrite bind_ret.
    printable_call IH. printable_new. printable_call IH.
    printable_new. printable_new.
  - rewrite (bind_ok _ _ _ _ _ (get_operands_ref _ _ _ Ha)).
    destruct (ob_operands o) as [|f [|g [|]]];
      try by apply keeps_printable_raise.
    cbn [unpack2]. rewrite bind_ret.
    printable_call IH. printable_new. printable_call IH.
    printable_new. printable_new. printable_new. printable_new. printable_new.
  - rewrite (bind_ok _ _ _ _ _ (get_operands_ref _ _ _ Ha)).
    destruct (ob_operands o) as [|b [|e [|]]];
      try by apply keeps_printable_raise.
    cbn [unpack2]. rewrite bind_ret, bind_check_instance.
    destruct (isinstance h e Number); [|by apply keeps_printable_raise].
    printable_new. printable_new. printable_new. printable_new.
    printable_call IH. printable_new.
  - by apply keeps_printable_new_Number.
  - destruct (ob_value o) as [v|] eqn:Hval.
    + rewrite (bind_ok _ _ _ _ _ (get_value_ref _ _ _ _ Ha Hval)).
      destruct (py_eq v var); by apply keeps_printable_new_Number.
    + rewrite (bind_raise _ _ _ _ _ (get_value_none _ _ _ Ha Hval)).
      by unfold keeps_printable; split_and!.
Qed.

(** X25: A derivative prints.  From a well-formed heap in which every
    object prints (operators with two operands or more), whatever
    [differentiate] returns is printed as a text: the rules build nodes of
    two operands, and the sum rule one of as many operands as the sum
    had. *)
Theorem derivative_prints float_str object_str (fuel : nat) (h h' : heap)
    (expr var d : value) :
  wf_heap h → printable h → valid h expr = true →
  differentiate fuel expr var h = (Ok d, h') →
  ∃ s, str float_str object_str (length h') h' d = Str s.
Proof.
  intros Hwf Hp Hv Hd.
  pose proof (differentiate_keeps_wf fuel var h expr Hwf Hv) as (_ & Hwf' & Hvd).
  pose proof (differentiate_keeps_printable fuel var h expr Hp) as [Hp' _].
  rewrite Hd in *. simpl in *.
  specialize (Hvd d eq_refl). apply Forall_cons in Hvd as [Hvd _].
  by apply str_printable.
Qed.

Lemma derivative_prints_witness :
  ∃ s, str (λ _, "") (λ _ _, "")
         (length (differentiate 2 (VRef 2) (VStr "x") (heap_of Pow_x_3)).2)
         (differentiate 2 (VRef 2) (VStr "x") (heap_of Pow_x_3)).2 (VRef 8)
       = Str s.
Proof.
  apply (derivative_prints (λ _, "") (λ _ _, "") 2 (heap_of Pow_x_3)
           (differentiate 2 (VRef 2) (VStr "x") (heap_of Pow_x_3)).2
           (VRef 2) (VStr "x") (VRef 8)).
  - reflexivity.
  - reflexivity.
  - reflexivity.
  - reflexivity.
Defined.

(** [str(differentiate(Pow(Symbol("x"), Number(3)), var="x"))] is
    ["3 * x ^ (3 - 1) * 1"]. *)
Example str_differentiate_Pow_x_3 float_str object_str :
  str float_str object_str 9
      (differentiate 2 (VRef 2) (VStr "x") (heap_of Pow_x_3)).2 (VRef 8)
  = Str "3 * x ^ (3 - 1) * 1".
Proof. reflexivity. Qed.
